(** * read_file_paths: the directory scanner of [main.go]

    The program walks a directory with [filepath.WalkDir], hands every
    non-directory path over a buffered channel to the main goroutine, which
    writes [path, len(path)] records to [file_paths.csv] in batches while a
    third goroutine displays the running count.

    The development embeds the program as Rocq functions:
    - Go strings are byte sequences, here [string] (a list of 8-bit [ascii]);
    - [int] and [int64] are [Z], the atomic add wraps at 64 bits;
    - the library calls the program makes ([strconv], [bufio], [encoding/csv],
      [os], [path/filepath]) are modelled after the Go standard library on a
      64-bit platform; allocation ([make], [append]) is assumed to succeed;
    - the three goroutines are three deterministic step functions over one
      shared state; a run is a schedule, that is a list of goroutine choices,
      and every step carries the event it performs. *)

From Stdlib Require Import Ascii String List ZArith Lia Bool Arith Sorted.
From Stdlib Require Import Decimal DecimalString DecimalZ DecimalPos.
Import ListNotations.

Open Scope string_scope.
Open Scope list_scope.
Open Scope nat_scope.

(** ** Byte strings *)

Infix "+++" := String.append (right associativity, at level 60).

(** [s[:n]] *)
Fixpoint take (n : nat) (s : string) : string :=
  match n, s with
  | S k, String c r => String c (take k r)
  | _, _ => EmptyString
  end.

(** [s[n:]] *)
Fixpoint drop (n : nat) (s : string) : string :=
  match n, s with
  | S k, String _ r => drop k r
  | _, _ => s
  end.

Definition is_empty (s : string) : bool :=
  match s with EmptyString => true | _ => false end.

(** [bytes [226; 160; 139]] is the string with these byte values. *)
Definition bytes (l : list nat) : string :=
  string_of_list_ascii (map ascii_of_nat l).

Definition byte_is (n : nat) (c : ascii) : bool := Nat.eqb (nat_of_ascii c) n.

Definition LF : string := bytes [10].
Definition CR : string := bytes [13].
Definition DQUOTE : string := bytes [34].

Fixpoint concat_str (l : list string) : string :=
  match l with
  | [] => EmptyString
  | s :: r => s +++ concat_str r
  end.

(** ** Errors *)

(** Go [error] values the program can meet.  [SkipDir] and [SkipAll] are the
    sentinels of [io/fs] that [WalkDir] compares with [==]; the errors of the
    [os] package are kept by their message. *)
Inductive error : Type :=
| SkipDir
| SkipAll
| ErrShortWrite
| PathError (msg : string).

(** [err.Error()], what [%v] prints. *)
Definition Error (e : error) : string :=
  match e with
  | SkipDir => "skip this directory"
  | SkipAll => "skip everything and stop the walk"
  | ErrShortWrite => "short write"
  | PathError msg => msg
  end.

Definition is_SkipDir (e : option error) : bool :=
  match e with Some SkipDir => true | _ => false end.

Definition is_SkipAll (e : option error) : bool :=
  match e with Some SkipAll => true | _ => false end.

Definition is_nil {A : Type} (e : option A) : bool :=
  match e with None => true | Some _ => false end.

(** ** strconv *)

Definition min_int64 : Z := - 2 ^ 63.
Definition max_int64 : Z := 2 ^ 63 - 1.

(** Conversion to [int64]: two's complement wrap-around. *)
Definition wrap64 (z : Z) : Z := (z + 2 ^ 63) mod 2 ^ 64 - 2 ^ 63.

(** [strconv.Itoa] *)
Definition Itoa (i : Z) : string := NilZero.string_of_int (Z.to_int i).

(** [len(s)] as an [int] *)
Definition len (s : string) : Z := Z.of_nat (String.length s).

Definition digit_val (c : ascii) : option Z :=
  let n := nat_of_ascii c in
  if (48 <=? n)%nat && (n <=? 57)%nat then Some (Z.of_nat (n - 48)) else None.

Fixpoint parse_digits (s : string) (acc : Z) : option Z :=
  match s with
  | EmptyString => Some acc
  | String c r =>
      match digit_val c with
      | Some d => parse_digits r (acc * 10 + d)
      | None => None
      end
  end.

(** [strconv.Atoi] on a 64-bit platform: an optional sign, then one or more
    decimal digits, the value within [int]; [None] stands for a non-nil
    error (syntax or range). *)
Definition Atoi (s : string) : option Z :=
  match s with
  | EmptyString => None
  | String c r =>
      let neg := byte_is 45 c in
      let body := if neg || byte_is 43 c then r else s in
      if is_empty body then None else
      match parse_digits body 0 with
      | None => None
      | Some n =>
          let v := if neg then (- n)%Z else n in
          if (min_int64 <=? v)%Z && (v <=? max_int64)%Z then Some v else None
      end
  end.

(** ** The output file *)

(** An open [os.File]: the bytes the operating system has accepted, and how
    many more the device takes ([None]: no limit). *)
Record File : Type := mkFile {
  content : string;
  room : option nat
}.

(** [Write] and [WriteString] of [os.File]: the bytes written, how many, and
    the error.  A device without room takes what fits and reports an error. *)
Definition File_Write (f : File) (p : string) : File * nat * option error :=
  match room f with
  | None => (mkFile (content f +++ p) None, String.length p, None)
  | Some r =>
      if (String.length p <=? r)%nat
      then (mkFile (content f +++ p) (Some (r - String.length p)),
            String.length p, None)
      else (mkFile (content f +++ take r p) (Some 0), r,
            Some (PathError "write file_paths.csv: no space left on device"))
  end.

(** ** bufio.Writer *)

Module bufio.

Record Writer : Type := mkWriter {
  err : option error;
  buf : string;
  wr : File
}.

Definition defaultBufSize : nat := 4096.

Definition NewWriter (f : File) : Writer := mkWriter None EmptyString f.

Definition Available (b : Writer) : nat := defaultBufSize - String.length (buf b).
Definition Buffered (b : Writer) : nat := String.length (buf b).

(** An operation on the writer returns the writer and its [error]. *)
Definition io : Type := Writer -> Writer * option error.

Definition ok : io := fun b => (b, None).

(** [m1] then, unless it failed, [m2]. *)
Definition andThen (m1 m2 : io) : io :=
  fun b =>
    match m1 b with
    | (b1, Some e) => (b1, Some e)
    | (b1, None) => m2 b1
    end.

Definition Flush : io :=
  fun b =>
    match err b with
    | Some e => (b, Some e)
    | None =>
        if (Buffered b =? 0)%nat then (b, None) else
        let '(f, n, e) := File_Write (wr b) (buf b) in
        let e := if (n <? Buffered b)%nat && is_nil e
                 then Some ErrShortWrite else e in
        match e with
        | Some e' => (mkWriter (Some e') (drop n (buf b)) f, Some e')
        | None => (mkWriter None EmptyString f, None)
        end
    end.

Definition WriteByte (c : ascii) : io :=
  fun b =>
    match err b with
    | Some e => (b, Some e)
    | None =>
        let '(b1, failed) :=
          if (Available b <=? 0)%nat
          then let '(b', e) := Flush b in (b', negb (is_nil e))
          else (b, false) in
        if failed then (b1, err b1)
        else (mkWriter (err b1) (buf b1 +++ String c EmptyString) (wr b1), None)
    end.

(** One turn of the loop of [WriteString]: while the string does not fit and
    no error is pending, either hand the whole string to the file (empty
    buffer; [os.File] is an [io.StringWriter]) or fill the buffer and flush
    it. *)
Definition WriteString_turn (bs : Writer * string) : Writer * string :=
  let '(b, s) := bs in
  if (Available b <? String.length s)%nat && is_nil (err b) then
    if (Buffered b =? 0)%nat then
      let '(f, n, e) := File_Write (wr b) s in
      (mkWriter e (buf b) f, drop n s)
    else
      let n := Nat.min (Available b) (String.length s) in
      let b1 := mkWriter (err b) (buf b +++ take n s) (wr b) in
      (fst (Flush b1), drop n s)
  else (b, s).

(** The loop runs at most twice (lemma [WriteString_turn_done]). *)
Definition WriteString (s : string) : io :=
  fun b =>
    let '(b2, s2) := WriteString_turn (WriteString_turn (b, s)) in
    match err b2 with
    | Some e => (b2, Some e)
    | None => (mkWriter None (buf b2 +++ s2) (wr b2), None)
    end.

(** [WriteRune] of a rune below [utf8.RuneSelf] is [WriteByte]. *)
Definition WriteRune (c : ascii) : io := WriteByte c.

End bufio.

(** ** encoding/csv *)

Module csv.

Import bufio.

(** [csv.NewWriter]: [Comma] is [','] and [UseCRLF] is false. *)
Definition Comma : ascii := ascii_of_nat 44.

Definition NewWriter (f : File) : Writer := bufio.NewWriter f.

(** UTF-8 encodings of the runes for which [unicode.IsSpace] holds. *)
Definition space_runes : list string :=
  map bytes
    ([[9]; [10]; [11]; [12]; [13]; [32]; [194; 133]; [194; 160];
      [225; 154; 128]] ++
     map (fun k => [226; 128; 128 + k]) (seq 0 11) ++
     [[226; 128; 168]; [226; 128; 169]; [226; 128; 175];
      [226; 129; 159]; [227; 128; 128]])%list.

Fixpoint has_special (s : string) : bool :=
  match s with
  | EmptyString => false
  | String c r =>
      byte_is 10 c || byte_is 13 c || byte_is 34 c || Ascii.eqb c Comma
      || has_special r
  end.

Definition fieldNeedsQuotes (field : string) : bool :=
  if is_empty field then false
  else if String.eqb field (bytes [92; 46]) then true
  else if has_special field then true
  else existsb (fun p => String.prefix p field) space_runes.

(** The body of a quoted field: the stretches without quote, CR or LF are
    written whole, a quote is doubled, CR and LF are written as they are.
    [chunk] is the stretch read so far. *)
Fixpoint write_quoted (chunk field : string) : io :=
  match field with
  | EmptyString => if is_empty chunk then ok else WriteString chunk
  | String c rest =>
      if byte_is 34 c then
        andThen (WriteString chunk)
          (andThen (WriteString (DQUOTE +++ DQUOTE))
             (write_quoted EmptyString rest))
      else if byte_is 13 c || byte_is 10 c then
        andThen (WriteString chunk)
          (andThen (WriteByte c) (write_quoted EmptyString rest))
      else write_quoted (chunk +++ String c EmptyString) rest
  end.

Definition write_field (field : string) : io :=
  if negb (fieldNeedsQuotes field) then WriteString field
  else andThen (WriteByte (ascii_of_nat 34))
         (andThen (write_quoted EmptyString field)
            (WriteByte (ascii_of_nat 34))).

(** The fields of a record, a comma before each but the first. *)
Fixpoint write_fields (first : bool) (record : list string) : io :=
  match record with
  | [] => ok
  | field :: rest =>
      andThen (if first then ok else WriteRune Comma)
        (andThen (write_field field) (write_fields false rest))
  end.

(** [Write] of [csv.Writer] *)
Definition Write (record : list string) : io :=
  andThen (write_fields true record) (WriteByte (ascii_of_nat 10)).

(** [WriteAll] of [csv.Writer]: every record, then [Flush]. *)
Fixpoint WriteAll (records : list (list string)) : io :=
  match records with
  | [] => Flush
  | record :: rest => andThen (Write record) (WriteAll rest)
  end.

(** The bytes a record becomes in the file. *)
Fixpoint quote_body (field : string) : string :=
  match field with
  | EmptyString => EmptyString
  | String c rest =>
      if byte_is 34 c then DQUOTE +++ DQUOTE +++ quote_body rest
      else String c (quote_body rest)
  end.

Definition encode_field (field : string) : string :=
  if fieldNeedsQuotes field then DQUOTE +++ quote_body field +++ DQUOTE
  else field.

Fixpoint encode_fields (first : bool) (record : list string) : string :=
  match record with
  | [] => EmptyString
  | field :: rest =>
      (if first then EmptyString else String Comma EmptyString)
      +++ encode_field field +++ encode_fields false rest
  end.

Definition encode (record : list string) : string :=
  encode_fields true record +++ LF.

Definition encode_all (records : list (list string)) : string :=
  concat_str (map encode records).

End csv.

(** ** The file system the program reads *)

(** What is found at a path.  A directory carries what [os.ReadDir] returns
    for it: the entries in the order it lists them, and the error of the
    read, if any (the entries are then those read before the error). *)
Inductive node : Type :=
| RegularFile                      (* neither a directory nor a link *)
| Symlink (target : node)          (* a link and what it resolves to *)
| Dangling (msg : string)          (* a link [os.Stat] fails to resolve *)
| Dir (dirs : entries) (rd_err : option string)
with entries : Type :=
| no_entry
| entry (name : string) (n : node) (rest : entries).

Scheme node_mut := Induction for node Sort Prop
  with entries_mut := Induction for entries Sort Prop.
Combined Scheme node_entries_ind from node_mut, entries_mut.

(** The type bits of an [fs.DirEntry] or [fs.FileInfo]; the program reads
    nothing else of them. *)
Inductive FileMode : Type := ModeRegular | ModeSymlink | ModeDir.

Definition IsDir (d : FileMode) : bool :=
  match d with ModeDir => true | _ => false end.

(** The mode [os.Lstat] and [os.ReadDir] report: links are not followed. *)
Definition lmode (n : node) : FileMode :=
  match n with
  | RegularFile => ModeRegular
  | Symlink _ | Dangling _ => ModeSymlink
  | Dir _ _ => ModeDir
  end.

(** The mode [os.Stat] reports: links are followed. *)
Fixpoint resolve (n : node) : FileMode + error :=
  match n with
  | RegularFile => inl ModeRegular
  | Symlink t => resolve t
  | Dangling msg => inr (PathError msg)
  | Dir _ _ => inl ModeDir
  end.

Inductive lookup : Type :=
| Found (n : node)
| Missing (msg : string).

Definition FileSystem : Type := string -> lookup.

Definition os_Stat (fs : FileSystem) (path : string) : FileMode + error :=
  match fs path with
  | Found n => resolve n
  | Missing msg => inr (PathError msg)
  end.

Definition os_Lstat (fs : FileSystem) (path : string) : node + error :=
  match fs path with
  | Found n => inl n
  | Missing msg => inr (PathError msg)
  end.

(** ** path/filepath: WalkDir *)

(** An [fs.WalkDirFunc].  Its effect in this program is to send paths on
    the channel: it returns the paths it sends, in order, and its error.
    The entry is [None] for Go's nil. *)
Definition WalkDirFunc : Type :=
  string -> option FileMode -> option error -> list string * option error.

Section WalkDir.

(** [filepath.Join] of a directory path and an entry name. *)
Variable Join : string -> string -> string.
Variable fn : WalkDirFunc.

(** [if err == SkipDir && d.IsDir() { err = nil }] *)
Definition skip_dir (err : option error) (d : FileMode) : option error :=
  if is_SkipDir err && IsDir d then None else err.

(** [walkDir] of [path/filepath].  [os.ReadDir] is read off the node; on
    a node that is no directory it fails, which is not reached since the
    walk returns before it when [d.IsDir()] is false. *)
Fixpoint walkDir (path : string) (n : node) : list string * option error :=
  let d := lmode n in
  let '(out1, err1) := fn path (Some d) None in
  if negb (is_nil err1) || negb (IsDir d) then (out1, skip_dir err1 d)
  else
    let rd_err :=
      match n with
      | Dir _ e => option_map PathError e
      | _ => Some (PathError "not a directory")
      end in
    let '(out2, err2) :=
      match rd_err with
      | Some e => fn path (Some d) (Some e)
      | None => ([], None)
      end in
    if negb (is_nil err2) then (out1 ++ out2, skip_dir err2 d)
    else
      let '(out3, err3) :=
        match n with
        | Dir dirs _ => walk_entries path dirs
        | _ => ([], None)
        end in
      (out1 ++ out2 ++ out3, err3)
with walk_entries (path : string) (dirs : entries)
  : list string * option error :=
  match dirs with
  | no_entry => ([], None)
  | entry name n rest =>
      let path1 := Join path name in
      let '(out, err) := walkDir path1 n in
      if negb (is_nil err) then
        if is_SkipDir err then (out, None) else (out, err)
      else
        let '(out', err') := walk_entries path rest in
        (out ++ out', err')
  end.

(** [filepath.WalkDir] *)
Definition WalkDir (fs : FileSystem) (root : string)
  : list string * option error :=
  let '(out, err) :=
    match os_Lstat fs root with
    | inr e => fn root None (Some e)
    | inl n => walkDir root n
    end in
  (out, if is_SkipDir err || is_SkipAll err then None else err).

End WalkDir.

(** The callback of [main] (lines 94-103).  A nil entry comes only with an
    error; [d.IsDir()] on nil would panic and is given no path here. *)
Definition scan_fn : WalkDirFunc :=
  fun path d err =>
    match err with
    | Some e => ([], Some e)
    | None =>
        match d with
        | Some d => if negb (IsDir d) then ([path], None) else ([], None)
        | None => ([], None)
        end
    end.

(** *** What a walk should visit *)

(** The paths of the entries of a tree that are not directories, depth
    first, each directory in the order of its listing. *)
Fixpoint non_dirs (Join : string -> string -> string) (path : string)
  (n : node) : list string :=
  match n with
  | Dir dirs _ => non_dirs_in Join path dirs
  | _ => [path]
  end
with non_dirs_in (Join : string -> string -> string) (path : string)
  (dirs : entries) : list string :=
  match dirs with
  | no_entry => []
  | entry name n rest =>
      non_dirs Join (Join path name) n ++ non_dirs_in Join path rest
  end.

(** Their number. *)
Fixpoint count_non_dirs (n : node) : nat :=
  match n with
  | Dir dirs _ => count_non_dirs_in dirs
  | _ => 1
  end
with count_non_dirs_in (dirs : entries) : nat :=
  match dirs with
  | no_entry => 0
  | entry _ n rest => count_non_dirs n + count_non_dirs_in rest
  end.

(** No directory of the tree fails to be read. *)
Fixpoint readable (n : node) : bool :=
  match n with
  | Dir dirs e => is_nil e && readable_in dirs
  | _ => true
  end
with readable_in (dirs : entries) : bool :=
  match dirs with
  | no_entry => true
  | entry _ n rest => readable n && readable_in rest
  end.

(** What a depth-first visit meets, in order: a non-directory entry, or a
    directory that cannot be read (whose listed entries come after it). *)
Inductive visit : Type :=
| VPath (path : string)
| VFail (msg : string).

Fixpoint visits (Join : string -> string -> string) (path : string)
  (n : node) : list visit :=
  match n with
  | Dir dirs e =>
      match e with Some msg => [VFail msg] | None => [] end
      ++ visits_in Join path dirs
  | _ => [VPath path]
  end
with visits_in (Join : string -> string -> string) (path : string)
  (dirs : entries) : list visit :=
  match dirs with
  | no_entry => []
  | entry name n rest =>
      visits Join (Join path name) n ++ visits_in Join path rest
  end.

(** The paths met before the first failure, and that failure. *)
Fixpoint until_failure (vs : list visit) : list string * option error :=
  match vs with
  | [] => ([], None)
  | VPath p :: r => let '(ps, e) := until_failure r in (p :: ps, e)
  | VFail msg :: _ => ([], Some (PathError msg))
  end.

(** *** filepath.Join on Unix *)

Module unix.

(** The elements of a path between its slashes. *)
Fixpoint split (cur s : string) : list string :=
  match s with
  | EmptyString => [cur]
  | String c r =>
      if byte_is 47 c then cur :: split EmptyString r
      else split (cur +++ String c EmptyString) r
  end.

(** [stack] holds the elements kept so far, the last one first. *)
Definition clean_step (rooted : bool) (stack : list string) (el : string)
  : list string :=
  if is_empty el || String.eqb el "." then stack
  else if String.eqb el ".." then
    match stack with
    | top :: below => if String.eqb top ".." then el :: stack else below
    | [] => if rooted then [] else [el]
    end
  else el :: stack.

(** [filepath.Clean] *)
Definition Clean (path : string) : string :=
  let rooted := String.prefix "/" path in
  let kept := List.rev (fold_left (clean_step rooted) (split EmptyString path) []) in
  let out := (if rooted then "/" else EmptyString) +++ String.concat "/" kept in
  if is_empty out then "." else out.

(** [filepath.Join] of two elements *)
Definition Join (dir name : string) : string :=
  if negb (is_empty dir) then Clean (dir +++ "/" +++ name)
  else if negb (is_empty name) then Clean name
  else EmptyString.

End unix.

(** ** The program and its environment *)

(** What a run of the program depends on. *)
Record World : Type := mkWorld {
  argv0 : string;               (* os.Args[0] *)
  argv : list string;           (* os.Args[1:] *)
  files : FileSystem;
  csv_before : option string;   (* file_paths.csv before the run, if any *)
  create_err : option string;   (* the error of os.Create, if it fails *)
  disk_room : option nat        (* the bytes the device takes for the file *)
}.

Definition defaultBatchSize : Z := 100.

(** Capacity of [pathChan] (line 63). *)
Definition chanCap : nat := 1000.

Definition header : list string := ["file_path"; "path_length"].

(** The scanner goroutine (lines 91-104).  The callback does nothing but
    send, so the walk of a tree is the list of its sends and its result;
    the goroutine stands at one of these sends, where it waits while the
    channel is full. *)
Inductive Scanner : Type :=
| Walking (todo : list string) (result : option error)
    (* inside WalkDir: the sends still to come and what it will return *)
| Returned                      (* scanErr assigned, the deferred close left *)
| Finished.

(** The spinner goroutine (lines 71-87); [i] is its frame counter. *)
Inductive Spinner : Type :=
| Spinning (i : nat)
| Stopped.

(** Where the main goroutine stands.  A step is one operation that another
    goroutine or the outside can observe: a channel operation, an atomic
    add, a call that writes the file, the exit.  The statements between
    two of them touch only variables of the goroutine itself and go with
    the step before. *)
Inductive PC : Type :=
| AtRange          (* line 109: for path := range pathChan *)
| AtWriteAll       (* line 114: the batch is full *)
| AtAdd            (* lines 119-120 *)
| AtRemaining      (* line 125 *)
| AtFinalAdd       (* line 130 *)
| AtDone           (* line 134: done <- true *)
| AtWait           (* lines 135-144 and the deferred calls *)
| Exited (code : Z).

Record State : Type := mkState {
  scanner : Scanner;
  scanErr : option error;
  pathChan : list string;       (* the buffered paths, oldest first *)
  closed : bool;
  pc : PC;
  batchSize : Z;
  batch : list (list string);
  writer : bufio.Writer;
  fileCount : Z;
  spinner : Spinner;
  stdout : string;
  stderr : string
}.

(** What a step does. *)
Inductive Event : Type :=
| Send (path : string)                  (* scanner: pathChan <- path *)
| Return (err : option error)           (* scanner: scanErr = WalkDir(...) *)
| Close                                 (* scanner: close(pathChan) *)
| Recv (path : string)                  (* main: a path taken, its record appended *)
| EndOfStream                           (* main: the range loop ends *)
| Flushed (records : list (list string))  (* main: WriteAll returned nil *)
| WriteFailed (records : list (list string)) (* main: WriteAll failed, exit 1 *)
| Added (n : Z)                         (* main: atomic.AddInt64 *)
| NothingLeft                           (* main: the last batch is empty *)
| Observed (count : Z)                  (* spinner: atomic.LoadInt64, a frame *)
| Stop                                  (* main and spinner: done <- true *)
| Exit (code : Z).                      (* main: report, exit *)

Inductive Goroutine : Type := TScanner | TMain | TSpinner.

(** The braille glyphs of the spinner, in UTF-8. *)
Definition spinChars : list string :=
  map (fun k => bytes [226; 160; 128 + k]) [11; 25; 57; 56; 60; 52; 38; 39; 7; 15].

(** [fmt.Printf("\r%c Scanning... %d files found", ...)] *)
Definition frame (i : nat) (count : Z) : string :=
  CR +++ nth (i mod List.length spinChars) spinChars EmptyString
  +++ " Scanning... " +++ Itoa count +++ " files found".

Definition clear_line : string := CR +++ bytes [27] +++ "[K".

Definition set_pc (p : PC) (s : State) : State :=
  mkState (scanner s) (scanErr s) (pathChan s) (closed s) p (batchSize s)
    (batch s) (writer s) (fileCount s) (spinner s) (stdout s) (stderr s).

Definition exited (s : State) : bool :=
  match pc s with Exited _ => true | _ => false end.

(** One step of the scanner goroutine: the next send of the walk (it waits
    while the channel is full), then the assignment of [scanErr], then the
    deferred [close]. *)
Definition scanner_step (s : State) : option (Event * State) :=
  if exited s then None else
  match scanner s with
  | Walking (path :: todo) r =>
      if (List.length (pathChan s) <? chanCap)%nat then
        Some (Send path,
              mkState (Walking todo r) (scanErr s) (pathChan s ++ [path])
                (closed s) (pc s) (batchSize s) (batch s) (writer s)
                (fileCount s) (spinner s) (stdout s) (stderr s))
      else None
  | Walking [] r =>
      Some (Return r,
            mkState Returned r (pathChan s) (closed s) (pc s) (batchSize s)
              (batch s) (writer s) (fileCount s) (spinner s) (stdout s)
              (stderr s))
  | Returned =>
      Some (Close,
            mkState Finished (scanErr s) (pathChan s) true (pc s)
              (batchSize s) (batch s) (writer s) (fileCount s) (spinner s)
              (stdout s) (stderr s))
  | Finished => None
  end.

(** One step of the spinner goroutine: the default case of its select. *)
Definition spinner_step (s : State) : option (Event * State) :=
  if exited s then None else
  match spinner s with
  | Spinning i =>
      let count := fileCount s in
      Some (Observed count,
            mkState (scanner s) (scanErr s) (pathChan s) (closed s) (pc s)
              (batchSize s) (batch s) (writer s) (fileCount s)
              (Spinning (i + 1)) (stdout s +++ frame i count) (stderr s))
  | Stopped => None
  end.

(** [WriteAll] of the batch (lines 114-117 and 126-129): on an error the
    message and [os.Exit(1)], else on to the add at [next]. *)
Definition write_batch (s : State) (what : string) (next : PC)
  : Event * State :=
  let '(w', e) := csv.WriteAll (batch s) (writer s) in
  match e with
  | Some e =>
      (WriteFailed (batch s),
       mkState (scanner s) (scanErr s) (pathChan s) (closed s) (Exited 1)
         (batchSize s) (batch s) w' (fileCount s) (spinner s) (stdout s)
         (stderr s +++ LF +++ "Error writing " +++ what +++ ": "
          +++ Error e +++ LF))
  | None =>
      (Flushed (batch s),
       mkState (scanner s) (scanErr s) (pathChan s) (closed s) next
         (batchSize s) (batch s) w' (fileCount s) (spinner s) (stdout s)
         (stderr s))
  end.

(** [atomic.AddInt64(&fileCount, int64(len(batch)))], and the batch after. *)
Definition add_count (s : State) (batch' : list (list string)) (next : PC)
  : Event * State :=
  let n := Z.of_nat (List.length (batch s)) in
  (Added n,
   mkState (scanner s) (scanErr s) (pathChan s) (closed s) next
     (batchSize s) batch' (writer s) (wrap64 (fileCount s + n)) (spinner s)
     (stdout s) (stderr s)).

(** One step of the main goroutine, from the range loop on. *)
Definition main_step (s : State) : option (Event * State) :=
  match pc s with
  | AtRange =>
      match pathChan s with
      | path :: rest =>
          let pathLength := len path in
          let batch' := batch s ++ [[path; Itoa pathLength]] in
          Some (Recv path,
                mkState (scanner s) (scanErr s) rest (closed s)
                  (if (Z.of_nat (List.length batch') >=? batchSize s)%Z
                   then AtWriteAll else AtRange)
                  (batchSize s) batch' (writer s) (fileCount s) (spinner s)
                  (stdout s) (stderr s))
      | [] => if closed s then Some (EndOfStream, set_pc AtRemaining s)
              else None
      end
  | AtWriteAll => Some (write_batch s "batch" AtAdd)
  | AtAdd => Some (add_count s [] AtRange)
  | AtRemaining =>
      if (0 <? Z.of_nat (List.length (batch s)))%Z
      then Some (write_batch s "final batch" AtFinalAdd)
      else Some (NothingLeft, set_pc AtDone s)
  | AtFinalAdd => Some (add_count s (batch s) AtDone)
  | AtDone =>
      match spinner s with
      | Spinning _ =>
          Some (Stop,
                mkState (scanner s) (scanErr s) (pathChan s) (closed s) AtWait
                  (batchSize s) (batch s) (writer s) (fileCount s) Stopped
                  (stdout s) (stderr s))
      | Stopped => None
      end
  | AtWait =>
      match scanErr s with
      | Some e =>
          Some (Exit 1,
                mkState (scanner s) (scanErr s) (pathChan s) (closed s)
                  (Exited 1) (batchSize s) (batch s) (writer s) (fileCount s)
                  (spinner s) (stdout s +++ clear_line)
                  (stderr s +++ "Error walking directory: " +++ Error e
                   +++ LF))
      | None =>
          Some (Exit 0,
                mkState (scanner s) (scanErr s) (pathChan s) (closed s)
                  (Exited 0) (batchSize s) (batch s)
                  (fst (bufio.Flush (writer s))) (fileCount s) (spinner s)
                  (stdout s +++ clear_line +++ "Done! Processed "
                   +++ Itoa (fileCount s) +++ " files." +++ LF
                   +++ "CSV file created: file_paths.csv" +++ LF)
                  (stderr s))
      end
  | Exited _ => None
  end.

Definition step_of (g : Goroutine) (s : State) : option (Event * State) :=
  match g with
  | TScanner => scanner_step s
  | TMain => main_step s
  | TSpinner => spinner_step s
  end.

(** A schedule names the goroutine that runs next; a goroutine that cannot
    step when named is passed over.  The result is the state reached and
    the events on the way. *)
Fixpoint run (sched : list Goroutine) (s : State) : list Event * State :=
  match sched with
  | [] => ([], s)
  | g :: rest =>
      match step_of g s with
      | Some (e, s') => let '(tr, s'') := run rest s' in (e :: tr, s'')
      | None => run rest s
      end
  end.

(** How [main] ends before the goroutines start, or the state they start in. *)
Inductive Startup : Type :=
| Abort (code : Z) (msg : string) (csv : option string)
    (* [os.Exit(code)] with this text on standard error; [csv] is the
       file as the program leaves it *)
| Started (s : State).

Section Program.

Variable Join : string -> string -> string.

(** Lines 18-108 of [main]. *)
Definition startup (w : World) : Startup :=
  match argv w with
  | [] =>
      Abort 1 ("Usage: " +++ argv0 w +++ " <directory> [batch_size]" +++ LF)
        (csv_before w)
  | dirPath :: more =>
      let size :=
        match more with
        | [] => Some defaultBatchSize
        | arg :: _ =>
            match Atoi arg with
            | Some size => if (size <=? 0)%Z then None else Some size
            | None => None
            end
        end in
      match size with
      | None =>
          Abort 1 ("Error: batch_size must be a positive integer" +++ LF)
            (csv_before w)
      | Some batchSize =>
          match os_Stat (files w) dirPath with
          | inr e =>
              Abort 1 ("Error accessing path: " +++ Error e +++ LF)
                (csv_before w)
          | inl info =>
              if negb (IsDir info) then
                Abort 1 ("Error: " +++ dirPath +++ " is not a directory" +++ LF)
                  (csv_before w)
              else
                match create_err w with
                | Some msg =>
                    Abort 1 ("Error creating CSV file: " +++ msg +++ LF)
                      (csv_before w)
                | None =>
                    let outputFile := mkFile EmptyString (disk_room w) in
                    let '(writer, e) :=
                      csv.Write header (csv.NewWriter outputFile) in
                    match e with
                    | Some e =>
                        Abort 1 ("Error writing CSV header: " +++ Error e +++ LF)
                          (Some (content (bufio.wr writer)))
                    | None =>
                        let '(paths, result) :=
                          WalkDir Join scan_fn (files w) dirPath in
                        Started
                          (mkState (Walking paths result) None [] false
                             AtRange batchSize [] writer 0 (Spinning 0)
                             EmptyString EmptyString)
                    end
                end
          end
      end
  end.

End Program.

(** ** Runs and what they leave behind *)

(** [reaches s0 tr s]: from [s0] some interleaving of the goroutines leads
    to [s], performing the events [tr] in this order. *)
Inductive reaches (s0 : State) : list Event -> State -> Prop :=
| reaches_start : reaches s0 [] s0
| reaches_step (tr : list Event) (s : State) (g : Goroutine) (e : Event)
    (s' : State) :
    reaches s0 tr s -> step_of g s = Some (e, s') ->
    reaches s0 (tr ++ [e]) s'.

(** The record the writer makes of a path (lines 110-111). *)
Definition record_of (path : string) : list string :=
  [path; Itoa (len path)].

Definition sent (tr : list Event) : list string :=
  flat_map (fun e => match e with Send p => [p] | _ => [] end) tr.

Definition received (tr : list Event) : list string :=
  flat_map (fun e => match e with Recv p => [p] | _ => [] end) tr.

(** The batches for which [WriteAll] returned nil, in order. *)
Definition flushes (tr : list Event) : list (list (list string)) :=
  flat_map (fun e => match e with Flushed b => [b] | _ => [] end) tr.

(** Their records. *)
Definition flushed (tr : list Event) : list (list string) :=
  concat (flushes tr).

(** Every record handed to [WriteAll], also by a call that failed. *)
Definition written (tr : list Event) : list (list string) :=
  flat_map
    (fun e => match e with Flushed b | WriteFailed b => b | _ => [] end) tr.

(** The sum of the atomic adds. *)
Definition counted (tr : list Event) : Z :=
  fold_right (fun e acc => match e with Added n => (n + acc)%Z | _ => acc end)
    0%Z tr.

(** The values the spinner loaded. *)
Definition observed (tr : list Event) : list Z :=
  flat_map (fun e => match e with Observed c => [c] | _ => [] end) tr.

Definition write_failed (tr : list Event) : bool :=
  existsb (fun e => match e with WriteFailed _ => true | _ => false end) tr.

Definition ended (tr : list Event) : bool :=
  existsb (fun e => match e with EndOfStream => true | _ => false end) tr.

(** The bytes of the file once these records are flushed. *)
Definition csv_bytes (records : list (list string)) : string :=
  csv.encode_all (header :: records).

(** What is in the file for sure after these flushes: nothing before the
    first one, which carries the header along. *)
Definition durable (records : list (list string)) : string :=
  match records with
  | [] => EmptyString
  | _ => csv_bytes records
  end.

(** The bytes handed to the writer so far. *)
Definition stream (b : bufio.Writer) : string :=
  content (bufio.wr b) +++ bufio.buf b.

(** What an operation does from a writer without a pending error: the file
    only grows; when it returns nil, [x] has been added to the stream and
    no error is pending; on a device without limit it returns nil. *)
Definition performs (m : bufio.io) (x : string) : Prop :=
  forall b, bufio.err b = None ->
    (exists y, content (bufio.wr (fst (m b))) = content (bufio.wr b) +++ y) /\
    (snd (m b) = None ->
     bufio.err (fst (m b)) = None /\ stream (fst (m b)) = stream b +++ x) /\
    (room (bufio.wr b) = None ->
     snd (m b) = None /\ room (bufio.wr (fst (m b))) = None).

(** [l] cut into groups of [n], the last one shorter when [n] does not
    divide the length; [fuel] bounds the number of groups. *)
Fixpoint chunks_upto (fuel n : nat) (l : list (list string))
  : list (list (list string)) :=
  match fuel, l with
  | S fuel', _ :: _ => firstn n l :: chunks_upto fuel' n (skipn n l)
  | _, _ => []
  end.

Definition chunks (n : nat) (l : list (list string))
  : list (list (list string)) :=
  chunks_upto (length l) n l.

(** How far the program is from its exit: the steps the scanner and the
    main goroutine still take, at most. *)
Definition scanner_left (s : State) : nat :=
  match scanner s with
  | Walking todo _ => 2 + length todo
  | Returned => 1
  | Finished => 0
  end.

Definition unsent (s : State) : nat :=
  match scanner s with
  | Walking todo _ => length todo
  | _ => 0
  end.

Definition main_left (s : State) : nat :=
  match pc s with
  | AtWriteAll => 8
  | AtAdd => 7
  | AtRange => 6
  | AtRemaining => 5
  | AtFinalAdd => 4
  | AtDone => 3
  | AtWait => 2
  | Exited _ => 0
  end.

Definition steps_left (s : State) : nat :=
  match pc s with
  | Exited _ => 0
  | _ => scanner_left s + 3 * (unsent s + length (pathChan s)) + main_left s
  end.

Section Invariant.

(** The walk of the run: the paths it sends and what it returns; the batch
    size; the room of the device. *)
Variable paths : list string.
Variable result : option error.
Variable size : Z.
Variable room0 : option nat.

(** The state in which the goroutines start. *)
Definition initial : State :=
  mkState (Walking paths result) None [] false AtRange size [] 
    (bufio.mkWriter None (csv.encode header) (mkFile EmptyString room0))
    0%Z (Spinning 0) EmptyString EmptyString.

Definition blen (s : State) : Z := Z.of_nat (length (batch s)).

Definition drained (s : State) : Prop :=
  pathChan s = [] /\ closed s = true.

(** The report of lines 138-144. *)
Definition reported (code : Z) (s : State) : Prop :=
  match scanErr s with
  | Some e =>
      code = 1%Z /\
      stderr s = "Error walking directory: " +++ Error e +++ LF
  | None => code = 0%Z /\ stderr s = EmptyString
  end.

(** The scanner against the channel. *)
Definition scanner_ok (tr : list Event) (s : State) : Prop :=
  match scanner s with
  | Walking todo r =>
      sent tr ++ todo = paths /\ r = result /\ closed s = false /\
      scanErr s = None
  | Returned => sent tr = paths /\ scanErr s = result /\ closed s = false
  | Finished => sent tr = paths /\ scanErr s = result /\ closed s = true
  end.

Definition channel_ok (tr : list Event) (s : State) : Prop :=
  sent tr = received tr ++ pathChan s /\ length (pathChan s) <= chanCap.

(** The batches flushed inside the loop are full; the one flushed after
    the loop is not. *)
Definition full (b : list (list string)) : Prop :=
  Z.of_nat (length b) = size.

Definition partial (b : list (list string)) : Prop :=
  (0 < Z.of_nat (length b) < size)%Z.

Definition in_loop (fl : list (list (list string))) : Prop := Forall full fl.

Definition after_loop (fl : list (list (list string))) : Prop :=
  in_loop fl \/ exists fl' b, fl = fl' ++ [b] /\ in_loop fl' /\ partial b.

(** The main goroutine against the events so far. *)
Definition main_ok (tr : list Event) (s : State) : Prop :=
  let rows := map record_of (received tr) in
  match pc s with
  | AtRange =>
      rows = flushed tr ++ batch s /\ (blen s < size)%Z /\
      counted tr = Z.of_nat (length (flushed tr)) /\ in_loop (flushes tr) /\
      ended tr = false
  | AtWriteAll =>
      rows = flushed tr ++ batch s /\ blen s = size /\
      counted tr = Z.of_nat (length (flushed tr)) /\ in_loop (flushes tr) /\
      ended tr = false
  | AtAdd =>
      rows = flushed tr /\ blen s = size /\
      (counted tr + blen s)%Z = Z.of_nat (length (flushed tr)) /\
      in_loop (flushes tr) /\ ended tr = false /\
      (exists fl, flushes tr = fl ++ [batch s])
  | AtRemaining =>
      rows = flushed tr ++ batch s /\ (blen s < size)%Z /\
      counted tr = Z.of_nat (length (flushed tr)) /\ in_loop (flushes tr) /\
      ended tr = true /\ drained s
  | AtFinalAdd =>
      rows = flushed tr /\ (0 < blen s < size)%Z /\
      (counted tr + blen s)%Z = Z.of_nat (length (flushed tr)) /\
      after_loop (flushes tr) /\ ended tr = true /\ drained s /\
      (exists fl, flushes tr = fl ++ [batch s])
  | AtDone | AtWait =>
      rows = flushed tr /\
      counted tr = Z.of_nat (length (flushed tr)) /\
      after_loop (flushes tr) /\ ended tr = true /\ drained s
  | Exited code =>
      (write_failed tr = true /\ code = 1%Z /\
       rows = flushed tr ++ batch s /\
       counted tr = Z.of_nat (length (flushed tr)) /\
       in_loop (flushes tr)) \/
      (write_failed tr = false /\ rows = flushed tr /\
       counted tr = Z.of_nat (length (flushed tr)) /\
       after_loop (flushes tr) /\ ended tr = true /\ drained s /\
       reported code s)
  end.

(** The spinner runs until the main goroutine stops it at line 134. *)
Definition spinner_ok (s : State) : Prop :=
  match pc s with
  | AtWait => spinner s = Stopped
  | Exited _ => True
  | _ => exists i, spinner s = Spinning i
  end.

(** The writer and the file against the flushes so far. *)
Definition writer_ok (tr : list Event) (s : State) : Prop :=
  (exists more,
     content (bufio.wr (writer s)) = durable (flushed tr) +++ more) /\
  (exited s = false ->
   bufio.err (writer s) = None /\
   stream (writer s) = csv_bytes (flushed tr) /\
   content (bufio.wr (writer s)) = durable (flushed tr)) /\
  (room0 = None ->
   write_failed tr = false /\
   room (bufio.wr (writer s)) = None /\
   (pc s = Exited 0%Z ->
    content (bufio.wr (writer s)) = csv_bytes (flushed tr)) /\
   (pc s = Exited 1%Z ->
    content (bufio.wr (writer s)) = durable (flushed tr))).

Record Inv (tr : list Event) (s : State) : Prop := mkInv {
  inv_size : batchSize s = size;
  inv_count : fileCount s = wrap64 (counted tr);
  inv_quiet : exited s = false ->
              stderr s = EmptyString /\ write_failed tr = false;
  inv_scanner : scanner_ok tr s;
  inv_channel : channel_ok tr s;
  inv_main : main_ok tr s;
  inv_spinner : spinner_ok s;
  inv_writer : writer_ok tr s
}.

End Invariant.

(** The records flushed whose add is still to come. *)
Definition uncounted (s : State) : Z :=
  match pc s with
  | AtAdd | AtFinalAdd => Z.of_nat (length (batch s))
  | _ => 0%Z
  end.

(** The value of a decimal numeral. *)
Definition decimal_value (s : string) : option Z :=
  option_map Z.of_int (NilZero.int_of_string s).

(** Every link of the tree made to point at a plain file. *)
Fixpoint unlink (n : node) : node :=
  match n with
  | Symlink _ => Symlink RegularFile
  | Dir dirs e => Dir (unlink_in dirs) e
  | _ => n
  end
with unlink_in (dirs : entries) : entries :=
  match dirs with
  | no_entry => no_entry
  | entry name n rest => entry name (unlink n) (unlink_in rest)
  end.

(** Two readings of the specification that the program does not meet as
    they stand. *)

(** "At every observation point the count equals the number of records
    flushed so far." *)
Definition observations_exact (s0 : State) : Prop :=
  forall tr s c s',
    reaches s0 tr s -> spinner_step s = Some (Observed c, s') ->
    c = Z.of_nat (length (flushed tr)).

(** "At every point during consumption the paths taken minus the count is
    the size of the batch, which is strictly less than the batch size." *)
Definition pending_below_size (s0 : State) : Prop :=
  forall tr s,
    reaches s0 tr s -> ended tr = false ->
    (Z.of_nat (length (received tr)) - fileCount s
     = Z.of_nat (length (batch s)) /\
     Z.of_nat (length (batch s)) < batchSize s)%Z.

(** ** Example runs *)

Module example.

(** The tree of the specification's scenario: [x.txt] and [b/y.txt]. *)
Definition tree_a : node :=
  Dir (entry "x.txt" RegularFile
         (entry "b" (Dir (entry "y.txt" RegularFile no_entry) None)
            no_entry)) None.

(** The same with [b] unreadable, and a file after it. *)
Definition tree_denied : node :=
  Dir (entry "a.txt" RegularFile
         (entry "b" (Dir no_entry (Some "open /tmp/a/b: permission denied"))
            (entry "z.txt" RegularFile no_entry))) None.

(** A link to a directory next to a file. *)
Definition tree_links : node :=
  Dir (entry "l" (Symlink tree_a) (entry "x.txt" RegularFile no_entry)) None.

Definition fs_of (n : node) : FileSystem :=
  fun path =>
    if String.eqb path "/tmp/a" then Found n
    else Missing ("stat " +++ path +++ ": no such file or directory").

Definition world (args : list string) (n : node) : World :=
  mkWorld "program" args (fs_of n) (Some "old") None None.

Definition world_a : World := world ["/tmp/a"; "100"] tree_a.
Definition world_one : World := world ["/tmp/a"; "1"] tree_a.
Definition world_denied : World := world ["/tmp/a"] tree_denied.
Definition world_missing : World := world ["/tmp/b"] tree_a.

Definition paths_a : list string := ["/tmp/a/x.txt"; "/tmp/a/b/y.txt"].

Definition state_a : State := initial paths_a None 100 None.
Definition state_one : State := initial paths_a None 1 None.
Definition state_denied : State :=
  initial ["/tmp/a/a.txt"]
    (Some (PathError "open /tmp/a/b: permission denied")) 100 None.

(** The scanner, the main goroutine and the spinner in turn. *)
Definition round_robin (n : nat) : list Goroutine :=
  List.concat (repeat [TScanner; TMain; TSpinner; TMain] n).

End example.

(** ** The display, the work and the report *)

Definition is_observed (e : Event) : bool :=
  match e with Observed _ => true | _ => false end.

(** The events of the scanner and of the main goroutine. *)
Definition work (tr : list Event) : list Event :=
  filter (fun e => negb (is_observed e)) tr.

(** A schedule in which the spinner never runs. *)
Definition without_spinner (sched : list Goroutine) : list Goroutine :=
  filter (fun g => match g with TSpinner => false | _ => true end) sched.

(** A state without what the display shows: the frame counter and the
    standard output. *)
Definition hide_display (s : State) : State :=
  mkState (scanner s) (scanErr s) (pathChan s) (closed s) (pc s)
    (batchSize s) (batch s) (writer s) (fileCount s)
    (match spinner s with Spinning _ => Spinning 0 | Stopped => Stopped end)
    EmptyString (stderr s).

(** The frames [i], [i+1], ... of the spinner for these counts. *)
Fixpoint frames (i : nat) (counts : list Z) : string :=
  match counts with
  | [] => EmptyString
  | c :: rest => frame i c +++ frames (S i) rest
  end.

(** Lines 136, 143 and 144 on standard output. *)
Definition done_report (count : Z) : string :=
  clear_line +++ "Done! Processed " +++ Itoa count +++ " files." +++ LF
  +++ "CSV file created: file_paths.csv" +++ LF.

(** Lines 115 and 127 on standard error. *)
Definition write_error (what : string) (e : error) : string :=
  LF +++ "Error writing " +++ what +++ ": " +++ Error e +++ LF.

(** The first line of the file. *)
Definition header_line : string := "file_path,path_length" +++ LF.

(** What a device with this room takes of a string. *)
Definition fitting (room0 : option nat) (s : string) : string :=
  match room0 with
  | None => s
  | Some r => take r s
  end.

(** The writer as [main] leaves it at line 59. *)
Definition fresh_writer (room0 : option nat) : bufio.Writer :=
  bufio.mkWriter None header_line (mkFile EmptyString room0).

(** What the main goroutine itself prints on standard output: nothing
    before the exit and nothing when a write failed; else line 136, and
    after a walk without error lines 143 and 144. *)
Definition main_output (tr : list Event) (s : State) : string :=
  match pc s with
  | Exited code =>
      if write_failed tr then EmptyString
      else if (code =? 0)%Z then done_report (fileCount s) else clear_line
  | _ => EmptyString
  end.

(** Strings of decimal digits. *)
Definition is_digit (c : ascii) : bool :=
  (48 <=? nat_of_ascii c) && (nat_of_ascii c <=? 57).

Fixpoint all_digits (s : string) : bool :=
  match s with
  | EmptyString => true
  | String c r => is_digit c && all_digits r
  end.

(** ** Further example runs *)

Module scenario.

(** A device that takes 30 bytes: the header and eight more. *)
Definition world_small_disk : World :=
  mkWorld "program" ["/tmp/a"; "1"] (example.fs_of example.tree_a)
    (Some "old") None (Some 30).

Definition state_small_disk : State :=
  initial example.paths_a None 1 (Some 30).

(** An empty directory on a device that takes 4 bytes. *)
Definition world_empty : World :=
  mkWorld "program" ["/tmp/a"] (example.fs_of (Dir no_entry None))
    (Some "old") None (Some 4).

Definition state_empty : State := initial [] None 100 (Some 4).

(** The directory argument is a link to the tree of the scenario. *)
Definition world_link : World := example.world ["/tmp/a"] (Symlink example.tree_a).

Definition state_link : State := initial ["/tmp/a"] None 100 None.

(** [os.Create] fails. *)
Definition world_readonly : World :=
  mkWorld "program" ["/tmp/a"] (example.fs_of example.tree_a) (Some "old")
    (Some "open file_paths.csv: permission denied") None.

End scenario.

(** * Properties *)

(** ** Byte strings *)

Lemma str_app_nil_r (s : string) : s +++ EmptyString = s.
Proof. induction s; simpl; congruence. Qed.

Lemma str_app_assoc (a b c : string) : (a +++ b) +++ c = a +++ b +++ c.
Proof. induction a; simpl; congruence. Qed.

Lemma str_length_app (a b : string) :
  String.length (a +++ b) = String.length a + String.length b.
Proof. induction a; simpl; congruence. Qed.

Lemma take_drop (n : nat) (s : string) : take n s +++ drop n s = s.
Proof.
  revert s; induction n; intros [|c r]; simpl; try reflexivity.
  now rewrite IHn.
Qed.

Lemma take_all (s : string) : take (String.length s) s = s.
Proof. induction s; simpl; congruence. Qed.

Lemma drop_all (s : string) : drop (String.length s) s = EmptyString.
Proof. induction s; simpl; congruence. Qed.

Lemma length_zero (s : string) : String.length s = 0 -> s = EmptyString.
Proof. destruct s; simpl; congruence. Qed.

Lemma is_empty_true (s : string) : is_empty s = true -> s = EmptyString.
Proof. destruct s; simpl; congruence. Qed.

(** ** The buffered writer *)

Module bufio_facts.

Import bufio.

Lemma File_Write_spec (f : File) (p : string) :
  let '(f', n, e) := File_Write f p in
  content f' = content f +++ take n p /\
  (e = None -> n = String.length p) /\
  (room f = None -> e = None /\ room f' = None).
Proof.
  unfold File_Write. destruct (room f) as [r|].
  - destruct (Nat.leb_spec (String.length p) r); simpl.
    + rewrite take_all. repeat split; congruence.
    + repeat split; congruence.
  - simpl. rewrite take_all. repeat split; congruence.
Qed.

Lemma performs_ok : performs ok EmptyString.
Proof.
  intros b Hb. unfold ok, stream; simpl. repeat split; auto.
  - exists EmptyString. now rewrite str_app_nil_r.
  - now rewrite str_app_nil_r.
Qed.

Lemma performs_andThen (m1 m2 : io) (x y : string) :
  performs m1 x -> performs m2 y -> performs (andThen m1 m2) (x +++ y).
Proof.
  intros H1 H2 b Hb. unfold andThen.
  destruct (H1 b Hb) as (G1 & S1 & R1).
  destruct (m1 b) as [b1 [e|]] eqn:E1; simpl in *.
  - split; [assumption|]. split; [discriminate|].
    intros Hr. destruct (R1 Hr); discriminate.
  - destruct (S1 eq_refl) as (Hb1 & St1).
    destruct (H2 b1 Hb1) as (G2 & S2 & R2).
    split; [|split].
    + destruct G1 as [y1 G1], G2 as [y2 G2]. exists (y1 +++ y2).
      now rewrite G2, G1, str_app_assoc.
    + intros H. destruct (S2 H) as (He & St2). split; [assumption|].
      now rewrite St2, St1, str_app_assoc.
    + intros Hr. apply R2. now apply R1.
Qed.

Lemma Flush_spec (b : Writer) :
  err b = None ->
  (exists y, content (wr (fst (Flush b))) = content (wr b) +++ y) /\
  (snd (Flush b) = None ->
   err (fst (Flush b)) = None /\ stream (fst (Flush b)) = stream b /\
   buf (fst (Flush b)) = EmptyString) /\
  (room (wr b) = None ->
   snd (Flush b) = None /\ room (wr (fst (Flush b))) = None) /\
  (snd (Flush b) <> None -> err (fst (Flush b)) <> None).
Proof.
  intros Hb. unfold Flush, Buffered. rewrite Hb.
  destruct (Nat.eqb_spec (String.length (buf b)) 0) as [Hz|Hz]; simpl.
  - split; [|split; [|split]].
    + exists EmptyString. now rewrite str_app_nil_r.
    + intros _. split; [assumption|]. split; [reflexivity|]. now apply length_zero.
    + auto.
    + congruence.
  - pose proof (File_Write_spec (wr b) (buf b)) as HW.
    destruct (File_Write (wr b) (buf b)) as [[f n] e].
    destruct HW as (Hc & Hn & Hr).
    destruct e as [e|]; simpl.
    + rewrite andb_false_r. simpl. split; [eauto|]. split; [discriminate|].
      split; [|discriminate].
      intros H. destruct (Hr H); discriminate.
    + rewrite andb_true_r. rewrite (Hn eq_refl), Nat.ltb_irrefl. simpl.
      rewrite (Hn eq_refl), take_all in Hc.
      split; [eauto|]. split; [|split].
      * intros _. split; [reflexivity|]. split; [|reflexivity].
        unfold stream; simpl. now rewrite Hc, str_app_nil_r.
      * intros H. split; [reflexivity|]. now apply Hr.
      * congruence.
Qed.

Lemma performs_Flush : performs Flush EmptyString.
Proof.
  intros b Hb. destruct (Flush_spec b Hb) as (G & S & R & _).
  split; [assumption|]. split; [|assumption].
  intros H. destruct (S H) as (He & Hs & _). split; [assumption|].
  now rewrite str_app_nil_r.
Qed.

Lemma performs_WriteByte (c : ascii) :
  performs (WriteByte c) (String c EmptyString).
Proof.
  intros b Hb. unfold WriteByte. rewrite Hb.
  destruct (Available b <=? 0).
  - destruct (Flush_spec b Hb) as (G & S & R & F).
    destruct (Flush b) as [b1 [e|]]; simpl in *.
    + split; [assumption|]. split.
      * intros H. exfalso. apply F; congruence.
      * intros H. destruct (R H); discriminate.
    + destruct (S eq_refl) as (He & Hs & Hbuf).
      split; [assumption|]. split.
      * intros _. split; [assumption|].
        unfold stream in *; simpl. rewrite <- str_app_assoc, Hs. reflexivity.
      * intros H. split; [reflexivity|]. now apply R.
  - simpl. split; [|split].
    + exists EmptyString. now rewrite str_app_nil_r.
    + intros _. split; [assumption|]. unfold stream; simpl. now rewrite str_app_assoc.
    + auto.
Qed.

Lemma WriteString_turn_spec (b : Writer) (s : string) :
  err b = None ->
  let '(b1, s1) := WriteString_turn (b, s) in
  (exists y, content (wr b1) = content (wr b) +++ y) /\
  (err b1 = None -> stream b1 +++ s1 = stream b +++ s) /\
  (room (wr b) = None -> err b1 = None /\ room (wr b1) = None).
Proof.
  intros Hb. unfold WriteString_turn. rewrite Hb. simpl. rewrite andb_true_r.
  destruct (Available b <? String.length s).
  - destruct (Nat.eqb_spec (Buffered b) 0) as [Hz|Hz].
    + pose proof (File_Write_spec (wr b) s) as HW.
      destruct (File_Write (wr b) s) as [[f n] e].
      destruct HW as (Hc & Hn & Hr). simpl.
      split; [eauto|]. split.
      * intros He. unfold stream; simpl. apply length_zero in Hz.
        rewrite Hz, Hc, !str_app_nil_r, str_app_assoc. now rewrite take_drop.
      * intros H. now apply Hr.
    + set (n := Nat.min (Available b) (String.length s)).
      set (b1 := mkWriter None (buf b +++ take n s) (wr b)).
      destruct (Flush_spec b1 eq_refl) as (G & S & R & F).
      destruct (Flush b1) as [b2 [e|]] eqn:EF; simpl in *.
      * split; [assumption|]. split.
        -- intros He. exfalso. apply F; congruence.
        -- intros H. destruct (R H); discriminate.
      * destruct (S eq_refl) as (He & Hs & _).
        split; [assumption|]. split.
        -- intros _. rewrite Hs. unfold stream, b1; simpl.
           rewrite !str_app_assoc. now rewrite take_drop.
        -- intros H. split; [assumption|]. now apply R.
  - split; [|split].
    + exists EmptyString. now rewrite str_app_nil_r.
    + auto.
    + auto.
Qed.

Lemma WriteString_turn_failed (b : Writer) (s : string) :
  err b <> None -> WriteString_turn (b, s) = (b, s).
Proof.
  intros Hb. unfold WriteString_turn.
  destruct (err b); [|congruence]. simpl. now rewrite andb_false_r.
Qed.

Lemma performs_WriteString (s : string) : performs (WriteString s) s.
Proof.
  intros b Hb. unfold WriteString.
  pose proof (WriteString_turn_spec b s Hb) as H1.
  destruct (WriteString_turn (b, s)) as [b1 s1].
  destruct H1 as (G1 & S1 & R1).
  destruct (err b1) as [e1|] eqn:E1.
  - rewrite WriteString_turn_failed by congruence. rewrite E1. simpl.
    split; [assumption|]. split; [discriminate|].
    intros H. destruct (R1 H); discriminate.
  - pose proof (WriteString_turn_spec b1 s1 E1) as H2.
    destruct (WriteString_turn (b1, s1)) as [b2 s2].
    destruct H2 as (G2 & S2 & R2).
    assert (G : exists y, content (wr b2) = content (wr b) +++ y).
    { destruct G1 as [y1 G1], G2 as [y2 G2]. exists (y1 +++ y2).
      now rewrite G2, G1, str_app_assoc. }
    destruct (err b2) as [e2|] eqn:E2; simpl.
    + split; [assumption|]. split; [discriminate|].
      intros H. destruct (R1 H) as (_ & Hr1). destruct (R2 Hr1); discriminate.
    + split; [assumption|]. split.
      * intros _. split; [reflexivity|].
        unfold stream in *; simpl. rewrite <- str_app_assoc.
        rewrite (S2 eq_refl). now apply S1.
      * intros H. split; [reflexivity|]. destruct (R1 H) as (_ & Hr1).
        now apply R2.
Qed.

Lemma WriteString_turn_stop (b : Writer) (s : string) :
  err b <> None \/ String.length s <= Available b ->
  WriteString_turn (b, s) = (b, s).
Proof.
  intros [H|H]; [now apply WriteString_turn_failed|].
  unfold WriteString_turn.
  destruct (Nat.ltb_spec (Available b) (String.length s)); [lia|reflexivity].
Qed.

(** From an empty buffer one turn ends the loop. *)
Lemma WriteString_turn_direct (b : Writer) (s : string) :
  Buffered b = 0 ->
  WriteString_turn (WriteString_turn (b, s)) = WriteString_turn (b, s).
Proof.
  intros Hz. unfold WriteString_turn at 2 3. rewrite Hz.
  destruct ((Available b <? String.length s) && is_nil (err b)) eqn:G.
  - cbn [Nat.eqb].
    pose proof (File_Write_spec (wr b) s) as HW.
    destruct (File_Write (wr b) s) as [[f n] e].
    destruct HW as (_ & Hn & _). apply WriteString_turn_stop. simpl.
    destruct e as [e|]; [left; discriminate|right].
    rewrite (Hn eq_refl), drop_all. simpl. lia.
  - unfold WriteString_turn. now rewrite G.
Qed.

(** After one turn the loop is over or the buffer is empty. *)
Lemma WriteString_turn_cases (b : Writer) (s : string) :
  WriteString_turn (WriteString_turn (b, s)) = WriteString_turn (b, s) \/
  Buffered (fst (WriteString_turn (b, s))) = 0.
Proof.
  destruct (Nat.eq_dec (Buffered b) 0) as [Hz|Hz].
  { left. now apply WriteString_turn_direct. }
  unfold WriteString_turn at 2 3 4.
  destruct ((Available b <? String.length s) && is_nil (err b)) eqn:G.
  - apply Nat.eqb_neq in Hz. rewrite Hz.
    apply andb_true_iff in G. destruct G as (_ & Hb).
    assert (Hb' : err b = None) by (destruct (err b); [discriminate|reflexivity]).
    set (n := Nat.min (Available b) (String.length s)).
    set (b1 := mkWriter (err b) (buf b +++ take n s) (wr b)).
    destruct (Flush_spec b1 Hb') as (_ & S & _ & F).
    destruct (snd (Flush b1)) as [e|] eqn:EF.
    + left. apply WriteString_turn_failed. apply F. congruence.
    + right. destruct (S eq_refl) as (_ & _ & Hbuf).
      unfold Buffered. simpl. now rewrite Hbuf.
  - left. unfold WriteString_turn. now rewrite G.
Qed.

(** The loop of [WriteString] is over after two turns. *)
Lemma WriteString_turn_done (b : Writer) (s : string) :
  WriteString_turn (WriteString_turn (WriteString_turn (b, s)))
  = WriteString_turn (WriteString_turn (b, s)).
Proof.
  destruct (WriteString_turn_cases b s) as [H|H].
  - now rewrite !H.
  - destruct (WriteString_turn (b, s)) as [b1 s1].
    now rewrite (WriteString_turn_direct b1 s1 H).
Qed.

End bufio_facts.

(** ** The CSV writer *)

Module csv_facts.

Import bufio csv bufio_facts.

Lemma performs_eq (m : io) (x y : string) :
  performs m x -> x = y -> performs m y.
Proof. intros H <-. exact H. Qed.

Lemma performs_write_quoted (field chunk : string) :
  performs (write_quoted chunk field) (chunk +++ quote_body field).
Proof.
  revert chunk. induction field as [|c rest IH]; intros chunk; simpl.
  - destruct (is_empty chunk) eqn:E.
    + apply is_empty_true in E. subst. apply performs_ok.
    + rewrite str_app_nil_r. apply performs_WriteString.
  - destruct (byte_is 34 c).
    + eapply performs_eq.
      * apply performs_andThen; [apply performs_WriteString|].
        apply performs_andThen; [apply performs_WriteString|apply IH].
      * reflexivity.
    + destruct (byte_is 13 c || byte_is 10 c).
      * eapply performs_eq.
        -- apply performs_andThen; [apply performs_WriteString|].
           apply performs_andThen; [apply performs_WriteByte|apply IH].
        -- reflexivity.
      * eapply performs_eq; [apply IH|]. now rewrite str_app_assoc.
Qed.

Lemma performs_write_field (field : string) :
  performs (write_field field) (encode_field field).
Proof.
  unfold write_field, encode_field.
  destruct (fieldNeedsQuotes field); simpl.
  - eapply performs_eq.
    + apply performs_andThen; [apply performs_WriteByte|].
      apply performs_andThen;
        [apply performs_write_quoted|apply performs_WriteByte].
    + reflexivity.
  - apply performs_WriteString.
Qed.

Lemma performs_write_fields (record : list string) (first : bool) :
  performs (write_fields first record) (encode_fields first record).
Proof.
  revert first. induction record as [|f rest IH]; intros first; simpl.
  - apply performs_ok.
  - apply performs_andThen.
    + destruct first; [apply performs_ok|apply performs_WriteByte].
    + apply performs_andThen; [apply performs_write_field|apply IH].
Qed.

Lemma performs_Write (record : list string) :
  performs (Write record) (encode record).
Proof.
  unfold Write, encode.
  apply performs_andThen; [apply performs_write_fields|apply performs_WriteByte].
Qed.

Lemma performs_WriteAll (records : list (list string)) :
  performs (WriteAll records) (encode_all records).
Proof.
  induction records as [|r rest IH]; simpl.
  - apply performs_Flush.
  - apply performs_andThen; [apply performs_Write|apply IH].
Qed.

(** After a [WriteAll] that returned nil nothing is left in the buffer. *)
Lemma WriteAll_flushed (records : list (list string)) (b : Writer) :
  err b = None ->
  snd (WriteAll records b) = None ->
  buf (fst (WriteAll records b)) = EmptyString.
Proof.
  revert b. induction records as [|r rest IH]; intros b Hb; simpl.
  - intros H. now apply (Flush_spec b Hb).
  - unfold andThen.
    destruct (performs_Write r b Hb) as (_ & S & _).
    destruct (Write r b) as [b1 [e|]]; simpl in *; [discriminate|].
    apply IH. now apply S.
Qed.

(** The header fits the empty buffer: writing it cannot fail and reaches
    the file only with a later flush. *)
Lemma Write_header (f : File) :
  Write header (NewWriter f) = (mkWriter None (encode header) f, None).
Proof. reflexivity. Qed.

End csv_facts.

(** ** The walk *)

Section WalkFacts.

Variable Join : string -> string -> string.

Lemma until_failure_app (vs1 vs2 : list visit) :
  until_failure (vs1 ++ vs2) =
  match until_failure vs1 with
  | (ps1, Some e) => (ps1, Some e)
  | (ps1, None) =>
      let '(ps2, e2) := until_failure vs2 in (ps1 ++ ps2, e2)
  end.
Proof.
  induction vs1 as [|[p|msg] r IH]; simpl.
  - now destruct (until_failure vs2).
  - rewrite IH. destruct (until_failure r) as [ps1 [e|]]; [reflexivity|].
    now destruct (until_failure vs2).
  - reflexivity.
Qed.

(** The error of a cut visit is an error of the file system. *)
Lemma until_failure_error (vs : list visit) (e : error) :
  snd (until_failure vs) = Some e -> exists msg, e = PathError msg.
Proof.
  induction vs as [|[p|msg] r IH]; simpl.
  - discriminate.
  - destruct (until_failure r) as [ps e']. simpl in *. exact IH.
  - intros H. injection H as <-. eauto.
Qed.

Lemma until_failure_not_skip (vs : list visit) :
  is_SkipDir (snd (until_failure vs)) = false /\
  is_SkipAll (snd (until_failure vs)) = false.
Proof.
  destruct (snd (until_failure vs)) as [e|] eqn:E; [|now split].
  destruct (until_failure_error vs e E) as [msg ->]. now split.
Qed.

(** With the callback of [main], the walk sends the paths met before the
    first directory that cannot be read and returns that failure. *)
Lemma walk_visits :
  (forall n path,
     walkDir Join scan_fn path n = until_failure (visits Join path n)) /\
  (forall dirs path,
     walk_entries Join scan_fn path dirs
     = until_failure (visits_in Join path dirs)).
Proof.
  apply node_entries_ind.
  - reflexivity.
  - reflexivity.
  - reflexivity.
  - intros dirs IH [msg|] path.
    + reflexivity.
    + simpl. rewrite IH. now destruct (until_failure (visits_in Join path dirs)).
  - reflexivity.
  - intros name n IHn rest IHrest path.
    cbn [walk_entries visits_in]. rewrite IHn, IHrest, until_failure_app.
    destruct (until_failure (visits Join (Join path name) n)) as [ps [e|]] eqn:E.
    + cbn [is_nil negb].
      destruct (until_failure_not_skip (visits Join (Join path name) n)) as [H _].
      rewrite E in H. cbn [snd] in H. now rewrite H.
    + reflexivity.
Qed.

Lemma until_failure_paths (ps : list string) :
  until_failure (map VPath ps) = (ps, None).
Proof. induction ps as [|p r IH]; simpl; [reflexivity|now rewrite IH]. Qed.

Lemma readable_visits :
  (forall n path, readable n = true ->
     visits Join path n = map VPath (non_dirs Join path n)) /\
  (forall dirs path, readable_in dirs = true ->
     visits_in Join path dirs = map VPath (non_dirs_in Join path dirs)).
Proof.
  apply node_entries_ind; try reflexivity.
  - intros dirs IH [msg|] path; simpl; [discriminate|]. apply IH.
  - intros name n IHn rest IHrest path H. simpl in *.
    apply andb_true_iff in H. destruct H as [Hn Hr].
    now rewrite IHn, IHrest, map_app.
Qed.

(** A walk returns nil exactly on the trees it can read entirely. *)
Lemma walk_succeeds_iff :
  (forall n path,
     snd (until_failure (visits Join path n)) = None <-> readable n = true) /\
  (forall dirs path,
     snd (until_failure (visits_in Join path dirs)) = None
     <-> readable_in dirs = true).
Proof.
  apply node_entries_ind; try (intros; simpl; split; reflexivity).
  - intros dirs IH [msg|] path; simpl.
    + split; discriminate.
    + apply IH.
  - intros name n IHn rest IHrest path. simpl.
    rewrite until_failure_app, andb_true_iff, <- (IHn (Join path name)), <- (IHrest path).
    destruct (until_failure (visits Join (Join path name) n)) as [ps [e|]]; simpl.
    + split; [discriminate|]. intros [H _]; discriminate.
    + destruct (until_failure (visits_in Join path rest)) as [ps' e']; simpl.
      tauto.
Qed.

Lemma count_non_dirs_length :
  (forall n path, length (non_dirs Join path n) = count_non_dirs n) /\
  (forall dirs path, length (non_dirs_in Join path dirs) = count_non_dirs_in dirs).
Proof.
  apply node_entries_ind; try reflexivity.
  - intros dirs IH e path. apply IH.
  - intros name n IHn rest IHrest path. simpl.
    now rewrite List.length_app, IHn, IHrest.
Qed.

(** The paths sent are the first of the non-directory entries. *)
Lemma until_failure_prefix :
  (forall n path, exists later,
     non_dirs Join path n = fst (until_failure (visits Join path n)) ++ later) /\
  (forall dirs path, exists later,
     non_dirs_in Join path dirs
     = fst (until_failure (visits_in Join path dirs)) ++ later).
Proof.
  apply node_entries_ind; try (intros; exists []; reflexivity).
  - intros dirs IH [msg|] path; simpl.
    + eexists. reflexivity.
    + apply IH.
  - intros name n IHn rest IHrest path. simpl.
    destruct (IHn (Join path name)) as [l1 H1], (IHrest path) as [l2 H2].
    rewrite until_failure_app.
    destruct (until_failure (visits Join (Join path name) n)) as [ps [e|]] eqn:E;
      cbn [fst] in *.
    + rewrite H1, <- app_assoc. eauto.
    + assert (R : readable n = true).
      { apply (proj1 walk_succeeds_iff n (Join path name)). now rewrite E. }
      pose proof (proj1 readable_visits n (Join path name) R) as V.
      rewrite V, until_failure_paths in E. injection E as <-.
      destruct (until_failure (visits_in Join path rest)) as [ps' e']; cbn [fst] in *.
      rewrite H2, app_assoc. eauto.
Qed.

(** What a visit meets does not depend on where the links point. *)
Lemma visits_unlink :
  (forall n path, visits Join path (unlink n) = visits Join path n) /\
  (forall dirs path,
     visits_in Join path (unlink_in dirs) = visits_in Join path dirs).
Proof.
  apply node_entries_ind; try reflexivity.
  - intros dirs IH e path. simpl. now rewrite IH.
  - intros name n IHn rest IHrest path. simpl. now rewrite IHn, IHrest.
Qed.

(** A walk from a root the file system finds. *)
Lemma WalkDir_found (fs : FileSystem) (root : string) (n : node) :
  fs root = Found n ->
  WalkDir Join scan_fn fs root = until_failure (visits Join root n).
Proof.
  intros H. unfold WalkDir, os_Lstat. rewrite H.
  rewrite (proj1 walk_visits).
  destruct (until_failure_not_skip (visits Join root n)) as [H1 H2].
  destruct (until_failure (visits Join root n)) as [ps e]. cbn [snd] in *.
  now rewrite H1, H2.
Qed.

Lemma WalkDir_missing (fs : FileSystem) (root msg : string) :
  fs root = Missing msg ->
  WalkDir Join scan_fn fs root = ([], Some (PathError msg)).
Proof. intros H. unfold WalkDir, os_Lstat. now rewrite H. Qed.

End WalkFacts.

(** ** Projections of a trace *)

Lemma sent_app (a b : list Event) : sent (a ++ b) = sent a ++ sent b.
Proof. apply flat_map_app. Qed.

Lemma received_app (a b : list Event) :
  received (a ++ b) = received a ++ received b.
Proof. apply flat_map_app. Qed.

Lemma flushes_app (a b : list Event) :
  flushes (a ++ b) = flushes a ++ flushes b.
Proof. apply flat_map_app. Qed.

Lemma flushed_app (a b : list Event) :
  flushed (a ++ b) = flushed a ++ flushed b.
Proof. unfold flushed. now rewrite flushes_app, concat_app. Qed.

Lemma flushed_one (e : Event) :
  flushed [e] = match e with Flushed b => b | _ => [] end.
Proof. destruct e; try reflexivity. unfold flushed. simpl. apply app_nil_r. Qed.

Lemma written_app (a b : list Event) :
  written (a ++ b) = written a ++ written b.
Proof. apply flat_map_app. Qed.

Lemma observed_app (a b : list Event) :
  observed (a ++ b) = observed a ++ observed b.
Proof. apply flat_map_app. Qed.

Lemma counted_app (a b : list Event) :
  counted (a ++ b) = (counted a + counted b)%Z.
Proof.
  induction a as [|e a IH]; simpl; [reflexivity|].
  rewrite IH. destruct e; lia.
Qed.

Lemma write_failed_app (a b : list Event) :
  write_failed (a ++ b) = write_failed a || write_failed b.
Proof. apply existsb_app. Qed.

Lemma ended_app (a b : list Event) : ended (a ++ b) = ended a || ended b.
Proof. apply existsb_app. Qed.

Lemma wrap64_add (a n : Z) : wrap64 (wrap64 a + n) = wrap64 (a + n).
Proof.
  unfold wrap64. f_equal.
  replace (((a + 2 ^ 63) mod 2 ^ 64 - 2 ^ 63 + n + 2 ^ 63)%Z)
    with (((a + 2 ^ 63) mod 2 ^ 64 + n)%Z) by lia.
  rewrite Zplus_mod_idemp_l. f_equal. lia.
Qed.

Lemma wrap64_small (z : Z) :
  (min_int64 <= z <= max_int64)%Z -> wrap64 z = z.
Proof.
  unfold wrap64, min_int64, max_int64. intros H.
  rewrite Z.mod_small; lia.
Qed.

Lemma encode_all_app (a b : list (list string)) :
  csv.encode_all (a ++ b) = csv.encode_all a +++ csv.encode_all b.
Proof.
  unfold csv.encode_all. induction a as [|r a IH]; simpl; [reflexivity|].
  now rewrite IH, str_app_assoc.
Qed.

Lemma csv_bytes_app (a b : list (list string)) :
  csv_bytes (a ++ b) = csv_bytes a +++ csv.encode_all b.
Proof. unfold csv_bytes. now rewrite app_comm_cons, encode_all_app. Qed.

Lemma durable_some (a b : list (list string)) :
  b <> [] -> durable (a ++ b) = csv_bytes (a ++ b).
Proof. intros H. destruct a, b; try reflexivity. congruence. Qed.

Lemma durable_prefix (a : list (list string)) :
  exists more, csv_bytes a = durable a +++ more.
Proof.
  destruct a; simpl.
  - eexists; reflexivity.
  - exists EmptyString. now rewrite str_app_nil_r.
Qed.

(** ** The writer under the steps of the main goroutine *)

Lemma WriteAll_ok (b f : list (list string)) (w w0 : bufio.Writer) :
  bufio.err w = None -> stream w = csv_bytes f -> b <> [] ->
  csv.WriteAll b w = (w0, None) ->
  bufio.err w0 = None /\ stream w0 = csv_bytes (f ++ b) /\
  content (bufio.wr w0) = durable (f ++ b) /\
  (room (bufio.wr w) = None -> room (bufio.wr w0) = None).
Proof.
  intros He Hs Hb Hw.
  destruct (csv_facts.performs_WriteAll b w He) as (_ & S & R).
  pose proof (csv_facts.WriteAll_flushed b w He) as Hbuf.
  rewrite Hw in *. cbn [fst snd] in *.
  destruct (S eq_refl) as (He0 & Hs0). specialize (Hbuf eq_refl).
  assert (Hc : content (bufio.wr w0) = csv_bytes (f ++ b)).
  { rewrite csv_bytes_app, <- Hs, <- Hs0. unfold stream.
    now rewrite Hbuf, str_app_nil_r. }
  repeat split; auto.
  - rewrite csv_bytes_app, <- Hs. exact Hs0.
  - now rewrite durable_some.
  - intros Hr. now apply R.
Qed.

Lemma WriteAll_failed (b f : list (list string)) (w w0 : bufio.Writer)
  (e : error) :
  bufio.err w = None -> content (bufio.wr w) = durable f ->
  csv.WriteAll b w = (w0, Some e) ->
  (exists more, content (bufio.wr w0) = durable f +++ more) /\
  room (bufio.wr w) <> None.
Proof.
  intros He Hc Hw.
  destruct (csv_facts.performs_WriteAll b w He) as (G & _ & R).
  rewrite Hw in *. cbn [fst snd] in *. split.
  - destruct G as [y G]. exists y. now rewrite G, Hc.
  - intros Hr. destruct (R Hr); discriminate.
Qed.

(** The deferred [Flush] of a successful exit. *)
Lemma Flush_at_exit (f : list (list string)) (w : bufio.Writer) :
  bufio.err w = None -> stream w = csv_bytes f ->
  content (bufio.wr w) = durable f ->
  (exists more,
     content (bufio.wr (fst (bufio.Flush w))) = durable f +++ more) /\
  (room (bufio.wr w) = None ->
   room (bufio.wr (fst (bufio.Flush w))) = None /\
   content (bufio.wr (fst (bufio.Flush w))) = csv_bytes f).
Proof.
  intros He Hs Hc.
  destruct (bufio_facts.Flush_spec w He) as (G & S & R & _). split.
  - destruct G as [y G]. exists y. now rewrite G, Hc.
  - intros Hr. destruct (R Hr) as (Hn & Hr'). split; [assumption|].
    destruct (S Hn) as (_ & Hs' & Hbuf).
    rewrite <- Hs, <- Hs'. unfold stream. now rewrite Hbuf, str_app_nil_r.
Qed.

Lemma nonempty_of_length (A : Type) (l : list A) :
  (0 < Z.of_nat (length l))%Z -> l <> [].
Proof. destruct l; simpl; [lia|discriminate]. Qed.

(** ** The invariant of a run *)

(** ** Tactics for the steps *)

(** Case analysis of a step: the state is taken apart, the step function
    unfolded along its tests, and the resulting event and state read off. *)
Ltac step_cases H :=
  unfold scanner_step, spinner_step, main_step, write_batch, add_count,
    set_pc, exited in H;
  cbn [scanner scanErr pathChan closed pc batchSize batch writer
       fileCount spinner stdout stderr] in H;
  repeat match type of H with
    | context [match ?x with _ => _ end] => destruct x eqn:?
    end;
  try discriminate H;
  injection H as <- <-.

Ltac split_hyps :=
  repeat match goal with
    | H : _ /\ _ |- _ => destruct H
    | H : exists _, _ |- _ => destruct H
    end.

Ltac open_inv :=
  unfold scanner_ok, channel_ok, main_ok, spinner_ok, writer_ok, exited,
    drained, reported, blen in *;
  cbn [scanner scanErr pathChan closed pc batchSize batch writer
       fileCount spinner stdout stderr] in *.

(** The projections of a trace extended by one event. *)
Ltac norm_trace :=
  rewrite ?sent_app, ?received_app, ?flushes_app, ?flushed_app, ?counted_app,
    ?write_failed_app, ?ended_app, ?written_app, ?observed_app;
  rewrite ?flushed_one;
  simpl (sent [_]); simpl (received [_]); simpl (flushes [_]);
  simpl (counted [_]); simpl (write_failed [_]); simpl (ended [_]);
  simpl (written [_]); simpl (observed [_]);
  cbv beta iota;
  rewrite ?app_nil_r, ?Z.add_0_r, ?orb_false_r.

(** The file and the writer are those of the state before. *)
Ltac same_writer Hwr :=
  let Hd := fresh "Hd" in
  let Hlive := fresh "Hlive" in
  let Hrel := fresh "Hrel" in
  destruct Hwr as (Hd & Hlive & Hrel);
  split; [exact Hd|];
  split; [first [exact Hlive | discriminate]|];
  let R := fresh "R" in
  intros R; destruct (Hrel R) as (? & ? & ? & ?);
  destruct (Hlive eq_refl) as (? & ? & ?);
  repeat (split; [solve [auto | discriminate]|]); solve [auto | discriminate].

Section InvariantFacts.

Variable paths : list string.
Variable result : option error.
Variable size : Z.
Variable room0 : option nat.
Hypothesis size_pos : (0 < size)%Z.

Abbreviation Inv := (Inv paths result size room0).
Abbreviation initial := (initial paths result size room0).

Lemma Inv_initial : Inv [] initial.
Proof.
  apply mkInv.
  - reflexivity.
  - reflexivity.
  - now split.
  - red. simpl. repeat split; auto.
  - red. simpl. split; [reflexivity|unfold chanCap; lia].
  - red. simpl. unfold blen. simpl. repeat split; auto; try lia. constructor.
  - red. simpl. eauto.
  - red. simpl. split; [exists EmptyString; reflexivity|].
    split.
    + intros _. repeat split.
    + intros H. split; [reflexivity|]. split; [exact H|].
      split; discriminate.
Qed.

Lemma Inv_scanner_step (tr : list Event) (s : State) (e : Event) (s' : State) :
  Inv tr s -> scanner_step s = Some (e, s') -> Inv (tr ++ [e]) s'.
Proof.
  intros [Hsize Hcount Hquiet Hscan Hchan Hmain Hspin Hwr] H.
  destruct s as [sc se ch cl p bs b w fc sp so sr].
  open_inv. step_cases H.
  all: apply mkInv; open_inv; norm_trace; try assumption.
  all: try solve [destruct p; try discriminate; assumption].
  - (* Return *)
    rewrite app_nil_r in Hscan. destruct Hscan as (? & ? & ? & ?). auto.
  - (* Send *)
    destruct Hscan as (Hp & ? & ? & ?). rewrite <- app_assoc. auto.
  - destruct Hchan as (-> & Hc). split; [now rewrite app_assoc|].
    rewrite List.length_app. simpl. apply Nat.ltb_lt in Heqb1. unfold chanCap in *. lia.
  - destruct Hscan as (_ & _ & -> & _).
    destruct p; try discriminate; try assumption; split_hyps; discriminate.
  - (* Close *)
    destruct Hscan as (? & ? & ?). auto.
  - destruct Hscan as (_ & _ & ->).
    destruct p; try discriminate; try assumption; split_hyps; discriminate.
Qed.

Lemma Inv_spinner_step (tr : list Event) (s : State) (e : Event) (s' : State) :
  Inv tr s -> spinner_step s = Some (e, s') -> Inv (tr ++ [e]) s'.
Proof.
  intros [Hsize Hcount Hquiet Hscan Hchan Hmain Hspin Hwr] H.
  destruct s as [sc se ch cl p bs b w fc sp so sr].
  open_inv. step_cases H.
  all: apply mkInv; open_inv; norm_trace; try assumption.
  all: try solve [destruct p; try discriminate; assumption].
  destruct p; try discriminate; eauto.
Qed.

Lemma in_loop_snoc (fl : list (list (list string))) (b : list (list string)) :
  in_loop size fl -> full size b -> in_loop size (fl ++ [b]).
Proof. intros H Hb. apply Forall_app. split; [assumption|]. now constructor. Qed.

Lemma Inv_main_step (tr : list Event) (s : State) (e : Event) (s' : State) :
  Inv tr s -> main_step s = Some (e, s') -> Inv (tr ++ [e]) s'.
Proof.
  intros [Hsize Hcount Hquiet Hscan Hchan Hmain Hspin Hwr] H.
  destruct s as [sc se ch cl p bs b w fc sp so sr].
  open_inv. destruct p; step_cases H.
  all: apply mkInv; open_inv; norm_trace; try assumption.
  all: try solve [split_hyps; repeat split; auto].
  all: try solve [same_writer Hwr].
  all: try (intros Hf; discriminate Hf).
  all: try (rewrite Hcount; apply wrap64_add).
  - (* end of stream *)
    rewrite app_nil_r in Hchan. split; [tauto|simpl; lia].
  - split_hyps. rewrite orb_true_r. repeat split; auto.
  - (* a path received, the batch full *)
    destruct Hchan as (Hs & Hl). simpl in Hl.
    split; [now rewrite <- app_assoc|lia].
  - destruct Hmain as (Hr & Hlt & Hc & Hin & He).
    rewrite map_app, Hr, <- app_assoc. simpl.
    repeat split; auto.
    apply Z.geb_le in Heqb0.
    rewrite List.length_app in *. simpl in *. lia.
  - (* a path received, the batch not full *)
    destruct Hchan as (Hs & Hl). simpl in Hl.
    split; [now rewrite <- app_assoc|lia].
  - destruct Hmain as (Hr & Hlt & Hc & Hin & He).
    rewrite map_app, Hr, <- app_assoc. simpl.
    repeat split; auto.
    rewrite Z.geb_leb in Heqb0. apply Z.leb_gt in Heqb0. lia.
  - (* WriteAll of a full batch fails *)
    left. rewrite orb_true_r. split_hyps. repeat split; auto.
  - destruct Hwr as (Hd & Hlive & Hrel).
    destruct (Hlive eq_refl) as (He & Hs & Hc).
    destruct (WriteAll_failed b (flushed tr) w w0 e0 He Hc Heqp) as (G & Hroom).
    split; [exact G|]. split; [discriminate|].
    intros R. destruct (Hrel R) as (_ & Hr & _). contradiction.
  - (* WriteAll of a full batch *)
    destruct Hmain as (Hr & Hlen & Hc & Hin & He).
    rewrite List.length_app, Hr.
    repeat split; eauto; try lia. now apply in_loop_snoc.
  - destruct Hwr as (Hd & Hlive & Hrel).
    destruct (Hlive eq_refl) as (He & Hs & Hc).
    destruct Hmain as (_ & Hlen & _).
    assert (Hb : b <> []) by (apply nonempty_of_length; lia).
    destruct (WriteAll_ok b (flushed tr) w w0 He Hs Hb Heqp)
      as (He0 & Hs0 & Hc0 & Hr0).
    split; [exists EmptyString; now rewrite str_app_nil_r|].
    split; [auto|].
    intros R. destruct (Hrel R) as (? & ? & _).
    repeat split; auto; discriminate.
  - (* WriteAll of the last batch fails *)
    left. rewrite orb_true_r. split_hyps. repeat split; auto.
  - destruct Hwr as (Hd & Hlive & Hrel).
    destruct (Hlive eq_refl) as (He & Hs & Hc).
    destruct (WriteAll_failed b (flushed tr) w w0 e0 He Hc Heqp) as (G & Hroom).
    split; [exact G|]. split; [discriminate|].
    intros R. destruct (Hrel R) as (_ & Hr & _). contradiction.
  - (* WriteAll of the last batch *)
    destruct Hmain as (Hr & Hlen & Hc & Hin & Hend & Hch & Hcl).
    apply Z.ltb_lt in Heqb0.
    rewrite List.length_app, Hr.
    repeat split; eauto; try lia.
    right. exists (flushes tr), b. repeat split; auto; lia.
  - destruct Hwr as (Hd & Hlive & Hrel).
    destruct (Hlive eq_refl) as (He & Hs & Hc).
    apply Z.ltb_lt in Heqb0.
    assert (Hb : b <> []) by (apply nonempty_of_length; lia).
    destruct (WriteAll_ok b (flushed tr) w w0 He Hs Hb Heqp)
      as (He0 & Hs0 & Hc0 & Hr0).
    split; [exists EmptyString; now rewrite str_app_nil_r|].
    split; [auto|].
    intros R. destruct (Hrel R) as (? & ? & _).
    repeat split; auto; discriminate.
  - (* nothing left *)
    destruct Hmain as (Hr & Hlen & Hc & Hin & Hend & Hch & Hcl).
    apply Z.ltb_ge in Heqb0.
    assert (b = []) by (destruct b; [reflexivity|simpl in Heqb0; lia]).
    subst b. rewrite app_nil_r in Hr. repeat split; auto. now left.
  - (* exit 1 *)
    right. destruct (Hquiet eq_refl) as (-> & Hnf). split_hyps.
    repeat split; auto.
  - (* exit 0 *)
    right. destruct (Hquiet eq_refl) as (-> & Hnf). split_hyps.
    repeat split; auto.
  - destruct Hwr as (Hd & Hlive & Hrel).
    destruct (Hlive eq_refl) as (He & Hs & Hc).
    destruct (Flush_at_exit (flushed tr) w He Hs Hc) as (G & F).
    split; [exact G|]. split; [discriminate|].
    intros R. destruct (Hrel R) as (? & Hr & _). destruct (F Hr) as (? & ?).
    repeat split; auto; discriminate.
Qed.

Lemma Inv_step (tr : list Event) (s : State) (g : Goroutine) (e : Event)
  (s' : State) :
  Inv tr s -> step_of g s = Some (e, s') -> Inv (tr ++ [e]) s'.
Proof.
  destruct g; simpl.
  - apply Inv_scanner_step.
  - apply Inv_main_step.
  - apply Inv_spinner_step.
Qed.

(** The invariant holds all along every run. *)
Lemma Inv_reaches (tr : list Event) (s : State) :
  reaches initial tr s -> Inv tr s.
Proof.
  induction 1 as [|tr s g e s' _ IH H].
  - apply Inv_initial.
  - now apply (Inv_step tr s g).
Qed.

End InvariantFacts.

(** ** Runs *)

Lemma reaches_trans (s0 : State) (tr1 : list Event) (s1 : State)
  (tr2 : list Event) (s2 : State) :
  reaches s0 tr1 s1 -> reaches s1 tr2 s2 -> reaches s0 (tr1 ++ tr2) s2.
Proof.
  intros H1 H2. induction H2 as [|tr s g e s' _ IH Hs].
  - now rewrite app_nil_r.
  - rewrite app_assoc. now apply (reaches_step s0 _ s g).
Qed.

Lemma reaches_one (s : State) (g : Goroutine) (e : Event) (s' : State) :
  step_of g s = Some (e, s') -> reaches s [e] s'.
Proof.
  intros H. change [e] with ([] ++ [e]).
  apply (reaches_step s [] s g); [constructor|assumption].
Qed.

(** A schedule is a run. *)
Lemma run_reaches (sched : list Goroutine) (s : State) :
  reaches s (fst (run sched s)) (snd (run sched s)).
Proof.
  revert s. induction sched as [|g rest IH]; intros s; simpl.
  - constructor.
  - destruct (step_of g s) as [[e s']|] eqn:E; [|apply IH].
    specialize (IH s'). destruct (run rest s') as [tr s'']. simpl in *.
    change (e :: tr) with ([e] ++ tr).
    apply (reaches_trans s [e] s'); [|assumption].
    now apply (reaches_one s g).
Qed.

Lemma run_app (sched1 sched2 : list Goroutine) (s : State) :
  run (sched1 ++ sched2) s =
  let '(tr1, s1) := run sched1 s in
  let '(tr2, s2) := run sched2 s1 in (tr1 ++ tr2, s2).
Proof.
  revert s. induction sched1 as [|g rest IH]; intros s; simpl.
  - now destruct (run sched2 s).
  - destruct (step_of g s) as [[e s']|]; [|apply IH].
    rewrite IH. destruct (run rest s') as [tr1 s1].
    now destruct (run sched2 s1).
Qed.

(** Every step of the scanner and of the main goroutine brings the exit
    nearer; the spinner does not delay it. *)
Lemma scanner_step_left (s : State) (e : Event) (s' : State) :
  scanner_step s = Some (e, s') -> steps_left s' < steps_left s.
Proof.
  intros H. destruct s as [sc se ch cl p bs b w fc sp so sr].
  step_cases H;
    destruct p; try discriminate;
    unfold steps_left, scanner_left, unsent, main_left; simpl;
    rewrite ?List.length_app; simpl; lia.
Qed.

Lemma main_step_left (s : State) (e : Event) (s' : State) :
  main_step s = Some (e, s') -> steps_left s' < steps_left s.
Proof.
  intros H. destruct s as [sc se ch cl p bs b w fc sp so sr].
  destruct p; step_cases H;
    unfold steps_left, scanner_left, unsent, main_left; simpl;
    destruct sc; simpl; lia.
Qed.

Lemma spinner_step_left (s : State) (e : Event) (s' : State) :
  spinner_step s = Some (e, s') -> steps_left s' = steps_left s.
Proof.
  intros H. destruct s as [sc se ch cl p bs b w fc sp so sr].
  step_cases H. reflexivity.
Qed.

Section RunFacts.

Variable paths : list string.
Variable result : option error.
Variable size : Z.
Variable room0 : option nat.
Hypothesis size_pos : (0 < size)%Z.

Abbreviation Inv' := (Inv paths result size room0).
Abbreviation initial' := (initial paths result size room0).

(** No deadlock: until the exit, the scanner or the main goroutine can
    take a step. *)
Lemma progress (tr : list Event) (s : State) :
  Inv' tr s -> exited s = false ->
  (exists e s', scanner_step s = Some (e, s')) \/
  (exists e s', main_step s = Some (e, s')).
Proof.
  intros [Hsize Hcount Hquiet Hscan Hchan Hmain Hspin Hwr] Hex.
  destruct s as [sc se ch cl p bs b w fc sp so sr].
  open_inv.
  assert (pair_ex : forall x : Event * State,
            exists e s', Some x = Some (e, s')).
  { intros [e s']. eauto. }
  destruct p; try discriminate.
  - (* at the range loop *)
    destruct ch as [|path rest].
    + destruct cl.
      * right. unfold main_step; simpl. eauto.
      * left. unfold scanner_step; simpl.
        destruct sc as [[|path todo] r| |]; simpl; eauto.
        destruct Hscan as (_ & _ & Hcl). discriminate.
    + right. unfold main_step; simpl. eauto.
  - right. unfold main_step; simpl. apply pair_ex.
  - right. unfold main_step; simpl. apply pair_ex.
  - right. unfold main_step; simpl.
    destruct (0 <? Z.of_nat (length b))%Z; apply pair_ex.
  - right. unfold main_step; simpl. apply pair_ex.
  - right. unfold main_step; simpl. destruct Hspin as [i ->]. eauto.
  - right. unfold main_step; simpl. destruct se; eauto.
Qed.

(** From every state of a run some schedule leads to the exit, in at most
    [steps_left] steps of the scanner and the main goroutine. *)
Lemma can_exit (n : nat) (tr : list Event) (s : State) :
  steps_left s <= n -> Inv' tr s ->
  exists sched, exited (snd (run sched s)) = true.
Proof.
  revert tr s. induction n as [|n IH]; intros tr s Hn HI.
  - destruct (exited s) eqn:E; [exists []; exact E|].
    destruct (progress tr s HI E) as [(e & s' & H)|(e & s' & H)].
    + apply scanner_step_left in H. lia.
    + apply main_step_left in H. lia.
  - destruct (exited s) eqn:E; [exists []; exact E|].
    destruct (progress tr s HI E) as [(e & s' & H)|(e & s' & H)].
    + destruct (IH (tr ++ [e]) s') as [sched Hs].
      * apply scanner_step_left in H. lia.
      * now apply (Inv_step paths result size room0 size_pos tr s TScanner).
      * exists (TScanner :: sched). simpl. rewrite H.
        now destruct (run sched s').
    + destruct (IH (tr ++ [e]) s') as [sched Hs].
      * apply main_step_left in H. lia.
      * now apply (Inv_step paths result size room0 size_pos tr s TMain).
      * exists (TMain :: sched). simpl. rewrite H.
        now destruct (run sched s').
Qed.

Lemma exit_reachable (tr : list Event) (s : State) :
  reaches initial' tr s ->
  exists tr' s', reaches initial' (tr ++ tr') s' /\ exited s' = true.
Proof.
  intros H.
  destruct (can_exit (steps_left s) tr s (Nat.le_refl _)) as [sched Hs].
  { now apply Inv_reaches. }
  exists (fst (run sched s)), (snd (run sched s)). split; [|exact Hs].
  apply (reaches_trans _ tr s); [assumption|apply run_reaches].
Qed.

End RunFacts.

(** ** Startup *)

Section StartupFacts.

Variable Join : string -> string -> string.

(** When [main] gets as far as starting the goroutines, its arguments were
    valid, the path is a directory, the file was created, and the state is
    the initial state of the walk of that directory. *)
Lemma startup_started (w : World) (s0 : State) :
  startup Join w = Started s0 ->
  exists dirPath more size,
    argv w = dirPath :: more /\
    (0 < size)%Z /\
    (more = [] -> size = defaultBatchSize) /\
    (forall arg rest, more = arg :: rest -> Atoi arg = Some size) /\
    os_Stat (files w) dirPath = inl ModeDir /\
    create_err w = None /\
    s0 = initial (fst (WalkDir Join scan_fn (files w) dirPath))
           (snd (WalkDir Join scan_fn (files w) dirPath)) size (disk_room w).
Proof.
  unfold startup. intros H.
  destruct (argv w) as [|dirPath more]; [discriminate|].
  destruct (match more with
            | [] => Some defaultBatchSize
            | arg :: _ =>
                match Atoi arg with
                | Some size => if (size <=? 0)%Z then None else Some size
                | None => None
                end
            end) as [size|] eqn:Esize; [|discriminate].
  destruct (os_Stat (files w) dirPath) as [info|e] eqn:Estat; [|discriminate].
  destruct info; try discriminate.
  destruct (create_err w); [discriminate|].
  rewrite csv_facts.Write_header in H.
  destruct (WalkDir Join scan_fn (files w) dirPath) as [ps r] eqn:EW.
  injection H as <-.
  exists dirPath, more, size.
  assert (Hsize : (0 < size)%Z /\
                  (more = [] -> size = defaultBatchSize) /\
                  (forall arg rest, more = arg :: rest -> Atoi arg = Some size)).
  { destruct more as [|arg rest].
    - injection Esize as <-. split; [reflexivity|]. split; [reflexivity|].
      discriminate.
    - destruct (Atoi arg) as [z|] eqn:EA; [|discriminate].
      destruct (Z.leb_spec z 0); [discriminate|].
      injection Esize as <-. split; [assumption|]. split; [discriminate|].
      intros arg' rest' E. now injection E as <- <-. }
  destruct Hsize as (? & ? & ?). repeat split; auto.
  now rewrite EW.
Qed.

End StartupFacts.

(** ** How a run ends *)

Section CountFacts.

Variable paths : list string.
Variable result : option error.
Variable size : Z.
Variable room0 : option nat.

(** Once the channel is closed the scanner has sent every path of the walk
    and recorded what the walk returned. *)
Lemma closed_scanner (tr : list Event) (s : State) :
  Inv paths result size room0 tr s -> closed s = true ->
  scanner s = Finished /\ sent tr = paths /\ scanErr s = result.
Proof.
  intros HI Hcl. pose proof (inv_scanner _ _ _ _ _ _ HI) as H.
  unfold scanner_ok in H. destruct (scanner s).
  - destruct H as (_ & _ & H & _). congruence.
  - destruct H as (_ & _ & H). congruence.
  - tauto.
Qed.

(** What is flushed was received. *)
Lemma flushed_le_received (tr : list Event) (s : State) :
  Inv paths result size room0 tr s ->
  length (flushed tr) <= length (received tr).
Proof.
  intros HI. pose proof (inv_main _ _ _ _ _ _ HI) as Hm.
  unfold main_ok in Hm.
  assert (L : forall a b : list (list string),
             map record_of (received tr) = a ++ b ->
             length a <= length (received tr)).
  { intros a b H. rewrite <- (length_map record_of), H, List.length_app. lia. }
  assert (L0 : forall a : list (list string),
             map record_of (received tr) = a ->
             length a <= length (received tr)).
  { intros a H. rewrite <- (length_map record_of), H. lia. }
  destruct (pc s); split_hyps; eauto.
  destruct Hm as [Hm|Hm]; split_hyps; eauto.
Qed.

(** No more is received than the walk sends. *)
Lemma received_le_paths (tr : list Event) (s : State) :
  Inv paths result size room0 tr s ->
  length (received tr) <= length paths.
Proof.
  intros HI. pose proof (inv_scanner _ _ _ _ _ _ HI) as Hs.
  pose proof (inv_channel _ _ _ _ _ _ HI) as (Hc & _).
  assert (length (received tr) <= length (sent tr)).
  { rewrite Hc, List.length_app. lia. }
  unfold scanner_ok in Hs.
  destruct (scanner s); split_hyps; subst; rewrite ?List.length_app; lia.
Qed.

(** The adds so far amount to the records flushed, less those of a batch
    flushed whose add is the next step. *)
Lemma counted_flushed (tr : list Event) (s : State) :
  Inv paths result size room0 tr s ->
  (counted tr = Z.of_nat (length (flushed tr)) - uncounted s /\
   0 <= counted tr)%Z.
Proof.
  intros HI. pose proof (inv_main _ _ _ _ _ _ HI) as Hm.
  unfold main_ok, uncounted, blen in *.
  assert (L : forall fl b, flushes tr = fl ++ [b] ->
             length (flushed tr) = length (concat fl) + length b).
  { intros fl b H. unfold flushed. rewrite H, concat_app, List.length_app.
    simpl. now rewrite app_nil_r. }
  destruct (pc s); split_hyps;
    try (match goal with H : flushes tr = _ ++ [_] |- _ => apply L in H end);
    lia.
Qed.

(** While fewer than [2^63] paths are walked the counter does not wrap. *)
Lemma fileCount_exact (tr : list Event) (s : State) :
  (Z.of_nat (length paths) <= max_int64)%Z ->
  Inv paths result size room0 tr s ->
  fileCount s = (Z.of_nat (length (flushed tr)) - uncounted s)%Z.
Proof.
  intros Hmax HI.
  destruct (counted_flushed tr s HI) as (Hc & Hpos).
  pose proof (flushed_le_received tr s HI) as Hle.
  pose proof (received_le_paths tr s HI) as Hle'.
  rewrite (inv_count _ _ _ _ _ _ HI), <- Hc.
  apply wrap64_small.
  assert (0 <= uncounted s)%Z by (unfold uncounted; destruct (pc s); lia).
  unfold min_int64, max_int64 in *. lia.
Qed.

(** How the flushes of a run look. *)
Lemma flushes_shape (tr : list Event) (s : State) :
  Inv paths result size room0 tr s ->
  after_loop size (flushes tr) /\
  (ended tr = false -> in_loop size (flushes tr)) /\
  (pc s = AtRange -> (blen s < size)%Z) /\
  (pc s = AtWriteAll -> blen s = size).
Proof.
  intros HI. pose proof (inv_main _ _ _ _ _ _ HI) as Hm.
  unfold main_ok in Hm.
  destruct (pc s); split_hyps;
    try (destruct Hm as [Hm|Hm]; split_hyps);
    repeat split; try (intros; congruence); try assumption;
    try (left; assumption).
Qed.


(** A walk of fewer paths than the batch size never fills a batch. *)
Lemma no_full_flush (tr : list Event) (s : State)
  (fl rest : list (list (list string))) :
  Inv paths result size room0 tr s ->
  (Z.of_nat (length paths) < size)%Z ->
  flushes tr = fl ++ rest -> in_loop size fl -> fl = [].
Proof.
  intros HI Hfew Hfl Hin.
  destruct fl as [|b fl']; [reflexivity|exfalso].
  inversion Hin as [|? ? Hb _]; subst. unfold full in Hb.
  pose proof (flushed_le_received tr s HI) as Hle.
  pose proof (received_le_paths tr s HI) as Hle'.
  assert (length b <= length (flushed tr)).
  { unfold flushed. rewrite Hfl. simpl. rewrite List.length_app. lia. }
  lia.
Qed.

(** Then nothing is counted before the flush that follows the end of the
    stream, which carries every record. *)
Lemma few_paths_count (tr : list Event) (s : State) :
  Inv paths result size room0 tr s ->
  (Z.of_nat (length paths) < size)%Z ->
  counted tr = 0%Z \/
  (ended tr = true /\ flushed tr = map record_of paths /\
   counted tr = Z.of_nat (length paths)).
Proof.
  intros HI Hfew.
  pose proof (inv_main _ _ _ _ _ _ HI) as Hm.
  pose proof (inv_channel _ _ _ _ _ _ HI) as (Hch & _).
  destruct (counted_flushed tr s HI) as (Hc & Hpos).
  assert (Empty : in_loop size (flushes tr) -> counted tr = 0%Z).
  { intros Hin.
    assert (E : flushes tr = []).
    { apply (no_full_flush tr s (flushes tr) [] HI Hfew);
        [now rewrite app_nil_r|assumption]. }
    unfold flushed in Hc. rewrite E in Hc. simpl in Hc.
    assert (0 <= uncounted s)%Z by (unfold uncounted; destruct (pc s); lia).
    lia. }
  assert (Done : map record_of (received tr) = flushed tr ->
                 drained s -> ended tr = true -> uncounted s = 0%Z ->
                 ended tr = true /\ flushed tr = map record_of paths /\
                 counted tr = Z.of_nat (length paths)).
  { intros Hrows (Hchan & Hcl) Hend Hu.
    destruct (closed_scanner tr s HI Hcl) as (_ & Hsent & _).
    rewrite Hchan, app_nil_r in Hch.
    assert (Hrecv : received tr = paths) by congruence.
    rewrite Hrecv in Hrows. split; [assumption|]. split; [congruence|].
    rewrite Hc, Hu, <- Hrows, length_map. lia. }
  unfold main_ok, blen in Hm. unfold uncounted in Done.
  destruct (pc s) eqn:Epc; split_hyps; auto.
  - (* the add after the last flush is still to come: nothing counted *)
    left.
    match goal with
    | H : after_loop _ _ |- _ => rename H into Hal
    end.
    match goal with
    | E : flushes tr = _ ++ [_] |- _ => rename E into Hlast
    end.
    destruct Hal as [Hin|(fl' & b & Hfl & Hin & Hb)]; [now apply Empty|].
    rewrite Hfl in Hlast. apply app_inj_tail in Hlast.
    destruct Hlast as (_ & Hbs).
    assert (fl' = []) by
      (apply (no_full_flush tr s fl' [b] HI Hfew); assumption).
    subst fl'. unfold flushed in *. rewrite Hfl in *. simpl in *.
    rewrite app_nil_r in *. rewrite <- Hbs in *. lia.
  - destruct Hm as [Hm|Hm]; split_hyps; [left; now apply Empty|].
    right. now apply Done.
Qed.

End CountFacts.

Section ExitFacts.

Variable paths : list string.
Variable result : option error.
Variable size : Z.
Variable room0 : option nat.
Hypothesis size_pos : (0 < size)%Z.

Lemma after_loop_bounds (fl : list (list (list string))) :
  after_loop size fl ->
  Forall (fun b => (0 < Z.of_nat (length b) <= size)%Z) fl.
Proof.
  assert (F : forall l, in_loop size l ->
              Forall (fun b => (0 < Z.of_nat (length b) <= size)%Z) l).
  { intros l H. eapply Forall_impl; [|exact H].
    intros b Hb. unfold full in Hb. simpl. lia. }
  intros [H|(fl' & b & -> & H & Hb)]; [now apply F|].
  apply Forall_app. split; [now apply F|].
  constructor; [|constructor]. unfold partial in Hb. lia.
Qed.

(** On a device without limit a run ends by the report of lines 138-144,
    after every path of the walk has been received and flushed. *)
Lemma exit_summary (tr : list Event) (s : State) :
  reaches (initial paths result size room0) tr s ->
  exited s = true -> room0 = None ->
  sent tr = paths /\ received tr = paths /\
  flushed tr = map record_of paths /\
  ended tr = true /\ write_failed tr = false /\
  after_loop size (flushes tr) /\
  scanErr s = result /\ closed s = true /\
  fileCount s = wrap64 (Z.of_nat (length paths)) /\
  match result with
  | None =>
      pc s = Exited 0 /\ stderr s = EmptyString /\
      content (bufio.wr (writer s)) = csv_bytes (map record_of paths)
  | Some e =>
      pc s = Exited 1 /\
      stderr s = "Error walking directory: " +++ Error e +++ LF /\
      content (bufio.wr (writer s)) = durable (map record_of paths)
  end.
Proof.
  intros Hr Hex Hroom.
  pose proof (Inv_reaches paths result size room0 size_pos tr s Hr) as HI.
  pose proof (inv_main _ _ _ _ _ _ HI) as Hm.
  pose proof (inv_writer _ _ _ _ _ _ HI) as (_ & _ & Hw).
  pose proof (inv_channel _ _ _ _ _ _ HI) as (Hch & _).
  pose proof (inv_count _ _ _ _ _ _ HI) as Hcount.
  destruct (Hw Hroom) as (Hnf & _ & Hc0 & Hc1).
  unfold main_ok, exited in *.
  destruct (pc s) as [| | | | | | |code]; try discriminate.
  destruct Hm as [(Hf & _)|(_ & Hrows & Hcnt & Hal & Hend & (Hchan & Hcl) & Hrep)];
    [congruence|].
  destruct (closed_scanner paths result size room0 tr s HI Hcl)
    as (_ & Hsent & Herr).
  rewrite Hchan, app_nil_r in Hch.
  assert (Hrecv : received tr = paths) by congruence.
  assert (Hfl : flushed tr = map record_of paths) by congruence.
  repeat (split; [first [assumption | congruence]|]).
  split.
  { rewrite Hcount, Hcnt, Hfl. now rewrite length_map. }
  unfold reported in Hrep. rewrite Herr in Hrep.
  destruct result as [e|]; destruct Hrep as (-> & Hse).
  - repeat split; auto. rewrite <- Hfl. now apply Hc1.
  - repeat split; auto. rewrite <- Hfl. now apply Hc0.
Qed.

End ExitFacts.

(** ** Cutting into batches *)

Lemma chunks_upto_nil (fuel n : nat) : chunks_upto fuel n [] = [].
Proof. now destruct fuel. Qed.

(** Fuel beyond the length of the list changes nothing. *)
Lemma chunks_upto_fuel (n : nat) (fuel1 fuel2 : nat) (l : list (list string)) :
  0 < n -> length l <= fuel1 -> length l <= fuel2 ->
  chunks_upto fuel1 n l = chunks_upto fuel2 n l.
Proof.
  intros Hn. revert fuel2 l.
  induction fuel1 as [|f1 IH]; intros fuel2 l H1 H2.
  - destruct l; [now rewrite !chunks_upto_nil|simpl in H1; lia].
  - destruct l as [|x l]; [now rewrite !chunks_upto_nil|].
    destruct fuel2 as [|f2]; [simpl in H2; lia|].
    cbn [chunks_upto]. f_equal.
    assert (Hs : length (skipn n (x :: l)) <= length l).
    { rewrite length_skipn. cbn [length]. lia. }
    cbn [length] in H1, H2. apply IH; lia.
Qed.

Lemma chunks_upto_S (fuel n : nat) (l : list (list string)) :
  l <> [] ->
  chunks_upto (S fuel) n l = firstn n l :: chunks_upto fuel n (skipn n l).
Proof. destruct l; [congruence|reflexivity]. Qed.

(** A full group in front is the first group. *)
Lemma chunks_full (n : nat) (b l : list (list string)) :
  0 < n -> length b = n -> chunks n (b ++ l) = b :: chunks n l.
Proof.
  intros Hn Hb. unfold chunks.
  assert (Hne : b ++ l <> []).
  { destruct b; [simpl in Hb; lia|discriminate]. }
  rewrite List.length_app.
  replace (length b + length l) with (S (pred n + length l)) by lia.
  rewrite chunks_upto_S by assumption.
  rewrite firstn_app, skipn_app.
  rewrite (firstn_all2 b), (skipn_all2 b) by lia.
  replace (n - length b) with 0 by lia.
  cbn [firstn skipn app]. rewrite app_nil_r. f_equal.
  apply chunks_upto_fuel; lia.
Qed.

(** What is left after the full groups is the last group. *)
Lemma chunks_partial (n : nat) (b : list (list string)) :
  0 < length b <= n -> chunks n b = [b].
Proof.
  intros Hb. unfold chunks.
  assert (Hne : b <> []) by (destruct b; [simpl in Hb; lia|discriminate]).
  destruct (length b) as [|k] eqn:E; [lia|].
  rewrite chunks_upto_S by assumption.
  rewrite firstn_all2, skipn_all2 by lia. now rewrite chunks_upto_nil.
Qed.

Lemma chunks_in_loop (size : Z) (fl : list (list (list string)))
  (rest : list (list string)) :
  (0 < size)%Z -> in_loop size fl ->
  chunks (Z.to_nat size) (concat fl ++ rest)
  = fl ++ chunks (Z.to_nat size) rest.
Proof.
  intros Hs H. induction H as [|b fl Hb _ IH]; [reflexivity|].
  simpl. rewrite <- app_assoc, chunks_full, IH; try reflexivity; try lia.
  unfold full in Hb. lia.
Qed.

(** The flushes of a complete run are the records cut into batches. *)
Lemma chunks_after_loop (size : Z) (fl : list (list (list string))) :
  (0 < size)%Z -> after_loop size fl ->
  fl = chunks (Z.to_nat size) (concat fl).
Proof.
  intros Hs [H|(fl' & b & -> & H & Hb)].
  - rewrite <- (app_nil_r (concat fl)), chunks_in_loop by assumption.
    unfold chunks. simpl. now rewrite app_nil_r.
  - rewrite concat_app. simpl. rewrite app_nil_r.
    rewrite chunks_in_loop by assumption.
    rewrite chunks_partial; [reflexivity|]. unfold partial in Hb. lia.
Qed.

(** * The claims *)

Section Claims.

Variable Join : string -> string -> string.

(** What the run of a started program is made of. *)
Lemma started_run (w : World) (s0 : State) (dirPath : string)
  (more : list string) :
  startup Join w = Started s0 -> argv w = dirPath :: more ->
  exists size,
    (0 < size)%Z /\ batchSize s0 = size /\
    os_Stat (files w) dirPath = inl ModeDir /\
    s0 = initial (fst (WalkDir Join scan_fn (files w) dirPath))
           (snd (WalkDir Join scan_fn (files w) dirPath)) size (disk_room w).
Proof.
  intros Hs Ha.
  destruct (startup_started Join w s0 Hs)
    as (d & m & size & Ha' & Hpos & _ & _ & Hstat & _ & ->).
  rewrite Ha in Ha'. injection Ha' as <- <-.
  exists size. repeat split; auto.
Qed.

(** C1. For every directory tree on which the traversal succeeds fully, a
    run ends with exit code 0 and the CSV file then holds exactly the header
    row followed by one row per non-directory entry of the tree, in the
    order the walk sent them (depth first, each directory in its listing
    order); their number is the number of non-directory entries, and a tree
    without any yields the header alone.  Such a run exists. *)
Theorem C1_csv_rows_of_a_full_walk (w : World) (dirPath : string)
  (more : list string) (n : node) (s0 : State) :
  startup Join w = Started s0 ->
  argv w = dirPath :: more ->
  files w dirPath = Found n ->
  readable n = true ->
  disk_room w = None ->
  (exists tr s, reaches s0 tr s /\ pc s = Exited 0) /\
  (forall tr s,
     reaches s0 tr s -> exited s = true ->
     pc s = Exited 0 /\
     sent tr = non_dirs Join dirPath n /\
     content (bufio.wr (writer s))
     = csv.encode_all (header :: map record_of (non_dirs Join dirPath n)) /\
     length (map record_of (non_dirs Join dirPath n)) = count_non_dirs n /\
     (count_non_dirs n = 0 ->
      content (bufio.wr (writer s)) = "file_path,path_length" +++ LF)).
Proof.
  intros Hs Ha Hf Hr Hroom.
  destruct (started_run w s0 dirPath more Hs Ha) as (size & Hpos & _ & _ & ->).
  rewrite (WalkDir_found Join (files w) dirPath n Hf).
  rewrite (proj1 (readable_visits Join) n dirPath Hr), until_failure_paths.
  cbn [fst snd]. rewrite Hroom.
  set (paths := non_dirs Join dirPath n).
  assert (Hend : forall tr s,
             reaches (initial paths None size None) tr s ->
             exited s = true ->
             pc s = Exited 0 /\ sent tr = paths /\
             content (bufio.wr (writer s)) = csv_bytes (map record_of paths)).
  { intros tr s Hreach Hex.
    destruct (exit_summary paths None size None Hpos tr s Hreach Hex eq_refl)
      as (Hsent & _ & _ & _ & _ & _ & _ & _ & _ & Hpc & _ & Hc).
    auto. }
  split.
  - destruct (exit_reachable paths None size None Hpos [] _
                (reaches_start _)) as (tr & s & Hreach & Hex).
    exists tr, s. split; [exact Hreach|]. now apply (Hend tr s).
  - intros tr s Hreach Hex.
    destruct (Hend tr s Hreach Hex) as (Hpc & Hsent & Hc).
    assert (Hlen : length (map record_of paths) = count_non_dirs n).
    { rewrite length_map. apply (proj1 (count_non_dirs_length Join)). }
    repeat split; auto.
    intros Hz. rewrite Hc.
    destruct (map record_of paths); [reflexivity|].
    rewrite Hz in Hlen. discriminate.
Qed.

(** Every record the main goroutine makes is a path with its length. *)
Lemma records_of_paths (s0 : State) (tr : list Event) (s : State) :
  batch s0 = [] -> reaches s0 tr s ->
  Forall (fun r => exists path, r = record_of path) (written tr ++ batch s).
Proof.
  intros H0 Hr. induction Hr as [|tr s g e s' _ IH Hstep].
  - rewrite H0. constructor.
  - apply Forall_app in IH. destruct IH as (Hw & Hb).
    destruct s as [sc se ch cl p bs b w fc sp so sr].
    cbn [batch] in *.
    destruct g; cbn [step_of] in Hstep; [| destruct p |]; step_cases Hstep;
      cbn [batch]; norm_trace;
      repeat (apply Forall_app; split); auto.
    all: repeat constructor; eauto.
    all: eexists; reflexivity.
Qed.

Lemma decimal_value_Itoa (z : Z) : decimal_value (Itoa z) = Some z.
Proof.
  unfold decimal_value, Itoa.
  rewrite NilZero.isi.
  - simpl. now rewrite DecimalZ.of_to.
  - destruct z; simpl; try discriminate.
    intros H. injection H as H. now apply DecimalPos.Unsigned.to_uint_nonnil in H.
  - destruct z; simpl; try discriminate.
    intros H. injection H as H. now apply DecimalPos.Unsigned.to_uint_nonnil in H.
Qed.

(** C2. Every record handed to the CSV writer, in a batch that was flushed
    or in one whose write failed, and every record waiting in the batch,
    has two fields: a path and the decimal numeral of the length of that
    path in bytes, the characters of a Go string. *)
Theorem C2_path_length_is_length (w : World) (s0 : State)
  (tr : list Event) (s : State) (r : list string) :
  startup Join w = Started s0 ->
  reaches s0 tr s ->
  In r (written tr) \/ In r (batch s) ->
  exists path,
    r = [path; Itoa (len path)] /\
    decimal_value (nth 1 r EmptyString)
    = Some (Z.of_nat (String.length (nth 0 r EmptyString))).
Proof.
  intros Hs Hr Hin.
  destruct (startup_started Join w s0 Hs)
    as (d & m & size & _ & _ & _ & _ & _ & _ & ->).
  pose proof (fun H => records_of_paths _ tr s H Hr) as HF.
  specialize (HF eq_refl).
  rewrite Forall_forall in HF.
  destruct (HF r) as [path ->]; [apply in_or_app; exact Hin|].
  exists path. split; [reflexivity|].
  simpl. apply decimal_value_Itoa.
Qed.


(** The file only grows. *)
Lemma step_grows (paths : list string) (result : option error) (size : Z)
  (room0 : option nat) (tr : list Event) (s : State) (g : Goroutine)
  (e : Event) (s' : State) :
  Inv paths result size room0 tr s -> step_of g s = Some (e, s') ->
  exists more,
    content (bufio.wr (writer s')) = content (bufio.wr (writer s)) +++ more.
Proof.
  intros HI Hstep.
  assert (Same : exists more,
            content (bufio.wr (writer s))
            = content (bufio.wr (writer s)) +++ more).
  { exists EmptyString. now rewrite str_app_nil_r. }
  pose proof (inv_writer _ _ _ _ _ _ HI) as (_ & Hlive & _).
  destruct s as [sc se ch cl p bs b w fc sp so sr].
  unfold exited in Hlive. cbn [pc writer] in *.
  destruct g; cbn [step_of] in Hstep; [| destruct p |]; step_cases Hstep;
    cbn [writer]; try exact Same;
    destruct (Hlive eq_refl) as (He & _).
  - destruct (csv_facts.performs_WriteAll b w He) as (G & _).
    now rewrite Heqp in G.
  - destruct (csv_facts.performs_WriteAll b w He) as (G & _).
    now rewrite Heqp in G.
  - destruct (csv_facts.performs_WriteAll b w He) as (G & _).
    now rewrite Heqp in G.
  - destruct (csv_facts.performs_WriteAll b w He) as (G & _).
    now rewrite Heqp in G.
  - now destruct (bufio_facts.Flush_spec w He) as (G & _).
Qed.

(** C4 (amended). The counter changes only by the add of the main goroutine
    that follows the flush of a batch, and then by the size of that batch.
    At every point of every run, also when a write fails, it is the number
    of records flushed so far less those of a batch already flushed whose
    add is the next step: never more than the records flushed, and equal to
    them outside that window.  The records flushed are in the file.  (For a
    walk of fewer than [2^63] paths, up to which the 64-bit counter does not
    wrap.) *)
Theorem C4_count_follows_flushes (w : World) (dirPath : string)
  (more : list string) (s0 : State) (tr : list Event) (s : State) :
  startup Join w = Started s0 ->
  argv w = dirPath :: more ->
  (Z.of_nat (length (fst (WalkDir Join scan_fn (files w) dirPath)))
   <= max_int64)%Z ->
  reaches s0 tr s ->
  fileCount s = (Z.of_nat (length (flushed tr)) - uncounted s)%Z /\
  (0 <= uncounted s)%Z /\
  (uncounted s <> 0%Z ->
   exists fl, flushes tr = fl ++ [batch s] /\
              uncounted s = Z.of_nat (length (batch s))) /\
  (exists more,
     content (bufio.wr (writer s)) = durable (flushed tr) +++ more) /\
  (forall g e s',
     step_of g s = Some (e, s') ->
     fileCount s' = fileCount s \/
     g = TMain /\ e = Added (uncounted s) /\ uncounted s' = 0%Z /\
     fileCount s' = (fileCount s + uncounted s)%Z).
Proof.
  intros Hs Ha Hmax Hr.
  destruct (started_run w s0 dirPath more Hs Ha) as (size & Hpos & _ & _ & ->).
  set (paths := fst (WalkDir Join scan_fn (files w) dirPath)) in *.
  set (result := snd (WalkDir Join scan_fn (files w) dirPath)) in *.
  pose proof (Inv_reaches paths result size _ Hpos tr s Hr) as HI.
  pose proof (fileCount_exact paths result size _ tr s Hmax HI) as Hcount.
  split; [exact Hcount|].
  split; [unfold uncounted; destruct (pc s); lia|].
  split.
  { pose proof (inv_main _ _ _ _ _ _ HI) as Hm.
    unfold main_ok, uncounted in *.
    destruct (pc s); try congruence; split_hyps; eauto. }
  split; [apply (inv_writer _ _ _ _ _ _ HI)|].
  intros g e s' Hstep.
  pose proof (Inv_step paths result size _ Hpos tr s g e s' HI Hstep) as HI'.
  pose proof (fileCount_exact paths result size _ _ s' Hmax HI') as Hcount'.
  rewrite Hcount', Hcount. clear Hcount Hcount' HI HI' Hr.
  destruct s as [sc se ch cl p bs b wr fc sp so sr].
  destruct g; cbn [step_of] in Hstep; [| destruct p |]; step_cases Hstep;
    unfold uncounted; cbn [pc batch]; norm_trace;
    rewrite ?List.length_app;
    try (left; lia);
    try (right; repeat split; auto; lia).
Qed.

(** C5. On a device without limit: inside the loop the batch is flushed
    exactly when it holds [batchSize] records (the main goroutine never
    waits for a path with a full batch, and every flush before the end of
    the stream is of exactly [batchSize] records), no flush ever has more
    than [batchSize] records or none, and when the run has ended the flushes
    are the records of the paths received cut into groups of [batchSize],
    the remainder flushed once as the last group: every path received is
    written exactly once, and each record is one row of the file. *)
Theorem C5_flushes_cut_into_batches (w : World) (dirPath : string)
  (more : list string) (s0 : State) :
  startup Join w = Started s0 ->
  argv w = dirPath :: more ->
  disk_room w = None ->
  (exists tr s, reaches s0 tr s /\ exited s = true) /\
  (forall tr s,
     reaches s0 tr s ->
     (pc s = AtRange ->
      (Z.of_nat (length (batch s)) < batchSize s0)%Z) /\
     (pc s = AtWriteAll -> Z.of_nat (length (batch s)) = batchSize s0) /\
     (ended tr = false ->
      Forall (fun b => Z.of_nat (length b) = batchSize s0) (flushes tr)) /\
     Forall (fun b => (0 < Z.of_nat (length b) <= batchSize s0)%Z)
       (flushes tr) /\
     (flushed tr <> [] ->
      exists more',
        content (bufio.wr (writer s))
        = csv.encode_all (header :: flushed tr) +++ more')) /\
  (forall tr s,
     reaches s0 tr s -> exited s = true ->
     flushes tr
     = chunks (Z.to_nat (batchSize s0)) (map record_of (received tr)) /\
     concat (flushes tr) = map record_of (received tr) /\
     received tr = fst (WalkDir Join scan_fn (files w) dirPath)).
Proof.
  intros Hs Ha Hroom.
  destruct (started_run w s0 dirPath more Hs Ha) as (size & Hpos & Hb & _ & ->).
  cbn [batchSize initial] in *. clear Hb. rewrite Hroom.
  set (paths := fst (WalkDir Join scan_fn (files w) dirPath)).
  set (result := snd (WalkDir Join scan_fn (files w) dirPath)).
  split; [|split].
  - destruct (exit_reachable paths result size None Hpos [] _
                (reaches_start _)) as (tr & s & Hr & Hex). eauto.
  - intros tr s Hr.
    pose proof (Inv_reaches paths result size None Hpos tr s Hr) as HI.
    pose proof (inv_writer _ _ _ _ _ _ HI) as (Hd & _ & Hw).
    destruct (Hw eq_refl) as (Hnf & _).
    destruct (flushes_shape paths result size None tr s HI)
      as (Hal & Hin & H1 & H2).
    repeat split; auto.
    + now apply (after_loop_bounds size Hpos).
    + intros Hne. destruct Hd as [more' Hd]. exists more'.
      rewrite Hd. unfold durable, csv_bytes.
      destruct (flushed tr); [congruence|reflexivity].
  - intros tr s Hr Hex.
    destruct (exit_summary paths result size None Hpos tr s Hr Hex eq_refl)
      as (_ & Hrecv & Hfl & _ & _ & Hal & _).
    rewrite Hrecv, <- Hfl. repeat split; auto.
    now apply chunks_after_loop.
Qed.

(** C6. With the callback of [main] the walk sends the paths it meets
    before the first directory that cannot be read and returns that error;
    nothing met after it is sent.  In every run the paths sent are the first
    of those, the scanner assigns what the walk returned to [scanErr] and
    then closes the channel, whether the walk failed or not: a closed
    channel means everything was sent and the outcome recorded.  Until the
    exit the scanner or the main goroutine can always take a step, each such
    step brings the exit nearer, so from every point the run can be
    completed; and a run that ends without a failed write has reached the
    end of the stream on the closed channel. *)
Theorem C6_walk_error_closes_channel (w : World) (dirPath : string)
  (more : list string) (n : node) (s0 : State) :
  startup Join w = Started s0 ->
  argv w = dirPath :: more ->
  files w dirPath = Found n ->
  WalkDir Join scan_fn (files w) dirPath
  = until_failure (visits Join dirPath n) /\
  (exists later,
     non_dirs Join dirPath n
     = fst (until_failure (visits Join dirPath n)) ++ later) /\
  (forall tr s,
     reaches s0 tr s ->
     (exists later,
        fst (until_failure (visits Join dirPath n)) = sent tr ++ later) /\
     (closed s = true ->
      scanner s = Finished /\
      sent tr = fst (until_failure (visits Join dirPath n)) /\
      scanErr s = snd (until_failure (visits Join dirPath n))) /\
     (scanner s = Finished -> closed s = true) /\
     (exited s = false ->
      (exists e s', scanner_step s = Some (e, s')) \/
      (exists e s', main_step s = Some (e, s'))) /\
     (forall g e s',
        step_of g s = Some (e, s') -> g <> TSpinner ->
        steps_left s' < steps_left s) /\
     (exists tr' s', reaches s0 (tr ++ tr') s' /\ exited s' = true) /\
     (exited s = true -> write_failed tr = false ->
      ended tr = true /\ closed s = true)).
Proof.
  intros Hs Ha Hf.
  destruct (started_run w s0 dirPath more Hs Ha) as (size & Hpos & _ & _ & ->).
  rewrite (WalkDir_found Join (files w) dirPath n Hf).
  set (paths := fst (until_failure (visits Join dirPath n))).
  set (result := snd (until_failure (visits Join dirPath n))).
  split; [reflexivity|].
  split; [apply (proj1 (until_failure_prefix Join))|].
  intros tr s Hr.
  pose proof (Inv_reaches paths result size _ Hpos tr s Hr) as HI.
  pose proof (inv_scanner _ _ _ _ _ _ HI) as Hsc.
  split; [|split; [|split; [|split; [|split; [|split]]]]].
  - unfold scanner_ok in Hsc.
    destruct (scanner s) as [todo r| |]; split_hyps.
    + exists todo. congruence.
    + exists []. rewrite app_nil_r. congruence.
    + exists []. rewrite app_nil_r. congruence.
  - now apply (closed_scanner paths result size (disk_room w)).
  - intros E. unfold scanner_ok in Hsc. rewrite E in Hsc. tauto.
  - now apply (progress paths result size (disk_room w) tr).
  - intros g e s' Hstep Hg. destruct g; cbn [step_of] in Hstep.
    + now apply (scanner_step_left s e).
    + now apply (main_step_left s e).
    + congruence.
  - exact (exit_reachable paths result size (disk_room w) Hpos tr s Hr).
  - intros Hex Hnf. pose proof (inv_main _ _ _ _ _ _ HI) as Hm.
    unfold main_ok, exited, drained in *.
    destruct (pc s); try discriminate.
    destruct Hm as [(H & _)|Hm]; [congruence|]. split_hyps. auto.
Qed.

(** C7. When the walk returns an error, on a device without limit: nothing
    is on standard error while the program runs; a run ends with exit code 1
    and the message of the walk's error on standard error, and by then every
    path the walk sent has been received and its record flushed, so that
    all these rows are in the file (behind the header, which the first flush
    carries along; a walk that sent nothing leaves the file empty, since
    [os.Exit] skips the deferred flush).  No step of a run ever takes bytes
    back from the file.  Such a run exists. *)
Theorem C7_error_reported_after_drain (w : World) (dirPath : string)
  (more : list string) (s0 : State) (e : error) :
  startup Join w = Started s0 ->
  argv w = dirPath :: more ->
  disk_room w = None ->
  snd (WalkDir Join scan_fn (files w) dirPath) = Some e ->
  (exists tr s, reaches s0 tr s /\ exited s = true) /\
  (forall tr s,
     reaches s0 tr s ->
     (exited s = false -> stderr s = EmptyString) /\
     (exited s = true ->
      pc s = Exited 1 /\
      stderr s = "Error walking directory: " +++ Error e +++ LF /\
      received tr = fst (WalkDir Join scan_fn (files w) dirPath) /\
      flushed tr
      = map record_of (fst (WalkDir Join scan_fn (files w) dirPath)) /\
      content (bufio.wr (writer s)) = durable (flushed tr) /\
      (flushed tr <> [] ->
       content (bufio.wr (writer s))
       = csv.encode_all (header :: flushed tr))) /\
     (forall g ev s',
        step_of g s = Some (ev, s') ->
        exists more',
          content (bufio.wr (writer s'))
          = content (bufio.wr (writer s)) +++ more')).
Proof.
  intros Hs Ha Hroom He.
  destruct (started_run w s0 dirPath more Hs Ha) as (size & Hpos & _ & _ & ->).
  rewrite Hroom, He.
  set (paths := fst (WalkDir Join scan_fn (files w) dirPath)).
  split.
  - destruct (exit_reachable paths (Some e) size None Hpos [] _
                (reaches_start _)) as (tr & s & Hr & Hex). eauto.
  - intros tr s Hr.
    pose proof (Inv_reaches paths (Some e) size None Hpos tr s Hr) as HI.
    split; [|split].
    + intros Hex. now apply (inv_quiet _ _ _ _ _ _ HI).
    + intros Hex.
      destruct (exit_summary paths (Some e) size None Hpos tr s Hr Hex eq_refl)
        as (_ & Hrecv & Hfl & _ & _ & _ & _ & _ & _ & Hpc & Herr & Hc).
      rewrite Hfl. repeat split; auto.
      intros Hne. rewrite Hc. unfold durable, csv_bytes.
      destruct (map record_of paths); [congruence|reflexivity].
    + intros g ev s' Hstep.
      exact (step_grows paths (Some e) size None tr s g ev s' HI Hstep).
Qed.

(** C8. When the directory argument is missing, or the batch size argument
    is not a positive integer, or [os.Stat] of the path fails (missing or
    inaccessible), or the path is not a directory, [main] ends before
    [os.Create]: exit code 1, a message on standard error, no goroutine
    started, and [file_paths.csv] as it was before the run (absent, or with
    its old content). *)
Theorem C8_validation_before_creation (w : World) :
  (argv w = [] \/
   (exists dirPath arg rest,
      argv w = dirPath :: arg :: rest /\
      (Atoi arg = None \/ exists z, Atoi arg = Some z /\ (z <= 0)%Z)) \/
   (exists dirPath more e,
      argv w = dirPath :: more /\ os_Stat (files w) dirPath = inr e) \/
   (exists dirPath more m,
      argv w = dirPath :: more /\ os_Stat (files w) dirPath = inl m /\
      IsDir m = false)) ->
  exists msg,
    startup Join w = Abort 1 msg (csv_before w) /\ msg <> EmptyString.
Proof.
  unfold startup.
  intros [H|[(d & arg & rest & H & Hbad)|[(d & more & e & H & Hst)
                                         |(d & more & m & H & Hst & Hdir)]]];
    rewrite H.
  - eexists. split; [reflexivity|discriminate].
  - assert (E : match Atoi arg with
                | Some size => if (size <=? 0)%Z then None else Some size
                | None => None
                end = None).
    { destruct Hbad as [->|(z & -> & Hz)]; [reflexivity|].
      destruct (Z.leb_spec z 0); [reflexivity|lia]. }
    rewrite E. eexists. split; [reflexivity|discriminate].
  - destruct (match more with
              | [] => Some defaultBatchSize
              | arg :: _ =>
                  match Atoi arg with
                  | Some size => if (size <=? 0)%Z then None else Some size
                  | None => None
                  end
              end).
    + rewrite Hst. eexists. split; [reflexivity|discriminate].
    + eexists. split; [reflexivity|discriminate].
  - destruct (match more with
              | [] => Some defaultBatchSize
              | arg :: _ =>
                  match Atoi arg with
                  | Some size => if (size <=? 0)%Z then None else Some size
                  | None => None
                  end
              end).
    + rewrite Hst, Hdir. eexists. split; [reflexivity|discriminate].
    + eexists. split; [reflexivity|discriminate].
Qed.

(** C9 (amended). Whenever the main goroutine is about to take the next
    path from the channel, or has just seen the end of the stream, the
    number of paths received minus the counter is the number of records in
    the batch, which is strictly less than the batch size.  Inside an
    iteration the batch holds up to the batch size, which it reaches just
    before it is flushed, and the paths received are never more than the
    batch size ahead of the counter.  When the walk sends fewer paths than
    the batch size, the counter, and so every value the spinner loads, is 0
    until the flush that follows the end of the stream, which carries every
    record.  (For a walk of fewer than [2^63] paths.) *)
Theorem C9_pending_at_loop_head (w : World) (dirPath : string)
  (more : list string) (s0 : State) (tr : list Event) (s : State) :
  startup Join w = Started s0 ->
  argv w = dirPath :: more ->
  (Z.of_nat (length (fst (WalkDir Join scan_fn (files w) dirPath)))
   <= max_int64)%Z ->
  reaches s0 tr s ->
  (pc s = AtRange \/ pc s = AtRemaining ->
   (Z.of_nat (length (received tr)) - fileCount s
    = Z.of_nat (length (batch s)) /\
    Z.of_nat (length (batch s)) < batchSize s0)%Z) /\
  (ended tr = false -> exited s = false ->
   (0 <= Z.of_nat (length (received tr)) - fileCount s <= batchSize s0 /\
    Z.of_nat (length (batch s)) <= batchSize s0)%Z) /\
  ((Z.of_nat (length (fst (WalkDir Join scan_fn (files w) dirPath)))
    < batchSize s0)%Z ->
   (fileCount s <> 0%Z ->
    ended tr = true /\
    flushed tr
    = map record_of (fst (WalkDir Join scan_fn (files w) dirPath))) /\
   (forall c s',
      spinner_step s = Some (Observed c, s') -> c <> 0%Z ->
      ended tr = true /\
      flushed tr
      = map record_of (fst (WalkDir Join scan_fn (files w) dirPath)))).
Proof.
  intros Hs Ha Hmax Hr.
  destruct (started_run w s0 dirPath more Hs Ha) as (size & Hpos & _ & _ & ->).
  cbn [batchSize initial].
  set (paths := fst (WalkDir Join scan_fn (files w) dirPath)) in *.
  set (result := snd (WalkDir Join scan_fn (files w) dirPath)) in *.
  pose proof (Inv_reaches paths result size _ Hpos tr s Hr) as HI.
  pose proof (fileCount_exact paths result size _ tr s Hmax HI) as Hcount.
  pose proof (inv_main _ _ _ _ _ _ HI) as Hm.
  assert (L : forall a b : list (list string),
             map record_of (received tr) = a ++ b ->
             length (received tr) = length a + length b).
  { intros a b H. rewrite <- (length_map record_of), H. apply List.length_app. }
  assert (L0 : forall a : list (list string),
             map record_of (received tr) = a ->
             length (received tr) = length a).
  { intros a H. rewrite <- (length_map record_of), H. reflexivity. }
  split; [|split].
  - unfold main_ok, uncounted, blen in *.
    intros [E|E]; rewrite E in *; split_hyps;
      match goal with H : map record_of _ = _ ++ _ |- _ => apply L in H end;
      lia.
  - intros Hend Hex. unfold main_ok, uncounted, blen, exited in *.
    destruct (pc s); try discriminate; split_hyps; try congruence;
      try (match goal with
           | H : map record_of _ = _ ++ _ |- _ => apply L in H
           end);
      try (match goal with
           | H : map record_of _ = _ |- _ => apply L0 in H
           end);
      lia.
  - intros Hfew.
    assert (Hzero : fileCount s <> 0%Z ->
              ended tr = true /\ flushed tr = map record_of paths).
    { intros Hne.
      destruct (few_paths_count paths result size _ tr s HI Hfew)
        as [Hz|(Hend & Hfl & _)]; [|auto].
      rewrite (inv_count _ _ _ _ _ _ HI), Hz in Hne.
      exfalso. now apply Hne. }
    split; [exact Hzero|].
    intros c s' Hstep Hc. apply Hzero.
    unfold spinner_step in Hstep.
    destruct (exited s); [discriminate|].
    destruct (spinner s); [|discriminate].
    injection Hstep as <- _. exact Hc.
Qed.

(** C10. An entry the file system reports as a symbolic link, whatever it
    points to (a directory too, or nothing), makes the walk send its path
    once and return nil: as the root, and as an entry of a listing, after
    which the walk goes on with the next entry.  What the walk sends and
    returns does not depend on the targets of the links of the tree: it
    descends only into the entries reported as directories. *)
Theorem C10_symlink_is_a_file :
  (forall path target,
     walkDir Join scan_fn path (Symlink target) = ([path], None)) /\
  (forall path msg,
     walkDir Join scan_fn path (Dangling msg) = ([path], None)) /\
  (forall path name target rest,
     walk_entries Join scan_fn path (entry name (Symlink target) rest)
     = (Join path name :: fst (walk_entries Join scan_fn path rest),
        snd (walk_entries Join scan_fn path rest))) /\
  (forall fs root target,
     fs root = Found (Symlink target) ->
     WalkDir Join scan_fn fs root = ([root], None)) /\
  (forall path n,
     walkDir Join scan_fn path n = walkDir Join scan_fn path (unlink n)) /\
  (forall path n,
     walkDir Join scan_fn path n = until_failure (visits Join path n)).
Proof.
  split; [reflexivity|]. split; [reflexivity|].
  split.
  { intros path name target rest. simpl.
    now destruct (walk_entries Join scan_fn path rest). }
  split.
  { intros fs root target H. unfold WalkDir, os_Lstat. now rewrite H. }
  split.
  - intros path n.
    rewrite !(proj1 (walk_visits Join)).
    now rewrite (proj1 (visits_unlink Join)).
  - intros path n. apply (proj1 (walk_visits Join)).
Qed.

End Claims.


(** * The model on examples *)

Example Atoi_examples :
  map Atoi ["100"; "+5"; "-3"; "0"; "007"; "9223372036854775807";
            "9223372036854775808"; "-9223372036854775808"; "-"; "1_0";
            " 5"; "abc"]
  = [Some 100%Z; Some 5%Z; Some (-3)%Z; Some 0%Z; Some 7%Z;
     Some 9223372036854775807%Z; None; Some (-9223372036854775808)%Z; None;
     None; None; None].
Proof. reflexivity. Qed.

Example Itoa_examples :
  map Itoa [0%Z; 12%Z; (-7)%Z; 4096%Z] = ["0"; "12"; "-7"; "4096"].
Proof. reflexivity. Qed.

(** [len] counts bytes: the two bytes of a UTF-8 encoded letter. *)
Example len_counts_bytes : len (bytes [195; 169]) = 2%Z.
Proof. reflexivity. Qed.

Example wrap64_examples :
  map wrap64 [5%Z; (-1)%Z; (2 ^ 63 - 1)%Z; (2 ^ 63)%Z]
  = [5%Z; (-1)%Z; (2 ^ 63 - 1)%Z; (- 2 ^ 63)%Z].
Proof. reflexivity. Qed.

Example Clean_examples :
  map unix.Clean ["/tmp/a/x.txt"; "./x"; "a/../b"; "/.."; "../a"; "a/../..";
                  "a//b/"; "."; "/"; "a/./b/.."; "abc/def/../../.."]
  = ["/tmp/a/x.txt"; "x"; "b"; "/"; "../a"; ".."; "a/b"; "."; "/"; "a"; ".."].
Proof. reflexivity. Qed.

Example Join_examples :
  (unix.Join "/tmp/a" "x.txt", unix.Join "." "x", unix.Join "/" "x",
   unix.Join "a/" "y")
  = ("/tmp/a/x.txt", "x", "/x", "a/y").
Proof. reflexivity. Qed.

(** A field with a comma, one with a leading space and one with a quote are
    quoted; the quote is doubled. *)
Example encode_examples :
  csv.encode_all [["a,b"; "3"]; [" x"; "2"]; ["a" +++ DQUOTE +++ "b"; "3"];
                  ["plain"; "5"]]
  = DQUOTE +++ "a,b" +++ DQUOTE +++ ",3" +++ LF
    +++ DQUOTE +++ " x" +++ DQUOTE +++ ",2" +++ LF
    +++ DQUOTE +++ "a" +++ DQUOTE +++ DQUOTE +++ "b" +++ DQUOTE +++ ",3" +++ LF
    +++ "plain,5" +++ LF.
Proof. reflexivity. Qed.

(** What the writer does is what [encode_all] says, whatever the device. *)
Example WriteAll_example :
  csv.WriteAll [["abc"; "3"]; ["defgh"; "5"]]
    (csv.NewWriter (mkFile EmptyString None))
  = (bufio.mkWriter None EmptyString
       (mkFile ("abc,3" +++ LF +++ "defgh,5" +++ LF) None), None).
Proof. reflexivity. Qed.

(** A device with room for 7 bytes takes 7 and the write fails. *)
Example WriteAll_full_device :
  let '(b, e) := csv.WriteAll [["abc"; "3"]; ["defgh"; "5"]]
                   (csv.NewWriter (mkFile EmptyString (Some 7))) in
  content (bufio.wr b) = "abc,3" +++ LF +++ "d" /\ e <> None.
Proof. split; [reflexivity|discriminate]. Qed.

Example walk_scenario :
  WalkDir unix.Join scan_fn (example.fs_of example.tree_a) "/tmp/a"
  = (example.paths_a, None).
Proof. reflexivity. Qed.

Example startup_scenario :
  startup unix.Join example.world_a = Started example.state_a.
Proof. reflexivity. Qed.

(** The scenario of the specification, the goroutines taking turns: the
    CSV of the specification, exit code 0, two files counted. *)
Example run_scenario :
  let s := snd (run (example.round_robin 10) example.state_a) in
  pc s = Exited 0 /\
  content (bufio.wr (writer s))
  = "file_path,path_length" +++ LF
    +++ "/tmp/a/x.txt,12" +++ LF
    +++ "/tmp/a/b/y.txt,14" +++ LF /\
  fileCount s = 2%Z /\ stderr s = EmptyString.
Proof. repeat split. Qed.

(** The events of that run. *)
Example run_scenario_events :
  fst (run (example.round_robin 10) example.state_a)
  = [Send "/tmp/a/x.txt"; Recv "/tmp/a/x.txt"; Observed 0;
     Send "/tmp/a/b/y.txt"; Recv "/tmp/a/b/y.txt"; Observed 0;
     Return None; Observed 0; Close; EndOfStream; Observed 0;
     Flushed [["/tmp/a/x.txt"; "12"]; ["/tmp/a/b/y.txt"; "14"]];
     Added 2; Observed 2; Stop; Exit 0].
Proof. reflexivity. Qed.

Example chunks_example :
  chunks 2 [["a"]; ["b"]; ["c"]; ["d"]; ["e"]]
  = [[["a"]; ["b"]]; [["c"]; ["d"]]; [["e"]]].
Proof. reflexivity. Qed.

(** * The claims on the example runs *)

(** The scenario of the specification: two files, batch size 100. *)
Lemma C1_witness :
  (exists tr s, reaches example.state_a tr s /\ pc s = Exited 0) /\
  (forall tr s,
     reaches example.state_a tr s -> exited s = true ->
     pc s = Exited 0 /\
     sent tr = non_dirs unix.Join "/tmp/a" example.tree_a /\
     content (bufio.wr (writer s))
     = csv.encode_all
         (header :: map record_of (non_dirs unix.Join "/tmp/a" example.tree_a)) /\
     length (map record_of (non_dirs unix.Join "/tmp/a" example.tree_a))
     = count_non_dirs example.tree_a /\
     (count_non_dirs example.tree_a = 0 ->
      content (bufio.wr (writer s)) = "file_path,path_length" +++ LF)).
Proof.
  apply (C1_csv_rows_of_a_full_walk unix.Join example.world_a "/tmp/a" ["100"]
           example.tree_a example.state_a); reflexivity.
Defined.

(** The second row of the scenario: [/tmp/a/b/y.txt] with length 14. *)
Lemma C2_witness :
  exists path,
    ["/tmp/a/b/y.txt"; "14"] = [path; Itoa (len path)] /\
    decimal_value (nth 1 ["/tmp/a/b/y.txt"; "14"] EmptyString)
    = Some (Z.of_nat
              (String.length (nth 0 ["/tmp/a/b/y.txt"; "14"] EmptyString))).
Proof.
  apply (C2_path_length_is_length unix.Join example.world_a example.state_a
           (fst (run (example.round_robin 10) example.state_a))
           (snd (run (example.round_robin 10) example.state_a))).
  - reflexivity.
  - apply run_reaches.
  - left. vm_compute. right. left. reflexivity.
Defined.


(** With batch size 1: the first path sent, received, flushed and about to
    be counted. *)
Lemma C4_witness :
  let tr := fst (run [TScanner; TMain; TMain] example.state_one) in
  let s := snd (run [TScanner; TMain; TMain] example.state_one) in
  fileCount s = (Z.of_nat (length (flushed tr)) - uncounted s)%Z /\
  (0 <= uncounted s)%Z /\
  (uncounted s <> 0%Z ->
   exists fl, flushes tr = fl ++ [batch s] /\
              uncounted s = Z.of_nat (length (batch s))) /\
  (exists more,
     content (bufio.wr (writer s)) = durable (flushed tr) +++ more) /\
  (forall g e s',
     step_of g s = Some (e, s') ->
     fileCount s' = fileCount s \/
     g = TMain /\ e = Added (uncounted s) /\ uncounted s' = 0%Z /\
     fileCount s' = (fileCount s + uncounted s)%Z).
Proof.
  apply (C4_count_follows_flushes unix.Join example.world_one "/tmp/a" ["1"]
           example.state_one).
  - reflexivity.
  - reflexivity.
  - vm_compute. discriminate.
  - apply run_reaches.
Defined.

(** In that state the spinner loads 0 while one record is flushed. *)
Lemma C4_counterexample :
  startup unix.Join example.world_one = Started example.state_one /\
  ~ observations_exact example.state_one.
Proof.
  split; [reflexivity|].
  intros H.
  pose proof (run_reaches [TScanner; TMain; TMain] example.state_one) as R.
  specialize (H _ _ 0%Z
                (snd (run [TSpinner]
                        (snd (run [TScanner; TMain; TMain] example.state_one))))
                R eq_refl).
  vm_compute in H. discriminate H.
Qed.

(** The scenario with batch size 1. *)
Lemma C5_witness :
  (exists tr s, reaches example.state_one tr s /\ exited s = true) /\
  (forall tr s,
     reaches example.state_one tr s ->
     (pc s = AtRange ->
      (Z.of_nat (length (batch s)) < batchSize example.state_one)%Z) /\
     (pc s = AtWriteAll ->
      Z.of_nat (length (batch s)) = batchSize example.state_one) /\
     (ended tr = false ->
      Forall (fun b => Z.of_nat (length b) = batchSize example.state_one)
        (flushes tr)) /\
     Forall
       (fun b => (0 < Z.of_nat (length b) <= batchSize example.state_one)%Z)
       (flushes tr) /\
     (flushed tr <> [] ->
      exists more',
        content (bufio.wr (writer s))
        = csv.encode_all (header :: flushed tr) +++ more')) /\
  (forall tr s,
     reaches example.state_one tr s -> exited s = true ->
     flushes tr
     = chunks (Z.to_nat (batchSize example.state_one))
         (map record_of (received tr)) /\
     concat (flushes tr) = map record_of (received tr) /\
     received tr
     = fst (WalkDir unix.Join scan_fn (files example.world_one) "/tmp/a")).
Proof.
  apply (C5_flushes_cut_into_batches unix.Join example.world_one "/tmp/a" ["1"]
           example.state_one); reflexivity.
Defined.

(** A tree with an unreadable directory between two files: [a.txt] is
    sent, [z.txt] is not. *)
Lemma C6_witness :
  WalkDir unix.Join scan_fn (files example.world_denied) "/tmp/a"
  = (["/tmp/a/a.txt"],
     Some (PathError "open /tmp/a/b: permission denied")) /\
  non_dirs unix.Join "/tmp/a" example.tree_denied
  = ["/tmp/a/a.txt"; "/tmp/a/z.txt"] /\
  exists tr' s',
    reaches example.state_denied ([] ++ tr') s' /\ exited s' = true.
Proof.
  destruct (C6_walk_error_closes_channel unix.Join example.world_denied
              "/tmp/a" [] example.tree_denied example.state_denied
              eq_refl eq_refl eq_refl) as (Hwalk & _ & Hrun).
  split; [exact Hwalk|]. split; [reflexivity|].
  exact (proj1 (proj2 (proj2 (proj2 (proj2 (proj2
           (Hrun [] example.state_denied
              (reaches_start example.state_denied)))))))).
Defined.

(** The tree with the unreadable directory: the row of [a.txt] is in the
    file when the error is reported. *)
Lemma C7_witness :
  (exists tr s, reaches example.state_denied tr s /\ exited s = true) /\
  (let tr := fst (run (example.round_robin 10) example.state_denied) in
   let s := snd (run (example.round_robin 10) example.state_denied) in
   pc s = Exited 1 /\
   stderr s
   = "Error walking directory: open /tmp/a/b: permission denied" +++ LF /\
   content (bufio.wr (writer s))
   = "file_path,path_length" +++ LF +++ "/tmp/a/a.txt,12" +++ LF).
Proof.
  destruct (C7_error_reported_after_drain unix.Join example.world_denied
              "/tmp/a" [] example.state_denied
              (PathError "open /tmp/a/b: permission denied")
              eq_refl eq_refl eq_refl eq_refl) as (Hrun & Hall).
  split; [exact Hrun|].
  destruct (Hall _ _ (run_reaches (example.round_robin 10)
                        example.state_denied)) as (_ & Hend & _).
  destruct (Hend eq_refl) as (Hpc & Herr & _ & _ & Hc & _).
  split; [exact Hpc|]. split; [exact Herr|]. exact Hc.
Defined.

(** A path that does not exist: the old file is untouched. *)
Lemma C8_witness :
  exists msg,
    startup unix.Join example.world_missing = Abort 1 msg (Some "old") /\
    msg <> EmptyString.
Proof.
  apply (C8_validation_before_creation unix.Join example.world_missing).
  right. right. left.
  exists "/tmp/b", [],
    (PathError "stat /tmp/b: no such file or directory").
  split; reflexivity.
Defined.

(** The scenario with batch size 100: two paths received, nothing counted
    before the end of the stream. *)
Lemma C9_witness :
  let tr := fst (run [TScanner; TMain; TScanner; TMain] example.state_a) in
  let s := snd (run [TScanner; TMain; TScanner; TMain] example.state_a) in
  pc s = AtRange /\
  (Z.of_nat (length (received tr)) - fileCount s
   = Z.of_nat (length (batch s)) /\
   Z.of_nat (length (batch s)) < batchSize example.state_a)%Z.
Proof.
  split; [reflexivity|].
  apply (C9_pending_at_loop_head unix.Join example.world_a "/tmp/a" ["100"]
           example.state_a
           (fst (run [TScanner; TMain; TScanner; TMain] example.state_a))
           (snd (run [TScanner; TMain; TScanner; TMain] example.state_a))).
  - reflexivity.
  - reflexivity.
  - vm_compute. discriminate.
  - apply run_reaches.
  - left. reflexivity.
Defined.

(** With batch size 1 the batch holds one record, the batch size, between
    the receipt of a path and the flush. *)
Lemma C9_counterexample :
  startup unix.Join example.world_one = Started example.state_one /\
  ~ pending_below_size example.state_one.
Proof.
  split; [reflexivity|].
  intros H.
  destruct (H _ _ (run_reaches [TScanner; TMain] example.state_one) eq_refl)
    as (_ & Hlt).
  vm_compute in Hlt. discriminate Hlt.
Qed.

(** A link to the tree of the scenario next to a file: the link is one
    path, nothing below it is sent. *)
Lemma C10_witness :
  WalkDir unix.Join scan_fn (example.fs_of example.tree_links) "/tmp/a"
  = (["/tmp/a/l"; "/tmp/a/x.txt"], None) /\
  WalkDir unix.Join scan_fn (example.fs_of (Symlink example.tree_a)) "/tmp/a"
  = (["/tmp/a"], None).
Proof.
  split; [reflexivity|].
  apply (proj1 (proj2 (proj2 (proj2 (C10_symlink_is_a_file unix.Join))))
           (example.fs_of (Symlink example.tree_a)) "/tmp/a" example.tree_a).
  reflexivity.
Defined.

(** * Further properties of the program *)

Lemma str_app_cancel (a b c : string) : a +++ b = a +++ c -> b = c.
Proof. induction a; simpl; intros H; [assumption|injection H; auto]. Qed.

Lemma str_app_same (a b : string) : a +++ b = a -> b = EmptyString.
Proof.
  intros H. apply (str_app_cancel a). now rewrite str_app_nil_r.
Qed.

(** ** The last step of a run *)

Lemma reaches_last (s0 : State) (tr : list Event) (s : State) :
  reaches s0 tr s ->
  (tr = [] /\ s = s0) \/
  exists tr' s1 g e,
    tr = tr' ++ [e] /\ reaches s0 tr' s1 /\ step_of g s1 = Some (e, s).
Proof.
  intros H. destruct H as [|tr s g e s' Hr Hs].
  - now left.
  - right. exists tr, s, g, e. auto.
Qed.

(** After the exit nothing steps. *)
Lemma exited_stuck (s : State) (g : Goroutine) :
  exited s = true -> step_of g s = None.
Proof.
  unfold exited. intros H.
  destruct g; simpl; unfold scanner_step, main_step, spinner_step, exited;
    destruct (pc s); try discriminate; reflexivity.
Qed.


Lemma pc_scanner_step (s : State) (e : Event) (s' : State) :
  scanner_step s = Some (e, s') -> pc s' = pc s /\ is_observed e = false.
Proof.
  intros H. destruct s as [sc se ch cl p bs b w fc sp so sr].
  step_cases H; split; reflexivity.
Qed.

Lemma pc_spinner_step (s : State) (e : Event) (s' : State) :
  spinner_step s = Some (e, s') -> pc s' = pc s /\ is_observed e = true.
Proof.
  intros H. destruct s as [sc se ch cl p bs b w fc sp so sr].
  step_cases H; split; reflexivity.
Qed.

Lemma main_step_work (s : State) (e : Event) (s' : State) :
  main_step s = Some (e, s') -> is_observed e = false.
Proof.
  intros H. destruct s as [sc se ch cl p bs b w fc sp so sr].
  destruct p; step_cases H; reflexivity.
Qed.

Lemma running_before (g : Goroutine) (s : State) (e : Event) (s' : State) :
  step_of g s = Some (e, s') -> exited s = false.
Proof.
  intros H. destruct (exited s) eqn:E; [|reflexivity].
  rewrite (exited_stuck s g E) in H. discriminate.
Qed.

(** The step that ends a run is one of the main goroutine. *)
Lemma exit_step (s0 : State) (tr : list Event) (s : State) :
  exited s0 = false -> reaches s0 tr s -> exited s = true ->
  exists tr' s1 e,
    tr = tr' ++ [e] /\ reaches s0 tr' s1 /\ exited s1 = false /\
    main_step s1 = Some (e, s).
Proof.
  intros H0 Hr Hex.
  destruct (reaches_last _ _ _ Hr) as [(-> & ->)|(tr' & s1 & g & e & -> & Hr' & Hs)].
  - congruence.
  - exists tr', s1, e. split; [reflexivity|]. split; [assumption|].
    pose proof (running_before g s1 e s Hs) as E1.
    split; [assumption|].
    unfold exited in *.
    destruct g; simpl in Hs; [|assumption|].
    + apply pc_scanner_step in Hs as (Hs & _). rewrite Hs in Hex. congruence.
    + apply pc_spinner_step in Hs as (Hs & _). rewrite Hs in Hex. congruence.
Qed.

(** A run is a run up to each of its events. *)
Lemma reaches_prefix (s0 : State) (tr1 tr2 : list Event) (s : State) :
  reaches s0 (tr1 ++ tr2) s ->
  exists s1, reaches s0 tr1 s1 /\ reaches s1 tr2 s.
Proof.
  revert s. induction tr2 as [|e tr2 IH] using rev_ind; intros s Hr.
  - rewrite app_nil_r in Hr. exists s. split; [assumption|constructor].
  - rewrite app_assoc in Hr.
    destruct (reaches_last _ _ _ Hr)
      as [(Hnil & _)|(tr' & s' & g & e' & Heq & Hr' & Hs)].
    + now destruct (tr1 ++ tr2).
    + apply app_inj_tail in Heq as (<- & <-).
      destruct (IH s' Hr') as (s1 & H1 & H2).
      exists s1. split; [assumption|]. now apply (reaches_step s1 tr2 s' g).
Qed.

Lemma Flush_empty (b : bufio.Writer) :
  bufio.err b = None -> bufio.buf b = EmptyString -> bufio.Flush b = (b, None).
Proof.
  intros He Hb. unfold bufio.Flush, bufio.Buffered. now rewrite He, Hb.
Qed.

Lemma take_beyond (n : nat) (s : string) :
  String.length s <= n -> take n s = s.
Proof.
  revert s; induction n as [|n IH]; intros [|c s]; simpl; intros H;
    try reflexivity; try lia.
  f_equal. apply IH. lia.
Qed.

(** The flush of the header alone, by the deferred call of line 54. *)
Lemma Flush_header (room0 : option nat) :
  content (bufio.wr (fst (bufio.Flush (fresh_writer room0))))
  = fitting room0 header_line.
Proof.
  destruct room0 as [r|]; [|reflexivity].
  unfold fitting, bufio.Flush, fresh_writer, bufio.Buffered, File_Write.
  cbn [bufio.err bufio.buf bufio.wr room content].
  change (String.length header_line) with 22.
  change (22 =? 0) with false. cbv iota.
  destruct (Nat.leb_spec 22 r) as [H|H].
  - simpl. symmetry. apply take_beyond. exact H.
  - cbn [is_nil andb]. rewrite andb_false_r. reflexivity.
Qed.

(** ** Work and display *)

Lemma work_app (a b : list Event) : work (a ++ b) = work a ++ work b.
Proof. apply filter_app. Qed.

(** The scanner and the main goroutine take at most [steps_left] steps,
    however the spinner runs in between. *)
Lemma work_bounded (s0 : State) (tr : list Event) (s : State) :
  reaches s0 tr s -> length (work tr) + steps_left s <= steps_left s0.
Proof.
  induction 1 as [|tr s g e s' Hr IH Hs]; [simpl; lia|].
  rewrite work_app, List.length_app. unfold work at 2. simpl.
  destruct g; simpl in Hs.
  - destruct (pc_scanner_step s e s' Hs) as (_ & ->).
    apply scanner_step_left in Hs. simpl. lia.
  - rewrite (main_step_work s e s' Hs).
    apply main_step_left in Hs. simpl. lia.
  - destruct (pc_spinner_step s e s' Hs) as (_ & ->).
    apply spinner_step_left in Hs. simpl. lia.
Qed.

Lemma steps_left_initial (paths : list string) (result : option error)
  (size : Z) (room0 : option nat) :
  steps_left (initial paths result size room0) = 4 * length paths + 8.
Proof.
  unfold steps_left, initial, scanner_left, unsent, main_left.
  cbn [pc scanner pathChan length]. lia.
Qed.

Lemma steps_left_exited (s : State) :
  steps_left s = 0 <-> exited s = true.
Proof.
  unfold steps_left, exited, main_left.
  destruct (pc s); split; intros H; try discriminate H; try reflexivity; lia.
Qed.

Lemma step_nonincreasing (g : Goroutine) (s : State) (e : Event)
  (s' : State) :
  step_of g s = Some (e, s') -> steps_left s' <= steps_left s.
Proof.
  intros H. destruct g; simpl in H.
  - apply scanner_step_left in H. lia.
  - apply main_step_left in H. lia.
  - apply spinner_step_left in H. lia.
Qed.

Lemma run_cons_some (g : Goroutine) (rest : list Goroutine) (s : State)
  (e : Event) (s' : State) :
  step_of g s = Some (e, s') -> snd (run (g :: rest) s) = snd (run rest s').
Proof. intros H. cbn [run]. rewrite H. now destruct (run rest s'). Qed.

Lemma run_cons_none (g : Goroutine) (rest : list Goroutine) (s : State) :
  step_of g s = None -> run (g :: rest) s = run rest s.
Proof. intros H. cbn [run]. now rewrite H. Qed.

Lemma run_nonincreasing (sched : list Goroutine) (s : State) :
  steps_left (snd (run sched s)) <= steps_left s.
Proof.
  revert s. induction sched as [|g sched IH]; intros s; [simpl; lia|].
  destruct (step_of g s) as [[e s']|] eqn:H.
  - rewrite (run_cons_some g sched s e s' H).
    pose proof (step_nonincreasing g s e s' H). specialize (IH s'). lia.
  - rewrite (run_cons_none g sched s H). apply IH.
Qed.

(** A step of the spinner changes the display only. *)
Lemma spinner_step_hidden (s : State) (e : Event) (s' : State) :
  spinner_step s = Some (e, s') ->
  hide_display s' = hide_display s /\ is_observed e = true.
Proof.
  intros H. destruct s as [sc se ch cl p bs b w fc sp so sr].
  step_cases H. split; reflexivity.
Qed.

(** The steps of the other two do not depend on the display. *)
Lemma step_hidden (g : Goroutine) (s1 s2 : State) :
  g <> TSpinner -> hide_display s1 = hide_display s2 ->
  match step_of g s1, step_of g s2 with
  | Some (e1, s1'), Some (e2, s2') =>
      e1 = e2 /\ hide_display s1' = hide_display s2'
  | None, None => True
  | _, _ => False
  end.
Proof.
  intros Hg H.
  destruct s1 as [sc se ch cl p bs b w fc sp1 so1 sr].
  destruct s2 as [sc2 se2 ch2 cl2 p2 bs2 b2 w2 fc2 sp2 so2 sr2].
  unfold hide_display in H. simpl in H.
  injection H as <- <- <- <- <- <- <- <- <- Hsp <-.
  destruct g; [| |congruence]; clear Hg.
  - unfold step_of, scanner_step, exited; simpl.
    destruct p; try exact I;
      destruct sc as [[|path todo] r| |]; try exact I;
      try (destruct (length ch <? chanCap)%nat; try exact I);
      unfold hide_display; simpl; rewrite Hsp; split; reflexivity.
  - unfold step_of, main_step, write_batch, add_count, set_pc; simpl.
    destruct p; try exact I.
    + destruct ch as [|path rest]; [destruct cl; try exact I|];
        unfold hide_display; simpl; rewrite Hsp; split; reflexivity.
    + destruct (csv.WriteAll b w) as [w' [e|]];
        unfold hide_display; simpl; rewrite Hsp; split; reflexivity.
    + unfold hide_display; simpl; rewrite Hsp; split; reflexivity.
    + destruct (0 <? Z.of_nat (length b))%Z;
        [destruct (csv.WriteAll b w) as [w' [e|]]|];
        unfold hide_display; simpl; rewrite Hsp; split; reflexivity.
    + unfold hide_display; simpl; rewrite Hsp; split; reflexivity.
    + destruct sp1, sp2; try discriminate Hsp; try exact I.
      split; reflexivity.
    + destruct se; unfold hide_display; simpl; rewrite Hsp; split; reflexivity.
Qed.

Lemma run_hidden (sched : list Goroutine) (s1 s2 : State) :
  hide_display s1 = hide_display s2 ->
  hide_display (snd (run sched s1))
  = hide_display (snd (run (without_spinner sched) s2)) /\
  work (fst (run sched s1)) = fst (run (without_spinner sched) s2).
Proof.
  revert s1 s2. induction sched as [|g sched IH]; intros s1 s2 H.
  - split; [exact H|reflexivity].
  - destruct g.
    + pose proof (step_hidden TScanner s1 s2 ltac:(discriminate) H) as Hs.
      pose proof (pc_scanner_step s1) as Hw.
      cbn [without_spinner filter run]. fold (without_spinner sched).
      cbn [step_of] in *.
      destruct (scanner_step s1) as [[e1 s1']|], (scanner_step s2) as [[e2 s2']|];
        try contradiction.
      * destruct Hs as (<- & Hs). destruct (Hw e1 s1' eq_refl) as (_ & He).
        destruct (IH s1' s2' Hs) as (IH1 & IH2).
        destruct (run sched s1') as [t1 r1], (run (without_spinner sched) s2') as [t2 r2].
        simpl in *. unfold work. simpl. rewrite He. simpl.
        split; [assumption|]. f_equal. exact IH2.
      * now apply IH.
    + pose proof (step_hidden TMain s1 s2 ltac:(discriminate) H) as Hs.
      pose proof (main_step_work s1) as Hw.
      cbn [without_spinner filter run]. fold (without_spinner sched).
      cbn [step_of] in *.
      destruct (main_step s1) as [[e1 s1']|], (main_step s2) as [[e2 s2']|];
        try contradiction.
      * destruct Hs as (<- & Hs). pose proof (Hw e1 s1' eq_refl) as He.
        destruct (IH s1' s2' Hs) as (IH1 & IH2).
        destruct (run sched s1') as [t1 r1], (run (without_spinner sched) s2') as [t2 r2].
        simpl in *. unfold work. simpl. rewrite He. simpl.
        split; [assumption|]. f_equal. exact IH2.
      * now apply IH.
    + cbn [without_spinner filter run]. fold (without_spinner sched).
      cbn [step_of].
      destruct (spinner_step s1) as [[e1 s1']|] eqn:Hs.
      * destruct (spinner_step_hidden s1 e1 s1' Hs) as (Hh & He).
        destruct (IH s1' s2 (eq_trans Hh H)) as (IH1 & IH2).
        destruct (run sched s1') as [t1 r1].
        simpl in *. unfold work. simpl. rewrite He. simpl.
        split; assumption.
      * now apply IH.
Qed.

Lemma frames_snoc (counts : list Z) (i : nat) (c : Z) :
  frames i (counts ++ [c])
  = frames i counts +++ frame (i + length counts) c.
Proof.
  revert i. induction counts as [|a l IH]; intros i; simpl (_ ++ [c]);
    cbn [frames List.length].
  - now rewrite Nat.add_0_r, str_app_nil_r.
  - rewrite IH, str_app_assoc. do 3 f_equal. lia.
Qed.

(** No step takes from the sum of the adds. *)
Lemma step_counts (g : Goroutine) (s : State) (e : Event) (s' : State) :
  step_of g s = Some (e, s') -> (0 <= counted [e])%Z.
Proof.
  intros H. destruct s as [sc se ch cl p bs b w fc sp so sr].
  destruct g; simpl in H; [|destruct p|]; step_cases H; simpl; lia.
Qed.

Lemma in_loop_length (size : Z) (fl : list (list (list string))) :
  in_loop size fl ->
  Z.of_nat (length (concat fl)) = (Z.of_nat (length fl) * size)%Z.
Proof.
  induction 1 as [|b fl Hb _ IH]; [reflexivity|].
  cbn [concat length]. rewrite List.length_app. unfold full in Hb. lia.
Qed.

Lemma sorted_snoc (l : list Z) (c : Z) :
  StronglySorted Z.le l -> Forall (fun a => (a <= c)%Z) l ->
  StronglySorted Z.le (l ++ [c]).
Proof.
  induction 1 as [|a l Hs IH Ha]; intros Hc; simpl.
  - constructor; constructor.
  - inversion Hc as [|? ? Hac Hlc]; subst. constructor; [now apply IH|].
    apply Forall_app. split; [assumption|]. now constructor.
Qed.

(** ** The rows *)

Lemma digits_of_uint (d : Decimal.uint) :
  all_digits (NilEmpty.string_of_uint d) = true.
Proof. induction d; simpl; auto. Qed.

Lemma Itoa_digits (z : Z) :
  (0 <= z)%Z -> all_digits (Itoa z) = true /\ Itoa z <> EmptyString.
Proof.
  intros Hz. unfold Itoa. destruct z as [|p|p]; [now split| |lia].
  cbn [Z.to_int NilZero.string_of_int]. unfold NilZero.string_of_uint.
  pose proof (Unsigned.to_uint_nonnil p) as Hn.
  pose proof (digits_of_uint (Pos.to_uint p)) as Hd.
  destruct (Pos.to_uint p); try contradiction; split; try exact Hd;
    discriminate.
Qed.

Lemma digit_plain (c : ascii) :
  is_digit c = true ->
  byte_is 10 c || byte_is 13 c || byte_is 34 c || Ascii.eqb c csv.Comma
  = false.
Proof.
  destruct c as [[] [] [] [] [] [] [] []]; vm_compute; congruence.
Qed.

Lemma digits_not_special (s : string) :
  all_digits s = true -> csv.has_special s = false.
Proof.
  induction s as [|c r IH]; [reflexivity|].
  cbn [all_digits csv.has_special]. intros H.
  apply andb_true_iff in H as (Hc & Hr).
  now rewrite (digit_plain c Hc), IH.
Qed.

Lemma digit_first (c : ascii) (r : string) :
  is_digit c = true ->
  String.eqb (String c r) (bytes [92; 46]) = false /\
  existsb (fun p => String.prefix p (String c r)) csv.space_runes = false.
Proof.
  destruct c as [[] [] [] [] [] [] [] []]; vm_compute; try congruence;
    intros _; split; reflexivity.
Qed.

(** A decimal numeral is written without quotes. *)
Lemma digits_unquoted (s : string) :
  all_digits s = true -> csv.fieldNeedsQuotes s = false.
Proof.
  intros H. unfold csv.fieldNeedsQuotes.
  destruct s as [|c r]; [reflexivity|].
  cbn [is_empty]. rewrite (digits_not_special _ H).
  cbn [all_digits] in H. apply andb_true_iff in H as (Hc & _).
  destruct (digit_first c r Hc) as (-> & ->). reflexivity.
Qed.

(** ** Numerals *)

Ltac digit_value :=
  match goal with
  | |- context [digit_val ?c] =>
      let v := eval vm_compute in (digit_val c) in
      change (digit_val c) with v
  end; cbv beta iota.

Lemma parse_digits_acc (d : Decimal.uint) (acc : positive) :
  parse_digits (NilEmpty.string_of_uint d) (Z.pos acc)
  = Some (Z.pos (Pos.of_uint_acc d acc)).
Proof.
  revert acc. induction d; intros acc;
    cbn [NilEmpty.string_of_uint parse_digits Pos.of_uint_acc];
    [reflexivity|..]; digit_value; rewrite <- IHd; f_equal; lia.
Qed.

Lemma parse_digits_uint (d : Decimal.uint) :
  parse_digits (NilEmpty.string_of_uint d) 0 = Some (Z.of_N (Pos.of_uint d)).
Proof.
  induction d; cbn [NilEmpty.string_of_uint parse_digits Pos.of_uint];
    [reflexivity|..]; digit_value;
    [exact IHd|..]; cbn [Z.of_N]; rewrite <- parse_digits_acc; reflexivity.
Qed.

Lemma digit_no_sign (c : ascii) :
  is_digit c = true -> byte_is 45 c || byte_is 43 c = false.
Proof.
  destruct c as [[] [] [] [] [] [] [] []]; vm_compute; congruence.
Qed.

(** The numeral of a positive number: digits, the first of them no sign,
    and read back as the number. *)
Lemma numeral_of_positive (p : positive) :
  exists c r,
    NilZero.string_of_uint (Pos.to_uint p) = String c r /\
    is_digit c = true /\
    parse_digits (String c r) 0 = Some (Z.pos p).
Proof.
  pose proof (Unsigned.to_uint_nonnil p) as Hn.
  pose proof (digits_of_uint (Pos.to_uint p)) as Hd.
  pose proof (parse_digits_uint (Pos.to_uint p)) as Hp.
  rewrite Unsigned.of_to in Hp. cbn [Z.of_N] in Hp.
  unfold NilZero.string_of_uint.
  destruct (Pos.to_uint p) eqn:E; try contradiction;
    cbn [NilEmpty.string_of_uint] in *;
    eexists _, _; (split; [reflexivity|]);
    (split; [apply andb_true_iff in Hd as (Hd & _); exact Hd|exact Hp]).
Qed.

(** [Atoi] reads back what [Itoa] prints. *)
Lemma Atoi_Itoa (z : Z) :
  (min_int64 <= z <= max_int64)%Z -> Atoi (Itoa z) = Some z.
Proof.
  intros Hz. unfold Itoa. destruct z as [|p|p].
  - reflexivity.
  - cbn [Z.to_int NilZero.string_of_int].
    destruct (numeral_of_positive p) as (c & r & -> & Hc & Hp).
    unfold Atoi. apply digit_no_sign in Hc.
    apply orb_false_iff in Hc as (Hneg & Hplus).
    rewrite Hneg, Hplus. cbn [orb is_empty]. rewrite Hp.
    replace ((min_int64 <=? Z.pos p)%Z && (Z.pos p <=? max_int64)%Z)
      with true; [reflexivity|].
    symmetry. apply andb_true_iff. split; apply Z.leb_le; lia.
  - cbn [Z.to_int NilZero.string_of_int].
    destruct (numeral_of_positive p) as (c & r & -> & Hc & Hp).
    unfold Atoi. change (byte_is 45 "-") with true. cbn [orb is_empty].
    rewrite Hp.
    replace ((min_int64 <=? - Z.pos p)%Z && (- Z.pos p <=? max_int64)%Z)
      with true; [reflexivity|].
    symmetry. apply andb_true_iff. split; apply Z.leb_le; lia.
Qed.

Section ExtraFacts.

Variable paths : list string.
Variable result : option error.
Variable size : Z.
Variable room0 : option nat.
Hypothesis size_pos : (0 < size)%Z.

Abbreviation Inv' := (Inv paths result size room0).
Abbreviation initial' := (initial paths result size room0).

(** While the program runs the buffer is empty between two calls of
    [WriteAll], but for the header before the first of them. *)
Lemma writer_running (tr : list Event) (s : State) :
  Inv' tr s -> exited s = false ->
  bufio.err (writer s) = None /\
  content (bufio.wr (writer s)) = durable (flushed tr) /\
  bufio.buf (writer s)
  = match flushed tr with [] => header_line | _ => EmptyString end.
Proof.
  intros HI Hex.
  destruct (inv_writer _ _ _ _ _ _ HI) as (_ & Hlive & _).
  destruct (Hlive Hex) as (He & Hs & Hc).
  split; [assumption|]. split; [assumption|].
  unfold stream in Hs. rewrite Hc in Hs.
  destruct (flushed tr) as [|r f].
  - exact Hs.
  - apply (str_app_same _ _ Hs).
Qed.

(** Before the first flush nothing has touched the writer. *)
Lemma writer_fresh (tr : list Event) (s : State) :
  reaches initial' tr s -> exited s = false -> flushed tr = [] ->
  writer s = fresh_writer room0.
Proof.
  induction 1 as [|tr s g e s' Hr IH Hs]; intros Hex Hf.
  - reflexivity.
  - pose proof (Inv_reaches paths result size room0 size_pos tr s Hr) as HI.
    rewrite flushed_app in Hf. apply app_eq_nil in Hf as (Hf1 & Hf2).
    rewrite <- (IH (running_before g s e s' Hs) Hf1).
    rewrite flushed_one in Hf2.
    pose proof (inv_main _ _ _ _ _ _ HI) as Hm.
    clear IH Hr HI.
    destruct s as [sc se ch cl p bs b w fc sp so sr].
    unfold main_ok, blen in Hm. cbn [pc batch] in Hm.
    destruct g; simpl in Hs; [|destruct p|]; step_cases Hs;
      try reflexivity; try discriminate Hex; subst; simpl in *; lia.
Qed.

(** A failed [WriteAll] ends the run at once. *)
Lemma write_failure (tr : list Event) (s : State) :
  reaches initial' tr s -> write_failed tr = true ->
  room0 <> None /\ pc s = Exited 1 /\
  exists tr' e,
    tr = tr' ++ [WriteFailed (batch s)] /\ write_failed tr' = false /\
    batch s <> [] /\
    stderr s = write_error (if ended tr then "final batch" else "batch") e /\
    map record_of (received tr) = flushed tr ++ batch s /\
    fileCount s = wrap64 (Z.of_nat (length (flushed tr))) /\
    exists more,
      content (bufio.wr (writer s)) = durable (flushed tr) +++ more.
Proof.
  intros Hr Hwf.
  pose proof (Inv_reaches paths result size room0 size_pos tr s Hr) as HI.
  assert (Hex : exited s = true).
  { destruct (exited s) eqn:E; [reflexivity|].
    destruct (inv_quiet _ _ _ _ _ _ HI E) as (_ & H). congruence. }
  split.
  { intros R. destruct (inv_writer _ _ _ _ _ _ HI) as (_ & _ & Hrel).
    destruct (Hrel R) as (Hn & _). congruence. }
  destruct (inv_writer _ _ _ _ _ _ HI) as (Hfile & _).
  destruct (exit_step initial' tr s eq_refl Hr Hex)
    as (tr' & s1 & e & -> & Hr' & E1 & Hs).
  pose proof (Inv_reaches paths result size room0 size_pos tr' s1 Hr') as HI'.
  destruct (inv_quiet _ _ _ _ _ _ HI' E1) as (Herr & Hnf).
  pose proof (inv_main _ _ _ _ _ _ HI') as Hm.
  pose proof (inv_count _ _ _ _ _ _ HI') as Hc.
  clear HI HI' Hr Hr' Hex.
  rewrite write_failed_app, Hnf in Hwf. simpl in Hwf.
  revert Hfile. norm_trace. intros Hfile.
  destruct s1 as [sc se ch cl p bs b w fc sp so sr].
  open_inv. destruct p; step_cases Hs; try discriminate Hwf;
    cbn [pc batch stderr fileCount writer] in *.
  - (* a full batch *)
    split; [reflexivity|]. exists tr', e0. norm_trace.
    rewrite ?app_nil_r in Hfile.
    destruct Hm as (Hrows & Hlen & Hcount & _ & Hend).
    rewrite Hend. cbn [orb]. rewrite Herr, Hc, Hcount.
    repeat split; auto.
    apply nonempty_of_length. lia.
  - (* the last batch *)
    split; [reflexivity|]. exists tr', e0. norm_trace.
    rewrite ?app_nil_r in Hfile.
    destruct Hm as (Hrows & Hlen & Hcount & _ & Hend & _).
    rewrite Hend. cbn [orb]. rewrite Herr, Hc, Hcount.
    repeat split; auto.
    apply nonempty_of_length. now apply Z.ltb_lt.
Qed.

(** The end of a run in which no [WriteAll] failed, on any device. *)
Lemma exit_any_device (tr : list Event) (s : State) :
  reaches initial' tr s -> exited s = true -> write_failed tr = false ->
  received tr = paths /\ flushed tr = map record_of paths /\
  pc s = Exited (if is_nil result then 0 else 1)%Z /\
  (paths <> [] ->
   content (bufio.wr (writer s))
   = header_line +++ csv.encode_all (map record_of paths)) /\
  (paths = [] ->
   content (bufio.wr (writer s))
   = if is_nil result then fitting room0 header_line else EmptyString).
Proof.
  intros Hr Hex Hwf.
  destruct (exit_step initial' tr s eq_refl Hr Hex)
    as (tr' & s1 & e & -> & Hr' & E1 & Hs).
  pose proof (Inv_reaches paths result size room0 size_pos tr' s1 Hr') as HI'.
  pose proof (writer_running tr' s1 HI' E1) as (Hwe & Hwc & Hwb).
  pose proof (writer_fresh tr' s1 Hr' E1) as Hfresh.
  pose proof (inv_main _ _ _ _ _ _ HI') as Hm.
  pose proof (inv_channel _ _ _ _ _ _ HI') as (Hch & _).
  pose proof (inv_scanner _ _ _ _ _ _ HI') as Hsc.
  clear HI' Hr Hr'.
  revert Hwf. norm_trace. intros Hwf.
  destruct s1 as [sc se ch cl p bs b w fc sp so sr].
  open_inv. destruct p; step_cases Hs;
    try (rewrite orb_true_r in Hwf; discriminate Hwf);
    cbn [pc batch stderr fileCount writer] in *; try discriminate Hex;
    norm_trace.
  - (* the walk failed *)
    destruct Hm as (Hrows & _ & _ & _ & -> & ->).
    rewrite app_nil_r in Hch.
    assert (Hfin : sent tr' = paths /\ se = result)
      by (destruct sc; split_hyps; try discriminate; split; congruence).
    destruct Hfin as (Hsent & Hres).
    assert (Hrec : received tr' = paths) by congruence.
    rewrite <- Hres, Heqo. cbn [is_nil].
    rewrite <- Hrows, Hrec in *.
    split; [reflexivity|]. split; [reflexivity|]. split; [reflexivity|].
    split.
    + intros Hp. rewrite Hwc. destruct paths; [congruence|reflexivity].
    + intros Hp. rewrite Hp in Hwc. exact Hwc.
  - (* the walk succeeded *)
    destruct Hm as (Hrows & _ & _ & _ & -> & ->).
    rewrite app_nil_r in Hch.
    assert (Hfin : sent tr' = paths /\ se = result)
      by (destruct sc; split_hyps; try discriminate; split; congruence).
    destruct Hfin as (Hsent & Hres).
    assert (Hrec : received tr' = paths) by congruence.
    rewrite <- Hres, Heqo. cbn [is_nil].
    rewrite <- Hrows, Hrec in *.
    split; [reflexivity|]. split; [reflexivity|]. split; [reflexivity|].
    split.
    + intros Hp. rewrite Flush_empty; auto.
      * cbn [fst]. rewrite Hwc. destruct paths; [congruence|reflexivity].
      * destruct paths; [congruence|exact Hwb].
    + intros Hp. rewrite Hp in *. rewrite (Hfresh eq_refl).
      apply Flush_header.
Qed.

(** Who waits, and for what. *)
Lemma blocking (tr : list Event) (s : State) :
  Inv' tr s -> exited s = false ->
  (scanner_step s = None ->
   scanner s = Finished \/ length (pathChan s) = chanCap) /\
  (main_step s = None ->
   pc s = AtRange /\ pathChan s = [] /\ closed s = false).
Proof.
  intros [Hsize Hcount Hquiet Hscan Hchan Hmain Hspin Hwr] Hex.
  destruct s as [sc se ch cl p bs b w fc sp so sr].
  open_inv. split.
  - unfold scanner_step, exited; simpl.
    destruct p; try discriminate Hex;
      destruct sc as [[|path todo] r| |]; try discriminate; auto;
      destruct (Nat.ltb_spec (length ch) chanCap); try discriminate;
      intros _; right; destruct Hchan; lia.
  - unfold main_step, write_batch, add_count, set_pc; simpl.
    destruct p; try discriminate Hex; try discriminate.
    + destruct ch; [destruct cl|]; try discriminate. auto.
    + destruct (0 <? Z.of_nat (length b))%Z; discriminate.
    + destruct Hspin as [i ->]. discriminate.
    + destruct se; discriminate.
Qed.

(** The frames of the spinner and the report of the main goroutine. *)
Lemma display_shape (tr : list Event) (s : State) :
  reaches initial' tr s ->
  (forall i, spinner s = Spinning i -> i = length (observed tr)) /\
  stdout s = frames 0 (observed tr) +++ main_output tr s.
Proof.
  induction 1 as [|tr s g e s' Hr IH Hs].
  - split; [intros i H; now injection H|reflexivity].
  - pose proof (Inv_reaches paths result size room0 size_pos tr s Hr) as HI.
    pose proof (running_before g s e s' Hs) as Hex.
    destruct (inv_quiet _ _ _ _ _ _ HI Hex) as (_ & Hnf).
    destruct IH as (Hi & Hout).
    unfold main_output in *. unfold exited in Hex.
    clear HI Hr.
    destruct s as [sc se ch cl p bs b w fc sp so sr].
    cbn [pc stdout spinner fileCount] in *.
    assert (Hso : so = frames 0 (observed tr)).
    { destruct p; try discriminate Hex; now rewrite str_app_nil_r in Hout. }
    clear Hout.
    destruct g; simpl in Hs; [|destruct p|]; step_cases Hs;
      cbn [pc stdout spinner fileCount]; norm_trace;
      try (rewrite Hnf; cbn [orb Z.eqb]);
      try (split; [first [exact Hi | discriminate]|]);
      rewrite ?str_app_nil_r; try exact Hso;
      try (destruct p; try congruence; rewrite ?str_app_nil_r; exact Hso).
    + (* exit 1 *) now rewrite Hso.
    + (* exit 0 *) now rewrite Hso.
    + (* a frame *)
      split.
      * intros j Hj. injection Hj as <-. rewrite List.length_app.
        rewrite (Hi i eq_refl). simpl. lia.
      * destruct p; try congruence;
          rewrite str_app_nil_r, frames_snoc, (Hi i eq_refl), Hso;
          reflexivity.
Qed.

(** The sum of the adds is a number of full batches, or all the paths. *)
Lemma counted_shape (tr : list Event) (s : State) :
  Inv' tr s ->
  (exists k, counted tr = k * size)%Z \/
  counted tr = Z.of_nat (length paths).
Proof.
  intros HI.
  assert (Hall : drained s ->
                 map record_of (received tr) = flushed tr ->
                 counted tr = Z.of_nat (length (flushed tr)) ->
                 counted tr = Z.of_nat (length paths)).
  { intros (Hch & Hcl) Hrows Hc.
    destruct (closed_scanner _ _ _ _ tr s HI Hcl) as (_ & Hsent & _).
    destruct (inv_channel _ _ _ _ _ _ HI) as (Hchan & _).
    rewrite Hch, app_nil_r in Hchan.
    rewrite Hc, <- Hrows, length_map. congruence. }
  pose proof (inv_main _ _ _ _ _ _ HI) as Hm.
  unfold main_ok, blen, flushed in *.
  destruct (pc s).
  - destruct Hm as (_ & _ & Hc & Hin & _). left.
    exists (Z.of_nat (length (flushes tr))). now rewrite Hc, (in_loop_length size _ Hin).
  - destruct Hm as (_ & _ & Hc & Hin & _). left.
    exists (Z.of_nat (length (flushes tr))). now rewrite Hc, (in_loop_length size _ Hin).
  - destruct Hm as (_ & Hlen & Hc & Hin & _). left.
    exists (Z.of_nat (length (flushes tr)) - 1)%Z.
    rewrite (in_loop_length size _ Hin) in Hc. lia.
  - destruct Hm as (_ & _ & Hc & Hin & _). left.
    exists (Z.of_nat (length (flushes tr))). now rewrite Hc, (in_loop_length size _ Hin).
  - destruct Hm as (_ & Hlen & Hc & Hafter & _ & _ & fl & Hfl). left.
    rewrite Hfl in *. rewrite concat_app, List.length_app in Hc.
    cbn [concat] in Hc. rewrite app_nil_r in Hc.
    exists (Z.of_nat (length fl)).
    destruct Hafter as [Hin|(fl' & b' & Heq & Hin & _)].
    + apply Forall_app in Hin as (Hin & _).
      pose proof (in_loop_length size _ Hin). lia.
    + apply app_inj_tail in Heq as (-> & _).
      pose proof (in_loop_length size _ Hin). lia.
  - destruct Hm as (Hrows & Hc & _ & _ & Hd). right. now apply Hall.
  - destruct Hm as (Hrows & Hc & _ & _ & Hd). right. now apply Hall.
  - destruct Hm as [(_ & _ & _ & Hc & Hin)|(_ & Hrows & Hc & _ & _ & Hd & _)].
    + left. exists (Z.of_nat (length (flushes tr))).
      now rewrite Hc, (in_loop_length size _ Hin).
    + right. now apply Hall.
Qed.

(** What the spinner loads, when the counter does not wrap. *)
Lemma observed_counts (tr : list Event) (s : State) :
  (Z.of_nat (length paths) <= max_int64)%Z ->
  reaches initial' tr s ->
  StronglySorted Z.le (observed tr) /\
  Forall (fun c => (0 <= c <= counted tr)%Z /\
                   ((exists k, c = k * size)%Z \/
                    c = Z.of_nat (length paths)))
    (observed tr).
Proof.
  intros Hmax. induction 1 as [|tr s g e s' Hr IH Hs].
  - split; constructor.
  - pose proof (Inv_reaches paths result size room0 size_pos tr s Hr) as HI.
    destruct IH as (Hsorted & Hall).
    pose proof (step_counts g s e s' Hs) as Hpos.
    assert (Hmono : Forall (fun c => (0 <= c <= counted (tr ++ [e]))%Z /\
                     ((exists k, c = k * size)%Z \/
                      c = Z.of_nat (length paths))) (observed tr)).
    { rewrite counted_app. eapply Forall_impl; [|exact Hall].
      cbv beta. intros c (Hc & Hshape). split; [lia|assumption]. }
    rewrite observed_app.
    destruct g; simpl in Hs.
    + destruct (pc_scanner_step s e s' Hs) as (_ & He).
      destruct e; try discriminate He; simpl; rewrite app_nil_r; auto.
    + pose proof (main_step_work s e s' Hs) as He.
      destruct e; try discriminate He; simpl; rewrite app_nil_r; auto.
    + pose proof (fileCount_exact _ _ _ _ tr s Hmax HI) as Hfc.
      destruct (counted_flushed _ _ _ _ tr s HI) as (Hcf & Hc0).
      pose proof (counted_shape tr s HI) as Hshape.
      assert (Hval : e = Observed (counted tr)).
      { rewrite Hcf, <- Hfc. clear - Hs.
        destruct s as [sc se ch cl p bs b w fc sp so sr].
        step_cases Hs. reflexivity. }
      subst e. simpl. split.
      * apply sorted_snoc; [assumption|].
        eapply Forall_impl; [|exact Hall]. cbv beta. intros c (Hc & _). lia.
      * apply Forall_app. split; [assumption|].
        constructor; [|constructor]. rewrite counted_app. simpl.
        split; [lia|assumption].
Qed.

(** The successful end. *)
Lemma exit_zero (tr : list Event) (s : State) :
  reaches initial' tr s -> pc s = Exited 0 ->
  write_failed tr = false /\ spinner s = Stopped /\
  fileCount s = wrap64 (Z.of_nat (length paths)).
Proof.
  intros Hr Hpc.
  assert (Hex : exited s = true) by (unfold exited; now rewrite Hpc).
  pose proof (Inv_reaches paths result size room0 size_pos tr s Hr) as HI.
  pose proof (inv_main _ _ _ _ _ _ HI) as Hm.
  pose proof (inv_count _ _ _ _ _ _ HI) as Hcount.
  unfold main_ok in Hm. rewrite Hpc in Hm.
  destruct Hm as [(_ & H & _)|(Hnf & _ & Hc & _)]; [discriminate H|].
  destruct (exit_any_device tr s Hr Hex Hnf) as (_ & Hfl & _).
  split; [assumption|]. split.
  - destruct (exit_step initial' tr s eq_refl Hr Hex)
      as (tr' & s1 & e & _ & Hr' & E1 & Hs).
    pose proof (Inv_reaches paths result size room0 size_pos tr' s1 Hr') as HI'.
    pose proof (inv_spinner _ _ _ _ _ _ HI') as Hsp.
    clear - Hs Hsp Hpc.
    destruct s1 as [sc se ch cl p bs b w fc sp so sr].
    unfold spinner_ok in Hsp. cbn [pc spinner] in Hsp.
    destruct p; step_cases Hs; cbn [pc spinner] in *;
      try discriminate Hpc; assumption.
  - now rewrite Hcount, Hc, Hfl, length_map.
Qed.

(** A round in which each goroutine gets its turn brings the exit
    nearer. *)
Lemma round_decreases (tr : list Event) (s : State) :
  Inv' tr s -> exited s = false ->
  steps_left (snd (run [TScanner; TMain; TSpinner; TMain] s)) < steps_left s.
Proof.
  intros HI Hex.
  destruct (scanner_step s) as [[e1 s1]|] eqn:H1.
  - rewrite (run_cons_some TScanner _ s e1 s1 H1).
    pose proof (run_nonincreasing [TMain; TSpinner; TMain] s1).
    apply scanner_step_left in H1. lia.
  - rewrite (run_cons_none TScanner _ s H1).
    destruct (progress _ _ _ _ tr s HI Hex) as [(e & s' & H)|(e & s' & H)];
      [congruence|].
    rewrite (run_cons_some TMain _ s e s' H).
    pose proof (run_nonincreasing [TSpinner; TMain] s').
    apply main_step_left in H. lia.
Qed.

Lemma round_robin_exits (n : nat) (tr : list Event) (s : State) :
  reaches initial' tr s -> steps_left s <= n ->
  exited (snd (run (example.round_robin n) s)) = true.
Proof.
  revert tr s. induction n as [|n IH]; intros tr s Hr Hn.
  - apply steps_left_exited. simpl. lia.
  - change (example.round_robin (S n))
      with ([TScanner; TMain; TSpinner; TMain] ++ example.round_robin n).
    pose proof (run_app [TScanner; TMain; TSpinner; TMain]
                  (example.round_robin n) s) as Happ.
    pose proof (run_reaches [TScanner; TMain; TSpinner; TMain] s) as Hrun.
    pose proof (run_nonincreasing [TScanner; TMain; TSpinner; TMain] s) as Hle.
    pose proof (round_decreases tr s
                  (Inv_reaches paths result size room0 size_pos tr s Hr))
      as Hlt.
    destruct (run [TScanner; TMain; TSpinner; TMain] s) as [tr1 s1].
    specialize (IH (tr ++ tr1) s1).
    destruct (run (example.round_robin n) s1) as [tr2 s2].
    rewrite Happ. cbn [fst snd] in *. apply IH.
    + now apply (reaches_trans _ tr s).
    + destruct (exited s) eqn:Hex.
      * apply steps_left_exited in Hex. lia.
      * specialize (Hlt eq_refl). lia.
Qed.

(** What one load of the spinner returns. *)
Lemma observed_then (tr1 : list Event) (c : Z) (tr2 : list Event)
  (s : State) :
  (Z.of_nat (length paths) <= max_int64)%Z ->
  reaches initial' (tr1 ++ Observed c :: tr2) s ->
  (0 <= c <= Z.of_nat (length (flushed tr1)))%Z.
Proof.
  intros Hmax Hr.
  change (tr1 ++ Observed c :: tr2) with (tr1 ++ [Observed c] ++ tr2) in Hr.
  rewrite app_assoc in Hr.
  destruct (reaches_prefix _ _ _ _ Hr) as (s1 & Hr1 & _).
  destruct (reaches_last _ _ _ Hr1)
    as [(Hnil & _)|(tr' & s' & g & e & Heq & Hr' & Hs)].
  { now destruct tr1. }
  apply app_inj_tail in Heq as (<- & <-).
  pose proof (Inv_reaches paths result size room0 size_pos tr1 s' Hr') as HI.
  pose proof (fileCount_exact _ _ _ _ tr1 s' Hmax HI) as Hfc.
  destruct (counted_flushed _ _ _ _ tr1 s' HI) as (Hcf & Hc0).
  assert (0 <= uncounted s')%Z by (unfold uncounted; destruct (pc s'); lia).
  assert (Hval : c = fileCount s').
  { clear - Hs. destruct g; simpl in Hs.
    - now destruct (pc_scanner_step s' _ _ Hs).
    - pose proof (main_step_work s' _ _ Hs). discriminate.
    - destruct s' as [sc se ch cl p bs b w fc sp so sr].
      step_cases Hs. reflexivity. }
  lia.
Qed.

End ExtraFacts.

Section ProgramFacts.

Variable Join : string -> string -> string.

(** X1. Whenever [main] ends before the goroutines start, the exit code is
    1, [file_paths.csv] is as it was before the run, and standard error
    names the cause, the first of: no argument; a batch size that is no
    positive integer; a path [os.Stat] fails on; a path that is no
    directory; a file that [os.Create] cannot create.  There is no other:
    the branch for a failed header write (lines 56 to 59) is never taken,
    since the header only goes into the buffer. *)
Theorem X1_abort_leaves_file (w : World) (code : Z) (msg : string)
  (csv : option string) :
  startup Join w = Abort code msg csv ->
  code = 1%Z /\ csv = csv_before w /\
  ((argv w = [] /\
    msg = "Usage: " +++ argv0 w +++ " <directory> [batch_size]" +++ LF) \/
   (exists dirPath arg rest,
      argv w = dirPath :: arg :: rest /\
      (Atoi arg = None \/ exists z, Atoi arg = Some z /\ (z <= 0)%Z) /\
      msg = "Error: batch_size must be a positive integer" +++ LF) \/
   (exists dirPath more e,
      argv w = dirPath :: more /\ os_Stat (files w) dirPath = inr e /\
      msg = "Error accessing path: " +++ Error e +++ LF) \/
   (exists dirPath more m,
      argv w = dirPath :: more /\ os_Stat (files w) dirPath = inl m /\
      IsDir m = false /\
      msg = "Error: " +++ dirPath +++ " is not a directory" +++ LF) \/
   (exists dirPath more m,
      argv w = dirPath :: more /\ os_Stat (files w) dirPath = inl ModeDir /\
      create_err w = Some m /\
      msg = "Error creating CSV file: " +++ m +++ LF)).
Proof.
  unfold startup.
  destruct (argv w) as [|dirPath more].
  { intros H. injection H as <- <- <-. split; [reflexivity|].
    split; [reflexivity|]. left. now split. }
  destruct more as [|arg rest].
  - destruct (os_Stat (files w) dirPath) as [info|e] eqn:Hstat.
    2:{ intros H. injection H as <- <- <-. split; [reflexivity|].
        split; [reflexivity|]. right. right. left.
        exists dirPath, [], e. auto. }
    destruct info; cbn [IsDir negb].
    1,2: intros H; injection H as <- <- <-; split; [reflexivity|];
      split; [reflexivity|]; right; right; right; left;
      eexists dirPath, [], _; (split; [reflexivity|]);
      (split; [exact Hstat|]); split; reflexivity.
    destruct (create_err w) as [m|].
    { intros H. injection H as <- <- <-. split; [reflexivity|].
      split; [reflexivity|]. right. right. right. right.
      exists dirPath, [], m. auto. }
    rewrite csv_facts.Write_header.
    destruct (WalkDir Join scan_fn (files w) dirPath). discriminate.
  - destruct (Atoi arg) as [z|] eqn:Hz.
    2:{ intros H. injection H as <- <- <-. split; [reflexivity|].
        split; [reflexivity|]. right. left. exists dirPath, arg, rest. auto. }
    destruct (Z.leb_spec z 0) as [Hle|Hgt].
    { intros H. injection H as <- <- <-. split; [reflexivity|].
      split; [reflexivity|]. right. left. exists dirPath, arg, rest.
      split; [reflexivity|]. split; [|reflexivity]. right. exists z. auto. }
    destruct (os_Stat (files w) dirPath) as [info|e] eqn:Hstat.
    2:{ intros H. injection H as <- <- <-. split; [reflexivity|].
        split; [reflexivity|]. right. right. left.
        exists dirPath, (arg :: rest), e. auto. }
    destruct info; cbn [IsDir negb].
    1,2: intros H; injection H as <- <- <-; split; [reflexivity|];
      split; [reflexivity|]; right; right; right; left;
      eexists dirPath, (arg :: rest), _; (split; [reflexivity|]);
      (split; [exact Hstat|]); split; reflexivity.
    destruct (create_err w) as [m|].
    { intros H. injection H as <- <- <-. split; [reflexivity|].
      split; [reflexivity|]. right. right. right. right.
      exists dirPath, (arg :: rest), m. auto. }
    rewrite csv_facts.Write_header.
    destruct (WalkDir Join scan_fn (files w) dirPath). discriminate.
Qed.

(** X2. A failed [WriteAll] is the last thing a run does: the program
    exits with code 1 at once, standard error carries a line feed and
    [Error writing batch: ...] (or [final batch] after the end of the
    stream), the batch that failed is not counted, and the batches flushed
    before stay in the file.  It happens only on a device with limited
    room. *)
Theorem X2_write_failure_ends_the_run (w : World) (s0 : State)
  (tr : list Event) (s : State) :
  startup Join w = Started s0 -> reaches s0 tr s -> write_failed tr = true ->
  disk_room w <> None /\ pc s = Exited 1 /\
  (forall g, step_of g s = None) /\
  exists tr' e,
    tr = tr' ++ [WriteFailed (batch s)] /\ write_failed tr' = false /\
    batch s <> [] /\
    stderr s = write_error (if ended tr then "final batch" else "batch") e /\
    map record_of (received tr) = flushed tr ++ batch s /\
    fileCount s = wrap64 (Z.of_nat (length (flushed tr))) /\
    exists more,
      content (bufio.wr (writer s)) = durable (flushed tr) +++ more.
Proof.
  intros Hs Hr Hwf.
  destruct (startup_started Join w s0 Hs)
    as (dirPath & more & size & _ & Hpos & _ & _ & _ & _ & ->).
  destruct (write_failure _ _ size _ Hpos tr s Hr Hwf) as (Hroom & Hpc & H).
  split; [assumption|]. split; [assumption|]. split; [|exact H].
  intros g. apply exited_stuck. unfold exited. now rewrite Hpc.
Qed.

(** X3. While the program runs the file holds nothing before the first
    successful [WriteAll], not even the header, which waits in the buffer
    of the writer; after it the file is the header and the rows flushed so
    far, and nothing is left in the buffer between two calls. *)
Theorem X3_file_between_flushes (w : World) (s0 : State)
  (tr : list Event) (s : State) :
  startup Join w = Started s0 -> reaches s0 tr s -> exited s = false ->
  bufio.err (writer s) = None /\
  (flushed tr = [] -> writer s = fresh_writer (disk_room w)) /\
  (flushed tr <> [] ->
   content (bufio.wr (writer s)) = header_line +++ csv.encode_all (flushed tr) /\
   bufio.buf (writer s) = EmptyString).
Proof.
  intros Hs Hr Hex.
  destruct (startup_started Join w s0 Hs)
    as (dirPath & more & size & _ & Hpos & _ & _ & _ & _ & ->).
  pose proof (Inv_reaches _ _ size _ Hpos tr s Hr) as HI.
  destruct (writer_running _ _ _ _ tr s HI Hex) as (He & Hc & Hb).
  split; [assumption|]. split.
  - now apply (writer_fresh _ _ size _ Hpos tr s Hr).
  - intros Hf. destruct (flushed tr); [congruence|]. now split.
Qed.

(** X4. The end of a run in which no [WriteAll] failed, on any device:
    every path the walk sent has been received and flushed, the exit code
    is 0 exactly when the walk returned nil, and if the walk sent a path
    the file is the header and the rows of all of them.  If it sent none,
    the file is empty after a failed walk (the exit skips the deferred
    flush) and after a successful one it holds what the device took of the
    header: the error of the deferred flush is dropped and the exit code
    is 0 all the same. *)
Theorem X4_exit_on_any_device (w : World) (dirPath : string)
  (more : list string) (s0 : State) (tr : list Event) (s : State) :
  startup Join w = Started s0 -> argv w = dirPath :: more ->
  reaches s0 tr s -> exited s = true -> write_failed tr = false ->
  let paths := fst (WalkDir Join scan_fn (files w) dirPath) in
  let result := snd (WalkDir Join scan_fn (files w) dirPath) in
  received tr = paths /\ flushed tr = map record_of paths /\
  pc s = Exited (if is_nil result then 0 else 1)%Z /\
  (paths <> [] ->
   content (bufio.wr (writer s))
   = header_line +++ csv.encode_all (map record_of paths)) /\
  (paths = [] ->
   content (bufio.wr (writer s))
   = if is_nil result then fitting (disk_room w) header_line
     else EmptyString).
Proof.
  intros Hs Ha Hr Hex Hwf.
  destruct (startup_started Join w s0 Hs)
    as (dirPath' & more' & size & Ha' & Hpos & _ & _ & _ & _ & ->).
  rewrite Ha in Ha'. injection Ha' as <- <-.
  exact (exit_any_device _ _ size _ Hpos tr s Hr Hex Hwf).
Qed.

(** X5. The channel hands the paths on in the order sent and loses none:
    the paths sent are those received followed by those buffered, of which
    there are never more than 1000.  While the program runs, the scanner
    waits only at a full channel and the main goroutine only at the range
    over an empty channel that is still open; in particular the send on
    [done] of line 134 always finds the spinner. *)
Theorem X5_channel_and_waiting (w : World) (s0 : State)
  (tr : list Event) (s : State) :
  startup Join w = Started s0 -> reaches s0 tr s ->
  sent tr = received tr ++ pathChan s /\
  length (pathChan s) <= 1000 /\
  (exited s = false ->
   (scanner_step s = None ->
    scanner s <> Finished -> length (pathChan s) = 1000) /\
   (main_step s = None ->
    pc s = AtRange /\ pathChan s = [] /\ closed s = false)).
Proof.
  intros Hs Hr.
  destruct (startup_started Join w s0 Hs)
    as (dirPath & more & size & _ & Hpos & _ & _ & _ & _ & ->).
  pose proof (Inv_reaches _ _ size _ Hpos tr s Hr) as HI.
  destruct (inv_channel _ _ _ _ _ _ HI) as (Hch & Hcap).
  split; [assumption|]. split; [assumption|].
  intros Hex. destruct (blocking _ _ _ _ tr s HI Hex) as (Hsc & Hm).
  split; [|assumption].
  intros Hn Hf. destruct (Hsc Hn); [contradiction|assumption].
Qed.

(** X6. In a run over a walk of [n] paths the scanner and the main
    goroutine take at most [4 n + 8] steps together, however often the
    spinner runs in between; [steps_left] bounds the steps that remain
    and is 0 exactly at the exit. *)
Theorem X6_work_is_bounded (w : World) (dirPath : string)
  (more : list string) (s0 : State) (tr : list Event) (s : State) :
  startup Join w = Started s0 -> argv w = dirPath :: more ->
  reaches s0 tr s ->
  length (work tr) + steps_left s
  <= 4 * length (fst (WalkDir Join scan_fn (files w) dirPath)) + 8 /\
  (steps_left s = 0 <-> exited s = true).
Proof.
  intros Hs Ha Hr.
  destruct (startup_started Join w s0 Hs)
    as (dirPath' & more' & size & Ha' & Hpos & _ & _ & _ & _ & ->).
  rewrite Ha in Ha'. injection Ha' as <- <-.
  split.
  - pose proof (work_bounded _ tr s Hr) as H.
    now rewrite steps_left_initial in H.
  - apply steps_left_exited.
Qed.

(** X7. The spinner goroutine only displays: a schedule and the same
    schedule with every turn of the spinner left out lead from any state
    to states that differ at most in the frame counter and in standard
    output, and to the same events but for the loads of the spinner. *)
Theorem X7_spinner_only_displays (sched : list Goroutine) (s : State) :
  hide_display (snd (run sched s))
  = hide_display (snd (run (without_spinner sched) s)) /\
  work (fst (run sched s)) = fst (run (without_spinner sched) s).
Proof. apply run_hidden. reflexivity. Qed.

(** X8. Standard output is the frames of the spinner and then what the
    main goroutine prints at the end.  The frames are numbered from 0 in
    the order of the loads and each shows the count loaded; nothing else
    is printed while the program runs or when a write failed.  After a
    walk without error the spinner has stopped before the line is cleared,
    and the two final lines report the number of paths walked (as a
    64-bit number). *)
Theorem X8_standard_output (w : World) (dirPath : string)
  (more : list string) (s0 : State) (tr : list Event) (s : State) :
  startup Join w = Started s0 -> argv w = dirPath :: more ->
  reaches s0 tr s ->
  stdout s = frames 0 (observed tr) +++ main_output tr s /\
  (forall i, spinner s = Spinning i -> i = length (observed tr)) /\
  (pc s = Exited 0 ->
   spinner s = Stopped /\
   main_output tr s
   = done_report
       (wrap64 (Z.of_nat
          (length (fst (WalkDir Join scan_fn (files w) dirPath)))))).
Proof.
  intros Hs Ha Hr.
  destruct (startup_started Join w s0 Hs)
    as (dirPath' & more' & size & Ha' & Hpos & _ & _ & _ & _ & ->).
  rewrite Ha in Ha'. injection Ha' as <- <-.
  destruct (display_shape _ _ size _ Hpos tr s Hr) as (Hi & Hout).
  split; [assumption|]. split; [assumption|].
  intros Hpc.
  destruct (exit_zero _ _ size _ Hpos tr s Hr Hpc) as (Hnf & Hsp & Hfc).
  split; [assumption|].
  unfold main_output. now rewrite Hpc, Hnf, Hfc.
Qed.

(** X9. What the spinner shows, for a walk of fewer than [2^63] paths:
    the counts it loads never decrease, each is a multiple of the batch
    size or the number of all paths walked, and none exceeds the number of
    records flushed before the load. *)
Theorem X9_spinner_counts (w : World) (dirPath : string)
  (more : list string) (s0 : State) (tr : list Event) (s : State) :
  startup Join w = Started s0 -> argv w = dirPath :: more ->
  (Z.of_nat (length (fst (WalkDir Join scan_fn (files w) dirPath)))
   <= max_int64)%Z ->
  reaches s0 tr s ->
  StronglySorted Z.le (observed tr) /\
  Forall
    (fun c =>
       (exists k, c = k * batchSize s0)%Z \/
       c = Z.of_nat (length (fst (WalkDir Join scan_fn (files w) dirPath))))
    (observed tr) /\
  (forall tr1 c tr2,
     tr = tr1 ++ Observed c :: tr2 ->
     (0 <= c <= Z.of_nat (length (flushed tr1)))%Z).
Proof.
  intros Hs Ha Hmax Hr.
  destruct (startup_started Join w s0 Hs)
    as (dirPath' & more' & size & Ha' & Hpos & _ & _ & _ & _ & ->).
  rewrite Ha in Ha'. injection Ha' as <- <-.
  destruct (observed_counts _ _ size _ Hpos tr s Hmax Hr) as (Hsorted & Hall).
  split; [assumption|]. split.
  - eapply Forall_impl; [|exact Hall]. cbv beta.
    intros c (_ & Hshape). exact Hshape.
  - intros tr1 c tr2 ->.
    exact (observed_then _ _ size _ Hpos tr1 c tr2 s Hmax Hr).
Qed.

(** X10. A directory argument that is a symbolic link to a directory
    passes the validation, since [os.Stat] follows the link, but
    [WalkDir] does not follow it: the walk sends the link itself and
    nothing below it, and on a device without limit the file ends as the
    header and the one row of the argument, with exit code 0. *)
Theorem X10_link_as_directory_argument (w : World) (dirPath : string)
  (more : list string) (target : node) (s0 : State) :
  startup Join w = Started s0 -> argv w = dirPath :: more ->
  files w dirPath = Found (Symlink target) ->
  resolve target = inl ModeDir /\
  WalkDir Join scan_fn (files w) dirPath = ([dirPath], None) /\
  (disk_room w = None ->
   forall tr s,
     reaches s0 tr s -> exited s = true ->
     pc s = Exited 0 /\
     content (bufio.wr (writer s))
     = header_line +++ csv.encode [dirPath; Itoa (len dirPath)]).
Proof.
  intros Hs Ha Hf.
  destruct (startup_started Join w s0 Hs)
    as (dirPath' & more' & size & Ha' & Hpos & _ & _ & Hstat & _ & ->).
  rewrite Ha in Ha'. injection Ha' as <- <-.
  assert (Hw : WalkDir Join scan_fn (files w) dirPath = ([dirPath], None)).
  { unfold WalkDir, os_Lstat. rewrite Hf. reflexivity. }
  split; [|split; [exact Hw|]].
  - unfold os_Stat in Hstat. now rewrite Hf in Hstat.
  - intros Hroom tr s. rewrite Hw, Hroom. cbn [fst snd]. intros Hr Hex.
    destruct (exit_summary _ _ size _ Hpos tr s Hr Hex eq_refl)
      as (_ & _ & _ & _ & _ & _ & _ & _ & _ & Hpc & _ & Hc).
    split; [assumption|]. rewrite Hc. unfold csv_bytes, csv.encode_all.
    cbn [map concat_str]. unfold record_of.
    now rewrite str_app_nil_r.
Qed.

(** X11. The row of a path (lines 110 to 114): the path, a comma, its
    length in decimal digits and a line feed.  The length is never put in
    quotes; the path is when [fieldNeedsQuotes] says so, and stands as it
    is otherwise. *)
Theorem X11_row_of_a_path (path : string) :
  all_digits (Itoa (len path)) = true /\
  Itoa (len path) <> EmptyString /\
  csv.encode (record_of path)
  = csv.encode_field path +++ "," +++ Itoa (len path) +++ LF /\
  (csv.fieldNeedsQuotes path = false ->
   csv.encode (record_of path) = path +++ "," +++ Itoa (len path) +++ LF).
Proof.
  destruct (Itoa_digits (len path)) as (Hd & Hn); [unfold len; lia|].
  assert (He : csv.encode (record_of path)
               = csv.encode_field path +++ "," +++ Itoa (len path) +++ LF).
  { unfold csv.encode, record_of. cbn [csv.encode_fields].
    unfold csv.encode_field at 2. rewrite (digits_unquoted _ Hd).
    cbn [String.append]. rewrite !str_app_assoc, str_app_nil_r.
    reflexivity. }
  split; [assumption|]. split; [assumption|]. split; [assumption|].
  intros Hq. rewrite He. unfold csv.encode_field. now rewrite Hq.
Qed.

(** X12. Exit code 0 means the walk was complete, on any device: every
    directory of the tree was read, the paths received are all its
    entries that are not directories, in the order of the walk, and if
    there is one the file is the header and the rows of all of them. *)
Theorem X12_exit_zero_means_complete (w : World) (dirPath : string)
  (more : list string) (n : node) (s0 : State) (tr : list Event)
  (s : State) :
  startup Join w = Started s0 -> argv w = dirPath :: more ->
  files w dirPath = Found n ->
  reaches s0 tr s -> pc s = Exited 0 ->
  readable n = true /\
  received tr = non_dirs Join dirPath n /\
  (non_dirs Join dirPath n <> [] ->
   content (bufio.wr (writer s))
   = header_line +++ csv.encode_all (map record_of (non_dirs Join dirPath n))).
Proof.
  intros Hs Ha Hf Hr Hpc.
  destruct (startup_started Join w s0 Hs)
    as (dirPath' & more' & size & Ha' & Hpos & _ & _ & _ & _ & ->).
  rewrite Ha in Ha'. injection Ha' as <- <-.
  assert (Hex : exited s = true) by (unfold exited; now rewrite Hpc).
  destruct (exit_zero _ _ size _ Hpos tr s Hr Hpc) as (Hnf & _).
  destruct (exit_any_device _ _ size _ Hpos tr s Hr Hex Hnf)
    as (Hrec & _ & Hcode & Hc & _).
  rewrite (WalkDir_found Join (files w) dirPath n Hf) in *.
  assert (Hres : snd (until_failure (visits Join dirPath n)) = None).
  { rewrite Hpc in Hcode.
    destruct (snd (until_failure (visits Join dirPath n)));
      [discriminate Hcode|reflexivity]. }
  assert (Hread : readable n = true)
    by (now apply (proj1 (walk_succeeds_iff Join) n dirPath)).
  assert (Hp : fst (until_failure (visits Join dirPath n))
               = non_dirs Join dirPath n).
  { rewrite (proj1 (readable_visits Join) n dirPath Hread).
    now rewrite until_failure_paths. }
  rewrite Hp in *. auto.
Qed.

(** X13. Under the schedule that lets the scanner, the main goroutine,
    the spinner and the main goroutine again run in turn, the program
    exits within [4 n + 8] rounds for a walk of [n] paths, on any device
    and whatever the walk returns. *)
Theorem X13_round_robin_terminates (w : World) (dirPath : string)
  (more : list string) (s0 : State) (rounds : nat) :
  startup Join w = Started s0 -> argv w = dirPath :: more ->
  4 * length (fst (WalkDir Join scan_fn (files w) dirPath)) + 8 <= rounds ->
  exited (snd (run (example.round_robin rounds) s0)) = true.
Proof.
  intros Hs Ha Hn.
  destruct (startup_started Join w s0 Hs)
    as (dirPath' & more' & size & Ha' & Hpos & _ & _ & _ & _ & ->).
  rewrite Ha in Ha'. injection Ha' as <- <-.
  apply (round_robin_exits (fst (WalkDir Join scan_fn (files w) dirPath))
           (snd (WalkDir Join scan_fn (files w) dirPath)) size (disk_room w)
           Hpos rounds []).
  - constructor.
  - now rewrite steps_left_initial.
Qed.

(** X14. A batch size argument that is the decimal numeral of an
    integer [z] (as [strconv.Itoa] prints it) is read back as [z] by
    [strconv.Atoi]: if [z] is not positive the program ends with the batch
    size error before it looks at the path, and a run that starts has
    batch size [z]; arguments after it are ignored. *)
Theorem X14_batch_size_argument (w : World) (dirPath : string)
  (rest : list string) (z : Z) :
  (min_int64 <= z <= max_int64)%Z ->
  argv w = dirPath :: Itoa z :: rest ->
  Atoi (Itoa z) = Some z /\
  ((z <= 0)%Z ->
   startup Join w
   = Abort 1 ("Error: batch_size must be a positive integer" +++ LF)
       (csv_before w)) /\
  (forall s0, startup Join w = Started s0 -> (0 < z)%Z /\ batchSize s0 = z).
Proof.
  intros Hz Ha. pose proof (Atoi_Itoa z Hz) as HA.
  split; [exact HA|]. split.
  - intros Hle. unfold startup. rewrite Ha, HA.
    replace (z <=? 0)%Z with true by (symmetry; apply Z.leb_le; lia).
    reflexivity.
  - intros s0 Hs.
    destruct (startup_started Join w s0 Hs)
      as (dirPath' & more' & size & Ha' & Hpos & _ & Harg & _ & _ & ->).
    rewrite Ha in Ha'. injection Ha' as <- <-.
    specialize (Harg _ _ eq_refl). rewrite HA in Harg.
    injection Harg as <-. split; [exact Hpos|reflexivity].
Qed.

End ProgramFacts.

(** ** The further properties on the example runs *)

(** [os.Create] fails: exit code 1, the old file is as it was. *)
Lemma X1_witness :
  startup unix.Join scenario.world_readonly
  = Abort 1
      ("Error creating CSV file: open file_paths.csv: permission denied"
       +++ LF) (Some "old") /\
  Some "old" = csv_before scenario.world_readonly.
Proof.
  split; [reflexivity|].
  exact (proj1 (proj2
           (X1_abort_leaves_file unix.Join scenario.world_readonly 1
              ("Error creating CSV file: open file_paths.csv: permission denied"
               +++ LF) (Some "old") eq_refl))).
Defined.

(** On a device that takes 30 bytes, with batch size 1: the first
    [WriteAll] carries the header and one row, 38 bytes, and fails. *)
Lemma X2_witness :
  let tr := fst (run [TScanner; TMain; TMain] scenario.state_small_disk) in
  let s := snd (run [TScanner; TMain; TMain] scenario.state_small_disk) in
  disk_room scenario.world_small_disk <> None /\ pc s = Exited 1 /\
  (forall g, step_of g s = None) /\
  exists tr' e,
    tr = tr' ++ [WriteFailed (batch s)] /\ write_failed tr' = false /\
    batch s <> [] /\
    stderr s = write_error (if ended tr then "final batch" else "batch") e /\
    map record_of (received tr) = flushed tr ++ batch s /\
    fileCount s = wrap64 (Z.of_nat (length (flushed tr))) /\
    exists more,
      content (bufio.wr (writer s)) = durable (flushed tr) +++ more.
Proof.
  intros tr s.
  apply (X2_write_failure_ends_the_run unix.Join scenario.world_small_disk
           scenario.state_small_disk).
  - reflexivity.
  - apply run_reaches.
  - reflexivity.
Defined.

(** With batch size 1, after the first flush: the header and the first
    row are in the file, the buffer is empty. *)
Lemma X3_witness :
  let s := snd (run [TScanner; TMain; TMain] example.state_one) in
  content (bufio.wr (writer s))
  = "file_path,path_length" +++ LF +++ "/tmp/a/x.txt,12" +++ LF /\
  bufio.buf (writer s) = EmptyString.
Proof.
  intros s.
  destruct (X3_file_between_flushes unix.Join example.world_one
              example.state_one
              (fst (run [TScanner; TMain; TMain] example.state_one)) s
              eq_refl (run_reaches _ _) eq_refl) as (_ & _ & H).
  apply H. discriminate.
Defined.

(** An empty directory on a device that takes 4 bytes: exit code 0, and
    the file holds the first 4 bytes of the header. *)
Lemma X4_witness :
  let s := snd (run (example.round_robin 4) scenario.state_empty) in
  pc s = Exited 0 /\ content (bufio.wr (writer s)) = "file".
Proof.
  intros s.
  destruct (X4_exit_on_any_device unix.Join scenario.world_empty "/tmp/a" []
              scenario.state_empty
              (fst (run (example.round_robin 4) scenario.state_empty)) s
              eq_refl eq_refl (run_reaches _ _) eq_refl eq_refl)
    as (_ & _ & Hpc & _ & Hc).
  split; [exact Hpc|]. apply Hc. reflexivity.
Defined.

(** Two paths sent, none received yet. *)
Lemma X5_witness :
  let tr := fst (run [TScanner; TScanner] example.state_a) in
  let s := snd (run [TScanner; TScanner] example.state_a) in
  sent tr = received tr ++ pathChan s /\
  length (pathChan s) <= 1000 /\
  (exited s = false ->
   (scanner_step s = None ->
    scanner s <> Finished -> length (pathChan s) = 1000) /\
   (main_step s = None ->
    pc s = AtRange /\ pathChan s = [] /\ closed s = false)).
Proof.
  intros tr s.
  apply (X5_channel_and_waiting unix.Join example.world_a example.state_a).
  - reflexivity.
  - apply run_reaches.
Defined.

(** The scenario of two paths: at most 16 steps of work. *)
Lemma X6_witness :
  let tr := fst (run (example.round_robin 10) example.state_a) in
  let s := snd (run (example.round_robin 10) example.state_a) in
  length (work tr) + steps_left s <= 16 /\
  (steps_left s = 0 <-> exited s = true).
Proof.
  intros tr s.
  apply (X6_work_is_bounded unix.Join example.world_a "/tmp/a" ["100"]
           example.state_a tr s).
  - reflexivity.
  - reflexivity.
  - apply run_reaches.
Defined.

(** The scenario to its end: the frames, then the report of two files. *)
Lemma X8_witness :
  let tr := fst (run (example.round_robin 10) example.state_a) in
  let s := snd (run (example.round_robin 10) example.state_a) in
  stdout s = frames 0 (observed tr) +++ done_report 2 /\
  spinner s = Stopped.
Proof.
  intros tr s.
  destruct (X8_standard_output unix.Join example.world_a "/tmp/a" ["100"]
              example.state_a tr s eq_refl eq_refl (run_reaches _ _))
    as (Hout & _ & Hend).
  destruct (Hend eq_refl) as (Hsp & Hmain).
  split; [|exact Hsp].
  rewrite Hout, Hmain. reflexivity.
Defined.

(** With batch size 1 the spinner loads 0, 1, 1 and 2. *)
Lemma X9_witness :
  let tr := fst (run (example.round_robin 10) example.state_one) in
  observed tr = [0; 1; 1; 2]%Z /\
  StronglySorted Z.le (observed tr) /\
  Forall
    (fun c =>
       (exists k, c = k * batchSize example.state_one)%Z \/
       c = Z.of_nat
             (length (fst (WalkDir unix.Join scan_fn
                             (files example.world_one) "/tmp/a"))))
    (observed tr).
Proof.
  intros tr. split; [reflexivity|].
  destruct (X9_spinner_counts unix.Join example.world_one "/tmp/a" ["1"]
              example.state_one tr
              (snd (run (example.round_robin 10) example.state_one)))
    as (Hsorted & Hshape & _).
  - reflexivity.
  - reflexivity.
  - vm_compute. discriminate.
  - apply run_reaches.
  - split; assumption.
Defined.

(** The argument is a link to the tree of the scenario: one row, for the
    link. *)
Lemma X10_witness :
  resolve example.tree_a = inl ModeDir /\
  WalkDir unix.Join scan_fn (files scenario.world_link) "/tmp/a"
  = (["/tmp/a"], None) /\
  (let s := snd (run (example.round_robin 10) scenario.state_link) in
   pc s = Exited 0 /\
   content (bufio.wr (writer s))
   = "file_path,path_length" +++ LF +++ "/tmp/a,6" +++ LF).
Proof.
  destruct (X10_link_as_directory_argument unix.Join scenario.world_link
              "/tmp/a" [] example.tree_a scenario.state_link
              eq_refl eq_refl eq_refl) as (Hres & Hwalk & Hrun).
  split; [exact Hres|]. split; [exact Hwalk|].
  exact (Hrun eq_refl _ _
           (run_reaches (example.round_robin 10) scenario.state_link)
           eq_refl).
Defined.

(** A plain path and one with a comma. *)
Lemma X11_witness :
  csv.encode (record_of "/tmp/a/x.txt") = "/tmp/a/x.txt,12" +++ LF /\
  csv.encode (record_of "a,b")
  = DQUOTE +++ "a,b" +++ DQUOTE +++ ",3" +++ LF.
Proof.
  split.
  - apply (proj2 (proj2 (proj2 (X11_row_of_a_path "/tmp/a/x.txt")))).
    reflexivity.
  - exact (proj1 (proj2 (proj2 (X11_row_of_a_path "a,b")))).
Defined.

(** The scenario to its end: both directories were read, both files are
    in the file. *)
Lemma X12_witness :
  let tr := fst (run (example.round_robin 10) example.state_a) in
  let s := snd (run (example.round_robin 10) example.state_a) in
  readable example.tree_a = true /\
  received tr = ["/tmp/a/x.txt"; "/tmp/a/b/y.txt"] /\
  content (bufio.wr (writer s))
  = "file_path,path_length" +++ LF +++ "/tmp/a/x.txt,12" +++ LF
    +++ "/tmp/a/b/y.txt,14" +++ LF.
Proof.
  intros tr s.
  destruct (X12_exit_zero_means_complete unix.Join example.world_a "/tmp/a"
              ["100"] example.tree_a example.state_a tr s
              eq_refl eq_refl eq_refl (run_reaches _ _) eq_refl)
    as (Hread & Hrec & Hc).
  split; [exact Hread|]. split; [exact Hrec|].
  apply Hc. discriminate.
Defined.

(** The scenario of two paths ends within 16 rounds. *)
Lemma X13_witness :
  exited (snd (run (example.round_robin 16) example.state_a)) = true.
Proof.
  apply (X13_round_robin_terminates unix.Join example.world_a "/tmp/a"
           ["100"] example.state_a 16).
  - reflexivity.
  - reflexivity.
  - vm_compute. repeat constructor.
Defined.

(** The batch size argument [250]. *)
Lemma X14_witness :
  Atoi "250" = Some 250%Z /\
  forall s0,
    startup unix.Join (example.world ["/tmp/a"; "250"] example.tree_a)
    = Started s0 ->
    batchSize s0 = 250%Z.
Proof.
  destruct (X14_batch_size_argument unix.Join
              (example.world ["/tmp/a"; "250"] example.tree_a) "/tmp/a" []
              250) as (HA & _ & Hs).
  - vm_compute. split; discriminate.
  - reflexivity.
  - split; [exact HA|]. intros s0 H. exact (proj2 (Hs s0 H)).
Defined.
